(** * Seanime streaming provider "zoro" (src/hianime/zoro.ts)

    A shallow embedding of the [Provider] class: the settings, the query
    normaliser, the paginated search, the episode list, and the
    episode-server resolver with its master playlist parser, together with
    the properties of the specification that concern them and further
    properties of the code.

    Strings are JavaScript strings: finite sequences of UTF-16 code units,
    here lists of [N].  Regular expressions are kept as syntax and run by a
    backtracking matcher that follows the ECMAScript pattern semantics for
    the constructs the source uses. *)

From Stdlib Require Import NArith Lia String Ascii List Bool PrimFloat.
From Stdlib Require DecimalN.
From stdpp Require Import base option list gmap.

Local Open Scope N_scope.

(** ** Code units and strings *)

Abbreviation jsstring := (list N).

(** An ASCII literal of the source as a sequence of code units. *)
Definition js (s : string) : jsstring :=
  (fun a => N_of_ascii a) <$> list_ascii_of_string s.
Arguments js s%_string.

(** [WhiteSpace] and [LineTerminator] of ECMAScript: what [\s] matches and
    what [String.prototype.trim] strips. *)
Definition isWhiteSpace (c : N) : bool :=
  (c =? 9) || (c =? 10) || (c =? 11) || (c =? 12) || (c =? 13) || (c =? 32)
  || (c =? 0xA0) || (c =? 0x1680) || ((0x2000 <=? c) && (c <=? 0x200A))
  || (c =? 0x2028) || (c =? 0x2029) || (c =? 0x202F) || (c =? 0x205F)
  || (c =? 0x3000) || (c =? 0xFEFF).

(** [\d] *)
Definition isDigit (c : N) : bool := (48 <=? c) && (c <=? 57).

(** The word characters of [\b]: [A-Za-z0-9_]. *)
Definition isWordChar (c : N) : bool :=
  ((65 <=? c) && (c <=? 90)) || ((97 <=? c) && (c <=? 122)) || isDigit c
  || (c =? 95).

(** [Canonicalize] of a pattern without the [u] flag, when [i] is set: the
    upper-case form of the code unit.  ASCII letters map to their capitals; a
    unit from 128 on is never mapped below 128 by ECMAScript, and since every
    pattern character of the source is ASCII only that fact matters, so such
    units are left as they are. *)
Definition canonicalize (c : N) : N :=
  if (97 <=? c) && (c <=? 122) then c - 32 else c.

Definition startsWith (p s : jsstring) : bool :=
  bool_decide (take (length p) s = p).

Fixpoint trimStart (s : jsstring) : jsstring :=
  match s with
  | [] => []
  | c :: s' => if isWhiteSpace c then trimStart s' else s
  end.

Definition trimEnd (s : jsstring) : jsstring :=
  reverse (trimStart (reverse s)).

Definition trim (s : jsstring) : jsstring := trimEnd (trimStart s).

(** [s.split(sep)] for a one-unit separator: never the empty array. *)
Fixpoint split (sep : N) (s : jsstring) : list jsstring :=
  match s with
  | [] => [[]]
  | c :: s' =>
      if c =? sep then [] :: split sep s'
      else match split sep s' with
           | l :: ls => (c :: l) :: ls
           | [] => [[c]]
           end
  end.

(** Number to string, for the non-negative integers the source prints. *)
Fixpoint uint_digits (d : Decimal.uint) : jsstring :=
  match d with
  | Decimal.Nil => []
  | Decimal.D0 d => 48 :: uint_digits d
  | Decimal.D1 d => 49 :: uint_digits d
  | Decimal.D2 d => 50 :: uint_digits d
  | Decimal.D3 d => 51 :: uint_digits d
  | Decimal.D4 d => 52 :: uint_digits d
  | Decimal.D5 d => 53 :: uint_digits d
  | Decimal.D6 d => 54 :: uint_digits d
  | Decimal.D7 d => 55 :: uint_digits d
  | Decimal.D8 d => 56 :: uint_digits d
  | Decimal.D9 d => 57 :: uint_digits d
  end.

Definition numToString (n : N) : jsstring := uint_digits (N.to_uint n).

(** ** Regular expressions *)

Module Regex.

Inductive regex : Type :=
| Empty
| Chr (p : N -> bool)            (* a character, class or escape *)
| Seq (r1 r2 : regex)
| Alt (r1 r2 : regex)            (* r1|r2 *)
| Star (r : regex)               (* r*, greedy *)
| Group (n : nat) (r : regex)    (* the n-th capturing parentheses *)
| WordBoundary                   (* \b *)
| EndOfInput.                    (* $ without the m flag *)

(** [r+], for an [r] that always consumes input (a character or class), as
    everywhere in the source. *)
Definition Plus (r : regex) : regex := Seq r (Star r).

(** A pattern character; [icase] is the [i] flag.  The classes [\d] and
    [\s] match the same units with and without the flag: no other unit has
    a digit or a white space as its upper-case form. *)
Definition lit (icase : bool) (c : N) : regex :=
  Chr (fun x => if icase then canonicalize x =? canonicalize c else x =? c).

(** A run of pattern characters. *)
Fixpoint word (icase : bool) (s : jsstring) : regex :=
  match s with
  | [] => Empty
  | c :: s' => Seq (lit icase c) (word icase s')
  end.

Abbreviation captures := (gmap nat jsstring).

(** A continuation receives the unit before the current position, the
    rest of the input and the captures. *)
Definition cont (R : Type) : Type :=
  option N -> jsstring -> captures -> option R.

Definition isWordAt (c : option N) : bool :=
  match c with Some c => isWordChar c | None => false end.

(** The loop of [r*], given the matcher [m1] of [r]: one more iteration is
    tried first (greedy), and an iteration that consumes nothing is
    rejected, as in ECMAScript, so [length s] iterations are the most there
    can be. *)
Fixpoint star_loop {R} (m1 : option N -> jsstring -> captures -> cont R -> option R)
    (k : cont R) (fuel : nat) (prev : option N) (s : jsstring)
    (caps : captures) : option R :=
  match fuel with
  | O => k prev s caps
  | S fuel' =>
      match m1 prev s caps (fun prev' s' caps' =>
              if (length s' <? length s)%nat
              then star_loop m1 k fuel' prev' s' caps' else None) with
      | Some x => Some x
      | None => k prev s caps
      end
  end.

(** The backtracking matcher.  [prev] is the unit just before the current
    position ([None] at the start of the input) and [s] the input from the
    current position on. *)
Fixpoint rmatch {R} (r : regex) (prev : option N) (s : jsstring)
    (caps : captures) (k : cont R) : option R :=
  match r with
  | Empty => k prev s caps
  | Chr p =>
      match s with
      | c :: s' => if p c then k (Some c) s' caps else None
      | [] => None
      end
  | Seq r1 r2 =>
      rmatch r1 prev s caps (fun prev' s' caps' => rmatch r2 prev' s' caps' k)
  | Alt r1 r2 =>
      match rmatch r1 prev s caps k with
      | Some x => Some x
      | None => rmatch r2 prev s caps k
      end
  | Star r1 => star_loop (rmatch r1) k (length s) prev s caps
  | Group n r1 =>
      rmatch r1 prev s caps (fun prev' s' caps' =>
        k prev' s' (<[n := take (length s - length s') s]> caps'))
  | WordBoundary =>
      if xorb (isWordAt prev) (isWordAt (head s)) then k prev s caps else None
  | EndOfInput =>
      match s with [] => k prev s caps | _ :: _ => None end
  end.

(** The result of a successful match: the array [m] of [exec] (the whole
    match [m[0]] and the groups), with the input before and after it. *)
Record MatchResult : Type := mkMatch {
  before : jsstring;
  matched : jsstring;
  groups : captures;
  after : jsstring
}.

Definition group (m : MatchResult) (n : nat) : jsstring :=
  default [] (groups m !! n).

Definition shift (c : N) (m : MatchResult) : MatchResult :=
  mkMatch (c :: before m) (matched m) (groups m) (after m).

(** The continuation of a whole pattern: the match ends here. *)
Definition final : cont (jsstring * captures) :=
  fun _ s' caps => Some (s', caps).

(** The leftmost match at or after the current position. *)
Fixpoint exec_from (r : regex) (prev : option N) (s : jsstring)
    : option MatchResult :=
  match rmatch r prev s ∅ final with
  | Some (s', caps) =>
      Some (mkMatch [] (take (length s - length s') s) caps s')
  | None =>
      match s with
      | [] => None
      | c :: s' => shift c <$> exec_from r (Some c) s'
      end
  end.

(** [s.match(r)] and [r.exec(s)] for [r] without the [g] flag. *)
Definition exec (r : regex) (s : jsstring) : option MatchResult :=
  exec_from r None s.

(** [r.test(s)] *)
Definition test (r : regex) (s : jsstring) : bool :=
  bool_decide (is_Some (exec r s)).

(** A replacement string: literal text and [$n] references. *)
Inductive part : Type := Lit (s : jsstring) | Ref (n : nat).

Definition substitute (tpl : list part) (m : MatchResult) : jsstring :=
  concat ((fun p => match p with Lit s => s | Ref n => group m n end) <$> tpl).

(** [s.replace(r, tpl)] for [r] without the [g] flag: the first match. *)
Definition replace (r : regex) (tpl : list part) (s : jsstring) : jsstring :=
  match exec r s with
  | Some m => before m ++ substitute tpl m ++ after m
  | None => s
  end.

(** [s.replace(r, tpl)] for [r] with the [g] flag: every match, left to
    right, each search starting where the previous match ended (one unit
    further after an empty match).  Every round moves on in [s], so fuel
    beyond [length s] is never used up. *)
Fixpoint replace_from (fuel : nat) (r : regex) (tpl : list part)
    (prev : option N) (s : jsstring) : jsstring :=
  match fuel with
  | O => s
  | S fuel' =>
      match exec_from r prev s with
      | None => s
      | Some m =>
          before m ++ substitute tpl m ++
          match matched m with
          | [] =>
              match after m with
              | [] => []
              | c :: s' => c :: replace_from fuel' r tpl (Some c) s'
              end
          | _ :: _ =>
              replace_from fuel' r tpl (last (matched m)) (after m)
          end
      end
  end.

Definition replaceAll (r : regex) (tpl : list part) (s : jsstring)
    : jsstring :=
  replace_from (S (length s)) r tpl None s.

End Regex.

Import Regex.

(** ** [encodeURIComponent] *)

Definition uriUnreserved (c : N) : bool :=
  ((65 <=? c) && (c <=? 90)) || ((97 <=? c) && (c <=? 122)) || isDigit c
  || (c =? 45) || (c =? 95) || (c =? 46) || (c =? 33) || (c =? 126)
  || (c =? 42) || (c =? 39) || (c =? 40) || (c =? 41).

Definition utf8 (v : N) : list N :=
  if v <? 0x80 then [v]
  else if v <? 0x800 then [0xC0 + v / 64; 0x80 + v mod 64]
  else if v <? 0x10000 then
    [0xE0 + v / 4096; 0x80 + (v / 64) mod 64; 0x80 + v mod 64]
  else
    [0xF0 + v / 262144; 0x80 + (v / 4096) mod 64; 0x80 + (v / 64) mod 64;
     0x80 + v mod 64].

Definition hexDigit (d : N) : N := if d <? 10 then 48 + d else 55 + d.

Definition percent (bytes : list N) : jsstring :=
  concat ((fun b => [37; hexDigit (b / 16); hexDigit (b mod 16)]) <$> bytes).

(** [None] is the [URIError] thrown for a lone surrogate. *)
Fixpoint encodeURIComponent (s : jsstring) : option jsstring :=
  match s with
  | [] => Some []
  | c :: s' =>
      if uriUnreserved c then (c ::.) <$> encodeURIComponent s'
      else if (0xDC00 <=? c) && (c <=? 0xDFFF) then None
      else if (0xD800 <=? c) && (c <=? 0xDBFF) then
        match s' with
        | d :: s'' =>
            if (0xDC00 <=? d) && (d <=? 0xDFFF) then
              (percent (utf8 ((c - 0xD800) * 0x400 + (d - 0xDC00) + 0x10000)) ++.)
                <$> encodeURIComponent s''
            else None
        | [] => None
        end
      else (percent (utf8 c) ++.) <$> encodeURIComponent s'
  end.

(** ** The upstream API and the host's types *)

(** [_AnimeResult] *)
Record AnimeResult : Type := {
  ar_id : jsstring;
  ar_title : jsstring;
  ar_url : jsstring;
  ar_image : jsstring;
  ar_duration : jsstring;
  ar_watchList : jsstring;
  ar_japaneseTitle : jsstring;
  ar_type : jsstring;
  ar_nsfw : bool;
  ar_sub : float;
  ar_dub : float;
  ar_episodes : float
}.

(** [_SearchPage] *)
Record SearchPage : Type := {
  hasNextPage : bool;
  results : list AnimeResult
}.

Record Source : Type := {
  src_url : jsstring;
  src_isM3U8 : bool;
  src_type : jsstring
}.

Record Track : Type := {
  trk_url : jsstring;
  trk_lang : jsstring
}.

(** [_WatchResponse] *)
Record WatchResponse : Type := {
  intro : float * float;
  outro : float * float;
  sources : list Source;
  subtitles : list Track
}.

(** What [resp.json()] yields, seen through the casts of the source. *)
Inductive Json : Type :=
| JSearchPage (p : SearchPage)
| JWatchResponse (w : WatchResponse)
| JOther.

(** A [fetch] response: [json] is [None] when the body is not JSON. *)
Record Response : Type := {
  ok : bool;
  status : N;
  statusText : jsstring;
  text : jsstring;
  json : option Json
}.

Record SearchOptions : Type := {
  query : jsstring
}.

Record SearchResult : Type := {
  sr_id : jsstring;
  sr_title : jsstring;
  sr_url : jsstring;
  sr_subOrDub : jsstring
}.

Record EpisodeDetails : Type := {
  ep_id : jsstring;
  ep_number : float;
  ep_url : jsstring;
  ep_title : jsstring
}.

Record VideoSubtitle : Type := {
  vsub_id : jsstring;
  vsub_url : jsstring;
  vsub_language : jsstring;
  vsub_isDefault : bool
}.

Record VideoSource : Type := {
  vs_url : jsstring;
  vs_type : jsstring;
  vs_quality : jsstring;
  vs_subtitles : list VideoSubtitle
}.

Record EpisodeServer : Type := {
  server : jsstring;
  headers : gmap jsstring jsstring;
  videoSources : list VideoSource
}.

(** An entry of [_InfoResponse]; [isFiller], [isSubbed] and [isDubbed] are
    not read. *)
Record EpisodeInfo : Type := {
  ei_id : jsstring;
  ei_number : float;
  ei_title : jsstring;
  ei_url : jsstring
}.

(** [_InfoResponse] *)
Record InfoResponse : Type := {
  episodes : list EpisodeInfo
}.

(** [Settings] *)
Record Settings : Type := {
  episodeServers : list jsstring;
  supportsDub : bool
}.

(** ** Effects: requests, exceptions, and the unbounded loop *)

Inductive exn : Type :=
| Error (msg : jsstring)
| TypeError
| SyntaxError
| URIError.

Inductive outcome (A : Type) : Type :=
| Ok (a : A)
| Throw (e : exn)
| OutOfFuel.
Arguments Ok {A} a.
Arguments Throw {A} e.
Arguments OutOfFuel {A}.

(** A computation reads and extends the log of requested URLs. *)
Definition M (A : Type) : Type := list jsstring -> outcome A * list jsstring.

Definition ret {A} (a : A) : M A := fun log => (Ok a, log).
Definition throw {A} (e : exn) : M A := fun log => (Throw e, log).
Definition diverge {A} : M A := fun log => (OutOfFuel, log).
Definition bind {A B} (m : M A) (f : A -> M B) : M B :=
  fun log =>
    match m log with
    | (Ok a, log') => f a log'
    | (Throw e, log') => (Throw e, log')
    | (OutOfFuel, log') => (OutOfFuel, log')
    end.

Notation "'do' x <- m ; k" := (bind m (fun x => k))
  (at level 10, x name, m at level 100, k at level 200).

Definition lift {A} (e : exn) (o : option A) : M A :=
  match o with Some a => ret a | None => throw e end.

(** ** The provider *)

Section Provider.

(** The upstream: what a GET of a URL answers. *)
Variable upstream : jsstring -> Response.

Definition fetch (url : jsstring) : M Response :=
  fun log => (Ok (upstream url), log ++ [url]).

Definition apiURL : jsstring := js "https://d2dd7450351ba6fb.vercel.app".

(** *** getSettings (lines 54-59) *)

Definition getSettings : Settings :=
  {| episodeServers := [js "server1"; js "server2"];
     supportsDub := true |}.

(** *** normalizeQuery (lines 204-213) *)

(** [/\b(\d+)(st|nd|rd|th)\b/g] *)
Definition re_ordinal : regex :=
  Seq WordBoundary
    (Seq (Group 1 (Plus (Chr isDigit)))
       (Seq (Group 2 (Alt (word false (js "st"))
                     (Alt (word false (js "nd"))
                     (Alt (word false (js "rd"))
                          (word false (js "th"))))))
          WordBoundary)).

(** [/\s+/g] *)
Definition re_spaces : regex := Plus (Chr isWhiteSpace).

(** [/(\d+)\s*Season/i] *)
Definition re_num_season : regex :=
  Seq (Group 1 (Plus (Chr isDigit)))
    (Seq (Star (Chr isWhiteSpace)) (word true (js "Season"))).

(** [/Season\s*(\d+)/i] *)
Definition re_season_num : regex :=
  Seq (word true (js "Season"))
    (Seq (Star (Chr isWhiteSpace)) (Group 1 (Plus (Chr isDigit)))).

Definition normalizeQuery (query : jsstring) : jsstring :=
  let normalizedQuery :=
    trim
      (replace re_season_num [Ref 1]
         (replace re_num_season [Ref 1]
            (replaceAll re_spaces [Lit (js " ")]
               (replaceAll re_ordinal [Ref 1] query)))) in
  normalizedQuery.

(** *** search (lines 61-108) *)

(** The counts are JavaScript numbers: [r.sub > 0] is false for NaN. *)
Definition subOrDub (r : AnimeResult) : jsstring :=
  if PrimFloat.ltb 0 (ar_sub r) && PrimFloat.ltb 0 (ar_dub r) then js "both"
  else if PrimFloat.ltb 0 (ar_dub r) then js "dub"
  else js "sub".

Definition toSearchResult (r : AnimeResult) : SearchResult :=
  {| sr_id := ar_id r;
     sr_title := ar_title r;
     sr_url := apiURL ++ js "/anime/zoro/info?id=" ++ ar_id r;
     sr_subOrDub := subOrDub r |}.

(** The request URL of a page, [enc] being the encoded keyword. *)
Definition searchUrl (enc : jsstring) (page : N) : jsstring :=
  apiURL ++ js "/anime/zoro/" ++ enc ++ js "?page=" ++ numToString page.

(** The cast [(await resp.json()) as _SearchPage] followed by the uses of
    [results]: a body that is not JSON makes [json()] reject, one of
    another shape makes [results.map] throw. *)
Definition asSearchPage (resp : Response) : M SearchPage :=
  match json resp with
  | None => throw SyntaxError
  | Some (JSearchPage p) => ret p
  | Some _ => throw TypeError
  end.

(** The [while (hasNext)] loop; [fuel] bounds the number of tests of
    [hasNext]. *)
Fixpoint search_while (fuel : nat) (keyword : jsstring)
    (allResults : list SearchResult) (page : N) (hasNext : bool)
    : M (list SearchResult) :=
  match fuel with
  | O => diverge
  | S fuel' =>
      if hasNext then
        do enc <- lift URIError (encodeURIComponent keyword);
        let url := searchUrl enc page in
        do resp <- fetch url;
        if negb (ok resp) then
          throw (Error (js "Search failed (page " ++ numToString page
                        ++ js "): " ++ numToString (status resp)
                        ++ js " " ++ statusText resp))
        else
          do p <- asSearchPage resp;
          let allResults := allResults ++ (toSearchResult <$> results p) in
          search_while fuel' keyword allResults (page + 1) (hasNextPage p)
      else ret allResults
  end.

Definition search (fuel : nat) (q : SearchOptions)
    : M (list SearchResult) :=
  let keyword := normalizeQuery (query q) in
  search_while fuel keyword [] 1 true.

(** *** findEpisodes (lines 109-127) *)

(** What [resp.json()] yields for a response, seen through the cast
    [as _InfoResponse] and the use of [data.episodes]: [None] for a body
    that is not JSON, [Some None] for JSON without an [episodes] array. *)
Variable infoOf : Response -> option (option InfoResponse).

Definition asInfoResponse (resp : Response) : M InfoResponse :=
  match infoOf resp with
  | None => throw SyntaxError
  | Some None => throw TypeError
  | Some (Some data) => ret data
  end.

Definition toEpisodeDetails (ep : EpisodeInfo) : EpisodeDetails :=
  {| ep_id := ei_id ep;
     ep_number := ei_number ep;
     ep_url := apiURL ++ js "/anime/zoro/watch/" ++ ei_id ep;
     ep_title := ei_title ep |}.

Definition findEpisodes (id : jsstring) : M (list EpisodeDetails) :=
  let url := apiURL ++ js "/anime/zoro/info?id=" ++ id in
  do resp <- fetch url;
  if negb (ok resp) then
    throw (Error (js "Failed to fetch episode info for " ++ [34] ++ id
                  ++ [34] ++ js ": " ++ numToString (status resp)
                  ++ js " " ++ statusText resp))
  else
    do data <- asInfoResponse resp;
    ret (toEpisodeDetails <$> episodes data).

(** *** findEpisodeServer (lines 128-203) *)

(** The watch URL, [enc] being the encoded episode id. *)
Definition watchUrl (enc : jsstring) : jsstring :=
  apiURL ++ js "/anime/zoro/watch/" ++ enc.

(** The cast [(await watchResp.json()) as _WatchResponse] followed by the
    uses of [sources] and [subtitles]. *)
Definition asWatchResponse (resp : Response) : M WatchResponse :=
  match json resp with
  | None => throw SyntaxError
  | Some (JWatchResponse w) => ret w
  | Some _ => throw TypeError
  end.

(** [/\/[^/]*$/] *)
Definition re_last_segment : regex :=
  Seq (lit false 47) (Seq (Star (Chr (fun c => negb (c =? 47)))) EndOfInput).

(** [/RESOLUTION=(\d+)x(\d+)/] *)
Definition re_resolution : regex :=
  Seq (word false (js "RESOLUTION="))
    (Seq (Group 1 (Plus (Chr isDigit)))
       (Seq (lit false 120) (Group 2 (Plus (Chr isDigit))))).

(** [/English/i] *)
Definition re_english : regex := word true (js "English").

Record Variant : Type := { res : jsstring; uri : jsstring }.

(** The body of the [for] loop over the lines, at index [i] (lines
    168-182). *)
Definition scanLine (lines : list jsstring) (i : nat)
    (variants : list Variant) : list Variant :=
  match lines !! i with
  | None => variants
  | Some line =>
      if startsWith (js "#EXT-X-STREAM-INF:") line then
        match exec re_resolution line with
        | Some m =>
            let height := group m 2 in
            match trim <$> lines !! (i + 1)%nat with
            | Some uri =>
                if negb (bool_decide (uri = [])) && negb (startsWith (js "#") uri)
                then variants ++ [{| res := height ++ js "p"; uri := uri |}]
                else variants
            | None => variants
            end
        | None => variants
        end
      else variants
  end.

(** [for (let i = 0; i < lines.length; i++)], with [n] iterations left. *)
Fixpoint scanLines (lines : list jsstring) (n : nat) (i : nat)
    (variants : list Variant) : list Variant :=
  match n with
  | O => variants
  | S n' => scanLines lines n' (S i) (scanLine lines i variants)
  end.

(** The variants of the playlist text (lines 165-183). *)
Definition parseVariants (playlistText : jsstring) : list Variant :=
  let lines := split 10 playlistText in
  scanLines lines (length lines) 0 [].

(** [watchData.subtitles.map((sub, idx) => ...)] (lines 190-195). *)
Definition toSubtitles (episode : EpisodeDetails) (subs : list Track)
    : list VideoSubtitle :=
  imap (fun idx sub =>
          {| vsub_id := ep_id episode ++ js "-sub-" ++ numToString (N.of_nat idx);
             vsub_url := trk_url sub;
             vsub_language := trk_lang sub;
             vsub_isDefault := test re_english (trk_lang sub) |}) subs.

Definition findEpisodeServer (episode : EpisodeDetails) (_server : jsstring)
    : M EpisodeServer :=
  let serverName :=
    if bool_decide (_server = js "default") then js "zoro" else _server in
  do enc <- lift URIError (encodeURIComponent (ep_id episode));
  do watchResp <- fetch (watchUrl enc);
  if negb (ok watchResp) then
    throw (Error (js "Failed to fetch watch info for " ++ [34] ++ ep_id episode
                  ++ [34] ++ js ": " ++ numToString (status watchResp)))
  else
    do watchData <- asWatchResponse watchResp;
    match find (fun s => src_isM3U8 s) (sources watchData) with
    | None => throw (Error (js "No HLS master playlist found"))
    | Some masterEntry =>
        do playlistResp <- fetch (src_url masterEntry);
        if negb (ok playlistResp) then
          throw (Error (js "Failed to fetch master playlist: "
                        ++ numToString (status playlistResp)))
        else
          let playlistText := text playlistResp in
          let baseUrl := replace re_last_segment [Lit (js "/")] (src_url masterEntry) in
          let variants := parseVariants playlistText in
          let videoSources :=
            (fun v =>
               {| vs_url := baseUrl ++ uri v;
                  vs_type := js "m3u8";
                  vs_quality := res v;
                  vs_subtitles := toSubtitles episode (subtitles watchData) |})
              <$> variants in
          ret {| server := serverName;
                 headers := ∅;
                 videoSources := videoSources |}
    end.

End Provider.

(** * Auxiliary definitions for the statements and proofs *)

(** The longest prefix of units satisfying [p], and what follows it. *)
Fixpoint takeWhile (p : N -> bool) (s : jsstring) : jsstring :=
  match s with
  | [] => []
  | c :: s' => if p c then c :: takeWhile p s' else []
  end.

Fixpoint dropWhile (p : N -> bool) (s : jsstring) : jsstring :=
  match s with
  | [] => []
  | c :: s' => if p c then dropWhile p s' else s
  end.

(** The unit before the position reached after reading [t]. *)
Definition advance (prev : option N) (t : jsstring) : option N :=
  match last t with Some c => Some c | None => prev end.

Definition litb (icase : bool) (c x : N) : bool :=
  if icase then canonicalize x =? canonicalize c else x =? c.

(** [s] begins with the pattern characters [w]. *)
Fixpoint prefixb (icase : bool) (w s : jsstring) : bool :=
  match w, s with
  | [], _ => true
  | c :: w', x :: s' => litb icase c x && prefixb icase w' s'
  | _ :: _, [] => false
  end.

(** What [p*] followed by [k] computes: the longest run first, then each
    shorter one. *)
Fixpoint greedy {R} (p : N -> bool) (k : cont R) (prev : option N)
    (s : jsstring) (caps : captures) : option R :=
  match s with
  | c :: s' =>
      if p c then
        match greedy p k (Some c) s' caps with
        | Some x => Some x
        | None => k prev s caps
        end
      else k prev s caps
  | [] => k prev s caps
  end.

(** A matcher hands its continuation a suffix of what it was given. *)
Definition hands_suffix {R}
    (m : option N -> jsstring -> captures -> cont R -> option R) : Prop :=
  forall prev s caps k x,
    m prev s caps k = Some x ->
    exists prev' s' caps', k prev' s' caps' = Some x /\ s' `suffix_of` s.

(** The attribute [RESOLUTION=<width>x<height>] read at the start of [s]:
    the literal text, a number, the letter x, a number. *)
Definition resolutionAt (s : jsstring) : option (jsstring * jsstring) :=
  if prefixb false (js "RESOLUTION=") s then
    let s1 := drop 11 s in
    let w := takeWhile isDigit s1 in
    match dropWhile isDigit s1 with
    | x :: s2 =>
        let h := takeWhile isDigit s2 in
        if (x =? 120) && negb (bool_decide (w = [])) && negb (bool_decide (h = []))
        then Some (w, h) else None
    | [] => None
    end
  else None.

(** The first such attribute of a line, as (width, height). *)
Fixpoint firstResolution (s : jsstring) : option (jsstring * jsstring) :=
  match resolutionAt s with
  | Some r => Some r
  | None => match s with [] => None | _ :: s' => firstResolution s' end
  end.

(** A non-empty run of digits. *)
Definition isNumber (s : jsstring) : Prop :=
  s <> [] /\ Forall (fun c => isDigit c = true) s.

(** The line has an attribute [RESOLUTION=<width>x<height>] somewhere. *)
Definition hasResolution (line : jsstring) : Prop :=
  exists pre w h post,
    line = pre ++ js "RESOLUTION=" ++ w ++ js "x" ++ h ++ post
    /\ isNumber w /\ isNumber h.

(** [hay] contains [needle], letter case of ASCII letters ignored. *)
Definition containsIgnoreCase (needle hay : jsstring) : Prop :=
  exists pre mid post,
    hay = pre ++ mid ++ post
    /\ canonicalize <$> mid = canonicalize <$> needle.

(** Lines joined by line feeds: the text whose [split] gives them back. *)
Fixpoint joinLines (ls : list jsstring) : jsstring :=
  match ls with
  | [] => []
  | [l] => l
  | l :: ls' => l ++ 10 :: joinLines ls'
  end.

(** The variants a whole list of lines gives, each line seen with its
    successor. *)
Fixpoint scanAll (lines : list jsstring) : list Variant :=
  match lines with
  | [] => []
  | l :: rest => scanLine (l :: rest) 0 [] ++ scanAll rest
  end.

(** [[^/]] *)
Definition notSlash (c : N) : bool := negb (c =? 47).

(** The marker of a variant's tag line. *)
Definition tagPrefix : jsstring := js "#EXT-X-STREAM-INF:".

(** The variant a tag line and the line after it stand for: the height of
    the first resolution attribute, and the trimmed URI line unless it is
    blank or a comment. *)
Definition variantOf (e : jsstring * jsstring) : option Variant :=
  match firstResolution e.1 with
  | Some (_, height) =>
      let u := trim e.2 in
      if negb (bool_decide (u = [])) && negb (startsWith (js "#") u)
      then Some {| res := height ++ js "p"; uri := u |}
      else None
  | None => None
  end.

(** A playlist of tag lines, each followed by its URI line. *)
Definition playlistOf (entries : list (jsstring * jsstring)) : jsstring :=
  joinLines (flat_map (fun e => [e.1; e.2]) entries).

(** The video source of a variant, [base] being the manifest's base path. *)
Definition toVideoSource (base : jsstring) (subs : list VideoSubtitle)
    (v : Variant) : VideoSource :=
  {| vs_url := base ++ uri v; vs_type := js "m3u8"; vs_quality := res v;
     vs_subtitles := subs |}.

(** The video sources built from the variants of a playlist. *)
Definition sourcesOf (episode : EpisodeDetails) (w : WatchResponse)
    (masterEntry : Source) (playlistText : jsstring) : list VideoSource :=
  toVideoSource (replace re_last_segment [Lit (js "/")] (src_url masterEntry))
    (toSubtitles episode (subtitles w))
    <$> parseVariants playlistText.

(** The server name of a result. *)
Definition serverLabel (_server : jsstring) : jsstring :=
  if bool_decide (_server = js "default") then js "zoro" else _server.

(** An upstream item with the given counts, other fields as in [r]. *)
Definition withCounts (sub dub : float) (r : AnimeResult) : AnimeResult :=
  {| ar_id := ar_id r; ar_title := ar_title r; ar_url := ar_url r;
     ar_image := ar_image r; ar_duration := ar_duration r;
     ar_watchList := ar_watchList r; ar_japaneseTitle := ar_japaneseTitle r;
     ar_type := ar_type r; ar_nsfw := ar_nsfw r;
     ar_sub := sub; ar_dub := dub; ar_episodes := ar_episodes r |}.

(** A playlist line that is well formed for [split]: no line feed in it. *)
Definition isLine (l : jsstring) : Prop := 10 ∉ l.

(** The upstream answers [pages], one after the other, to the requests for
    the pages from number [page] on, and only the last of them has no next
    page; [enc] is the encoded keyword. *)
Definition serves (upstream : jsstring -> Response) (enc : jsstring)
    (page : N) (pages : list SearchPage) : Prop :=
  forall i p,
    pages !! i = Some p ->
    ok (upstream (searchUrl enc (page + N.of_nat i))) = true
    /\ json (upstream (searchUrl enc (page + N.of_nat i))) = Some (JSearchPage p)
    /\ hasNextPage p = bool_decide (S i < length pages)%nat.

(** ** Ordinal words *)

Definition someb {A} (o : option A) : bool :=
  match o with Some _ => true | None => false end.

(** One of the suffixes st, nd, rd, th. *)
Definition isSuffix2 (W : jsstring) : bool :=
  bool_decide (W = js "st") || bool_decide (W = js "nd")
  || bool_decide (W = js "rd") || bool_decide (W = js "th").

(** A run of word characters that is a number with an ordinal suffix. *)
Definition ordWord (W : jsstring) : bool :=
  match W with
  | c :: W1 => isDigit c && isSuffix2 (dropWhile isDigit W1)
  | [] => false
  end.

(** The ordinal pattern matches at the start of [s], [bp] telling whether
    the unit before is a word character. *)
Definition ordAt (bp : bool) (s : jsstring) : bool :=
  negb bp && ordWord (takeWhile isWordChar s).

(** The ordinal pattern matches nowhere in [s]. *)
Fixpoint noOrdb (bp : bool) (s : jsstring) : bool :=
  negb (ordAt bp s)
  && match s with [] => true | c :: s' => noOrdb (isWordChar c) s' end.

(** ** Whitespace-normal strings *)

Definition notWhiteSpace (c : N) : bool := negb (isWhiteSpace c).

(** Every run of white space replaced by one space; [inRun] tells that the
    unit before was white space. *)
Fixpoint squeeze (inRun : bool) (s : jsstring) : jsstring :=
  match s with
  | [] => []
  | c :: s' =>
      if isWhiteSpace c then
        if inRun then squeeze true s' else 32 :: squeeze true s'
      else c :: squeeze false s'
  end.

Definition startsWithSpace (s : jsstring) : bool :=
  match s with c :: _ => isWhiteSpace c | [] => false end.

(** The only white space is single spaces. *)
Fixpoint normalb (s : jsstring) : bool :=
  match s with
  | [] => true
  | c :: s' =>
      (if isWhiteSpace c then (c =? 32) && negb (startsWithSpace s') else true)
      && normalb s'
  end.

(** ** Requests, error messages and encodings *)

(** The URL of the info endpoint for an anime id. *)
Definition infoUrl (id : jsstring) : jsstring :=
  apiURL ++ js "/anime/zoro/info?id=" ++ id.

(** The URLs of the search pages 1 to [n] for the encoded keyword [enc]. *)
Definition pageUrls (enc : jsstring) (n : nat) : list jsstring :=
  (fun i => searchUrl enc (N.of_nat (S i))) <$> seq 0 n.

(** The message of the error thrown for a failed page request. *)
Definition searchFailed (page : N) (resp : Response) : jsstring :=
  js "Search failed (page " ++ numToString page ++ js "): "
  ++ numToString (status resp) ++ js " " ++ statusText resp.

(** The message of the error thrown when the info request fails. *)
Definition infoFailed (id : jsstring) (resp : Response) : jsstring :=
  js "Failed to fetch episode info for " ++ [34] ++ id ++ [34] ++ js ": "
  ++ numToString (status resp) ++ js " " ++ statusText resp.

(** The message of the error thrown when the watch request fails. *)
Definition watchFailed (id : jsstring) (resp : Response) : jsstring :=
  js "Failed to fetch watch info for " ++ [34] ++ id ++ [34] ++ js ": "
  ++ numToString (status resp).

(** The surrogate code units of UTF-16. *)
Definition isHighSurrogate (c : N) : bool := (0xD800 <=? c) && (c <=? 0xDBFF).

Definition isLowSurrogate (c : N) : bool := (0xDC00 <=? c) && (c <=? 0xDFFF).

(** A string of 16-bit code units. *)
Definition isCodeUnits (s : jsstring) : Prop := Forall (fun c => c < 0x10000) s.

(** The string has a surrogate without its partner: a high one that no low
    one follows, or a low one that no high one precedes. *)
Definition loneSurrogate (s : jsstring) : Prop :=
  exists pre c post,
    s = pre ++ c :: post
    /\ ((isHighSurrogate c = true
         /\ forall d, head post = Some d -> isLowSurrogate d = false)
        \/ (isLowSurrogate c = true
            /\ forall h, last pre = Some h -> isHighSurrogate h = false)).

(** A unit that may stand in an encoded URI component: unreserved, or the
    percent sign of an escape. *)
Definition uriSafe (c : N) : bool := uriUnreserved c || (c =? 37).

(** The lines of a playlist that begin with the variant tag. *)
Definition tagLines (lines : list jsstring) : list jsstring :=
  List.filter (startsWith tagPrefix) lines.

(** [l'] is the line [l], with or without a carriage return at its end. *)
Definition sameLine (l l' : jsstring) : Prop := l' = l \/ l' = l ++ [13].

(** [base] is what [url.replace(/\/[^/]*$/, "/")] gives. *)
Definition baseUrl (url : jsstring) : jsstring :=
  replace re_last_segment [Lit (js "/")] url.

(** The digits of a string, in order. *)
Definition digitsOf (s : jsstring) : jsstring := List.filter isDigit s.

(** What a run of white space becomes when the runs are collapsed. *)
Definition oneSpace (W : jsstring) : jsstring :=
  match W with [] => [] | _ :: _ => [32] end.

(** ** Sample data *)

Definition okJson (j : Json) : Response :=
  {| ok := true; status := 200; statusText := js "OK"; text := []; json := Some j |}.

Definition okText (t : jsstring) : Response :=
  {| ok := true; status := 200; statusText := js "OK"; text := t; json := None |}.

Definition notFound : Response :=
  {| ok := false; status := 404; statusText := js "Not Found"; text := [];
     json := None |}.

Definition demoEpisode : EpisodeDetails :=
  {| ep_id := js "ep-7"; ep_number := 7;
     ep_url := js "https://d2dd7450351ba6fb.vercel.app/anime/zoro/watch/ep-7";
     ep_title := js "Seven" |}.

Definition demoEntries : list (jsstring * jsstring) :=
  [ (js "#EXT-X-STREAM-INF:...RESOLUTION=1280x720", js "variant720.m3u8");
    (js "#EXT-X-STREAM-INF:...RESOLUTION=640x360", js "variant360.m3u8") ].

Definition demoPlaylist : jsstring :=
  js "#EXT-X-STREAM-INF:...RESOLUTION=1280x720
variant720.m3u8
#EXT-X-STREAM-INF:...RESOLUTION=640x360
variant360.m3u8".

Definition demoWatch : WatchResponse :=
  {| intro := (0, 90)%float; outro := (1300, 1390)%float;
     sources :=
       [ {| src_url := js "https://x/y/fallback.mp4"; src_isM3U8 := false;
            src_type := js "mp4" |};
         {| src_url := js "https://x/y/master.m3u8"; src_isM3U8 := true;
            src_type := js "hls" |};
         {| src_url := js "https://z/other.m3u8"; src_isM3U8 := true;
            src_type := js "hls" |} ];
     subtitles :=
       [ {| trk_url := js "https://x/s/en.vtt"; trk_lang := js "English" |};
         {| trk_url := js "https://x/s/es.vtt"; trk_lang := js "Spanish" |};
         {| trk_url := js "https://x/s/us.vtt"; trk_lang := js "english (US)" |} ] |}.

Definition demoUpstream (url : jsstring) : Response :=
  if bool_decide (url = watchUrl (js "ep-7")) then okJson (JWatchResponse demoWatch)
  else if bool_decide (url = js "https://x/y/master.m3u8") then okText demoPlaylist
  else notFound.

Definition noHlsWatch : WatchResponse :=
  {| intro := (0, 0)%float; outro := (0, 0)%float;
     sources :=
       [ {| src_url := js "https://x/y/fallback.mp4"; src_isM3U8 := false;
            src_type := js "mp4" |} ];
     subtitles := [] |}.

Definition noHlsUpstream (url : jsstring) : Response :=
  okJson (JWatchResponse noHlsWatch).

Definition masterEntry : Source :=
  {| src_url := js "https://x/y/master.m3u8"; src_isM3U8 := true;
     src_type := js "hls" |}.

(** A playlist whose first tag line is followed by a blank line. *)
Definition blankLines : list jsstring :=
  [ js "#EXT-X-STREAM-INF:RESOLUTION=1280x720"; js "  ";
    js "#EXT-X-STREAM-INF:RESOLUTION=640x360"; js "variant360.m3u8" ].

Definition blankUpstream (url : jsstring) : Response :=
  if bool_decide (url = watchUrl (js "ep-7")) then okJson (JWatchResponse demoWatch)
  else if bool_decide (url = js "https://x/y/master.m3u8")
       then okText (joinLines blankLines)
  else notFound.

Definition mkItem (id title : jsstring) (sub dub : float) : AnimeResult :=
  {| ar_id := id; ar_title := title; ar_url := []; ar_image := [];
     ar_duration := []; ar_watchList := []; ar_japaneseTitle := [];
     ar_type := js "TV"; ar_nsfw := false; ar_sub := sub; ar_dub := dub;
     ar_episodes := 12 |}.

Definition page1 : SearchPage :=
  {| hasNextPage := true;
     results := [mkItem (js "a") (js "A") 2 0; mkItem (js "b") (js "B") 0 3] |}.

Definition page2 : SearchPage :=
  {| hasNextPage := true; results := [mkItem (js "c") (js "C") 1 1] |}.

Definition page3 : SearchPage :=
  {| hasNextPage := false; results := [mkItem (js "d") (js "D") 0 0] |}.

(** An upstream with three pages of results for the keyword "My Show". *)
Definition threePages (url : jsstring) : Response :=
  if bool_decide (url = searchUrl (js "My%20Show") 1) then okJson (JSearchPage page1)
  else if bool_decide (url = searchUrl (js "My%20Show") 2) then okJson (JSearchPage page2)
  else if bool_decide (url = searchUrl (js "My%20Show") 3) then okJson (JSearchPage page3)
  else notFound.

(** An upstream that has two pages and then fails. *)
Definition twoThenDown (url : jsstring) : Response :=
  if bool_decide (url = searchUrl (js "My%20Show") 1) then okJson (JSearchPage page1)
  else if bool_decide (url = searchUrl (js "My%20Show") 2) then okJson (JSearchPage page2)
  else notFound.

(** An upstream that answers every request with a page that has a next
    page. *)
Definition endless (url : jsstring) : Response := okJson (JSearchPage page1).

(** An episode whose id has a high surrogate without its partner. *)
Definition brokenEpisode : EpisodeDetails :=
  {| ep_id := [101; 112; 0xD83D]; ep_number := 1; ep_url := [];
     ep_title := [] |}.

(** An episode the sample upstream does not know. *)
Definition unknownEpisode : EpisodeDetails :=
  {| ep_id := js "ep-8"; ep_number := 8; ep_url := []; ep_title := [] |}.

Definition demoInfo : InfoResponse :=
  {| episodes :=
       [ {| ei_id := js "ep-7"; ei_number := 7; ei_title := js "Seven";
            ei_url := js "https://hianime.to/watch/ep-7" |};
         {| ei_id := js "show$ep=8"; ei_number := 8; ei_title := js "Eight";
            ei_url := js "https://hianime.to/watch/show?ep=8" |} ] |}.

(** A sample info endpoint: the anime "a" has two episodes. *)
Definition infoUpstream (url : jsstring) : Response :=
  if bool_decide (url = infoUrl (js "a")) then okText (js "{...}") else notFound.

Definition demoInfoOf (resp : Response) : option (option InfoResponse) :=
  if bool_decide (text resp = js "{...}") then Some (Some demoInfo) else None.

(** The second episode of the sample info answer, as findEpisodes returns
    it; its id has reserved characters. *)
Definition secondEpisode : EpisodeDetails :=
  toEpisodeDetails
    {| ei_id := js "show$ep=8"; ei_number := 8; ei_title := js "Eight";
       ei_url := js "https://hianime.to/watch/show?ep=8" |}.

(** The sample playlist as a server with Windows line ends sends it. *)
Definition demoLines : list jsstring :=
  [ js "#EXT-X-STREAM-INF:...RESOLUTION=1280x720"; js "variant720.m3u8";
    js "#EXT-X-STREAM-INF:...RESOLUTION=640x360"; js "variant360.m3u8" ].

Definition demoLinesCR : list jsstring :=
  [ js "#EXT-X-STREAM-INF:...RESOLUTION=1280x720" ++ [13];
    js "variant720.m3u8" ++ [13];
    js "#EXT-X-STREAM-INF:...RESOLUTION=640x360" ++ [13];
    js "variant360.m3u8" ].

(** ** Tactics *)

(** Boolean tests on code units as linear arithmetic. *)
Ltac unbool :=
  repeat match goal with
  | H : _ && _ = true |- _ => apply andb_true_iff in H; destruct H
  | H : _ || _ = false |- _ => apply orb_false_iff in H; destruct H
  | H : _ || _ = true |- _ => apply orb_true_iff in H; destruct H
  | H : _ && _ = false |- _ => apply andb_false_iff in H; destruct H
  | H : negb _ = true |- _ => apply negb_true_iff in H
  | H : negb _ = false |- _ => apply negb_false_iff in H
  | H : (_ <=? _) = true |- _ => apply N.leb_le in H
  | H : (_ <=? _) = false |- _ => apply N.leb_gt in H
  | H : (_ <? _) = true |- _ => apply N.ltb_lt in H
  | H : (_ <? _) = false |- _ => apply N.ltb_ge in H
  | H : (_ =? _) = true |- _ => apply N.eqb_eq in H
  | H : (_ =? _) = false |- _ => apply N.eqb_neq in H
  | |- (_ =? _) = true => apply N.eqb_eq
  | |- (_ =? _) = false => apply N.eqb_neq
  | |- (_ <=? _) = true => apply N.leb_le
  | |- (_ <=? _) = false => apply N.leb_gt
  end.

(** A decidable closed proposition, by evaluation. *)
Ltac decide_closed := apply (bool_decide_unpack _); vm_compute; exact I.

(** * Properties *)

(** ** The matcher on the pattern shapes of the source *)

Section MatcherFacts.

Context {R : Type}.
Implicit Types (k : cont R) (s w t : jsstring) (prev : option N)
  (caps : captures) (p : N -> bool).

Lemma takeWhile_dropWhile p s : takeWhile p s ++ dropWhile p s = s.
Proof. induction s as [|c s IH]; cbn; [done|]. destruct (p c); cbn; congruence. Qed.

Lemma takeWhile_Forall p s : Forall (fun c => p c = true) (takeWhile p s).
Proof.
  induction s as [|c s IH]; cbn; [constructor|].
  destruct (p c) eqn:E; constructor; auto.
Qed.

Lemma dropWhile_head p s c s' : dropWhile p s = c :: s' -> p c = false.
Proof.
  induction s as [|d s IH]; cbn; [done|].
  destruct (p d) eqn:E; [auto|]. intros [= -> ->]. done.
Qed.

Lemma takeWhile_app_stop p t s :
  Forall (fun c => p c = true) t ->
  match s with [] => True | c :: _ => p c = false end ->
  takeWhile p (t ++ s) = t /\ dropWhile p (t ++ s) = s.
Proof.
  intros Ht Hs. induction Ht as [|c t Hc _ IH]; cbn.
  - destruct s as [|c s]; cbn; [auto|]. rewrite Hs. auto.
  - rewrite Hc. destruct IH as [-> ->]. auto.
Qed.

Lemma take_length_diff t s : take (length (t ++ s) - length s) (t ++ s) = t.
Proof.
  rewrite length_app. replace (length t + length s - length s)%nat with (length t) by lia.
  apply take_app_length.
Qed.

Lemma advance_cons prev c t : advance prev (c :: t) = advance (Some c) t.
Proof.
  unfold advance. destruct t as [|d t]; [done|].
  change (last (c :: d :: t)) with (last (d :: t)).
  destruct (last (d :: t)) eqn:E; [done|]. now apply last_None in E.
Qed.

Lemma rmatch_seq r1 r2 prev s caps k :
  rmatch (Seq r1 r2) prev s caps k
  = rmatch r1 prev s caps (fun prev' s' caps' => rmatch r2 prev' s' caps' k).
Proof. reflexivity. Qed.

Lemma rmatch_chr p prev c s caps k :
  rmatch (Chr p) prev (c :: s) caps k = if p c then k (Some c) s caps else None.
Proof. reflexivity. Qed.

Lemma rmatch_group n r prev s caps k :
  rmatch (Group n r) prev s caps k
  = rmatch r prev s caps (fun prev' s' caps' =>
      k prev' s' (<[n := take (length s - length s') s]> caps')).
Proof. reflexivity. Qed.

Lemma rmatch_word icase w prev s caps k :
  rmatch (word icase w) prev s caps k
  = if prefixb icase w s
    then k (advance prev (take (length w) s)) (drop (length w) s) caps
    else None.
Proof.
  revert prev s. induction w as [|c w IH]; intros prev s; cbn.
  - now rewrite drop_0.
  - destruct s as [|x s]; [done|]. fold (litb icase c x).
    destruct (litb icase c x); cbn; [|done].
    rewrite IH. now rewrite advance_cons.
Qed.

Lemma star_loop_chr p k fuel prev s caps :
  (length s <= fuel)%nat ->
  star_loop (rmatch (Chr p)) k fuel prev s caps = greedy p k prev s caps.
Proof.
  revert prev s. induction fuel as [|fuel IH]; intros prev s Hlen.
  - destruct s; [done|cbn in Hlen; lia].
  - destruct s as [|c s]; [done|]. cbn [star_loop rmatch greedy].
    destruct (p c); [|done].
    replace (length s <? length (c :: s))%nat with true
      by (symmetry; apply Nat.ltb_lt; cbn; lia).
    rewrite IH by (cbn in Hlen; lia). done.
Qed.

Lemma rmatch_star_chr p k prev s caps :
  rmatch (Star (Chr p)) prev s caps k = greedy p k prev s caps.
Proof. cbn [rmatch]. now apply star_loop_chr. Qed.

Lemma rmatch_plus_chr p k prev s caps :
  rmatch (Plus (Chr p)) prev s caps k
  = match s with
    | c :: s' => if p c then greedy p k (Some c) s' caps else None
    | [] => None
    end.
Proof.
  unfold Plus. cbn [rmatch]. destruct s as [|c s]; [done|].
  destruct (p c); [|done]. now apply star_loop_chr.
Qed.

(** The longest run is tried first. *)
Lemma greedy_first p k prev s caps x :
  k (advance prev (takeWhile p s)) (dropWhile p s) caps = Some x ->
  greedy p k prev s caps = Some x.
Proof.
  revert prev. induction s as [|c s IH]; intros prev; cbn; [done|].
  destruct (p c); [|done]. rewrite advance_cons. intros H. now rewrite (IH _ H).
Qed.

(** When [k] cannot start on a unit of the run, only the longest run
    counts. *)
Lemma greedy_commit p k prev s caps :
  (forall prev' c s', p c = true -> k prev' (c :: s') caps = None) ->
  greedy p k prev s caps = k (advance prev (takeWhile p s)) (dropWhile p s) caps.
Proof.
  intros Hk. revert prev. induction s as [|c s IH]; intros prev; cbn; [done|].
  destruct (p c) eqn:E; [|done]. rewrite advance_cons, IH.
  destruct (k _ _ caps) eqn:Ek; [done|]. now apply Hk.
Qed.

End MatcherFacts.

(** One step of the search for the leftmost match. *)
Lemma exec_from_eq r prev s :
  exec_from r prev s
  = match rmatch r prev s ∅ final with
    | Some (s', caps) => Some (mkMatch [] (take (length s - length s') s) caps s')
    | None =>
        match s with
        | [] => None
        | c :: s' => shift c <$> exec_from r (Some c) s'
        end
    end.
Proof. destruct s; reflexivity. Qed.

(** ** Matches are factors of the input *)

Section Suffix.

Context {R : Type}.

Lemma star_loop_suffix
    (m1 : option N -> jsstring -> captures -> cont R -> option R)
    (k : cont R) fuel :
  hands_suffix m1 ->
  forall prev s caps x,
    star_loop m1 k fuel prev s caps = Some x ->
    exists prev' s' caps', k prev' s' caps' = Some x /\ s' `suffix_of` s.
Proof.
  intros Hm1. induction fuel as [|fuel IH]; intros prev s caps x; cbn [star_loop].
  - intros H. now exists prev, s, caps.
  - destruct (m1 prev s caps _) as [y|] eqn:E.
    + intros [= ->]. apply Hm1 in E as (prev' & s' & caps' & Hk & Hsuf).
      destruct (length s' <? length s)%nat; [|done].
      apply IH in Hk as (prev'' & s'' & caps'' & Hk & Hsuf').
      exists prev'', s'', caps''. split; [done|]. now transitivity s'.
    + intros H. now exists prev, s, caps.
Qed.

Lemma rmatch_suffix r : hands_suffix (rmatch (R:=R) r).
Proof.
  induction r as [|p|r1 IH1 r2 IH2|r1 IH1 r2 IH2|r1 IH1|n r1 IH1| |];
    intros prev s caps k x; cbn [rmatch].
  - intros H. now exists prev, s, caps.
  - destruct s as [|c s]; [done|]. destruct (p c); [|done].
    intros H. exists (Some c), s, caps. split; [done|]. apply suffix_cons_r. done.
  - intros (prev1 & s1 & caps1 & H1 & Hs1)%IH1.
    apply IH2 in H1 as (prev2 & s2 & caps2 & H2 & Hs2).
    exists prev2, s2, caps2. split; [done|]. now transitivity s1.
  - destruct (rmatch r1 prev s caps k) as [y|] eqn:E.
    + intros [= ->]. now apply IH1 in E.
    + apply IH2.
  - now apply star_loop_suffix.
  - intros (prev1 & s1 & caps1 & H1 & Hs1)%IH1. eauto.
  - destruct (xorb _ _); [|done]. intros H. now exists prev, s, caps.
  - destruct s; [|done]. intros H. now exists prev, [], caps.
Qed.

End Suffix.

Lemma exec_from_decompose r prev s m :
  exec_from r prev s = Some m -> s = before m ++ matched m ++ after m.
Proof.
  revert prev m. induction s as [|c s IH]; intros prev m; rewrite exec_from_eq.
  - destruct (rmatch r prev [] ∅ final) as [[s' caps]|] eqn:E; [|done].
    intros [= <-]. cbn.
    apply rmatch_suffix in E as (? & s'' & ? & [= -> ->] & Hsuf).
    apply suffix_nil_inv in Hsuf as ->. done.
  - destruct (rmatch r prev (c :: s) ∅ final) as [[s' caps]|] eqn:E.
    + intros [= <-]. cbn [before matched after app].
      apply rmatch_suffix in E as (? & s'' & ? & [= -> ->] & [t Hsuf]).
      change (S (length s)) with (length (c :: s)).
      rewrite Hsuf. now rewrite take_length_diff.
    + destruct (exec_from r (Some c) s) as [m'|] eqn:E'; [|done].
      intros [= <-]. cbn. f_equal. now apply IH with (Some c).
Qed.

(** ** The fuel of the loops is enough *)

Section StarFuel.

Context {R : Type}.
Variable m1 : option N -> jsstring -> captures -> cont R -> option R.
Variable k : cont R.

Hypothesis m1_ext :
  forall prev s caps (k1 k2 : cont R),
    (forall prev' s' caps', k1 prev' s' caps' = k2 prev' s' caps') ->
    m1 prev s caps k1 = m1 prev s caps k2.
Hypothesis m1_fail :
  forall prev s caps, m1 prev s caps (fun _ _ _ => None) = None.

Lemma star_loop_ext (k' : cont R) fuel :
  (forall prev s caps, k prev s caps = k' prev s caps) ->
  forall prev s caps,
    star_loop m1 k fuel prev s caps = star_loop m1 k' fuel prev s caps.
Proof.
  intros Hk. induction fuel as [|fuel IH]; intros prev s caps; cbn [star_loop].
  - apply Hk.
  - rewrite Hk. erewrite m1_ext; [reflexivity|].
    intros prev' s' caps'. cbv beta.
    destruct (length s' <? length s)%nat; [apply IH|done].
Qed.

Lemma star_loop_empty fuel prev caps :
  star_loop m1 k fuel prev [] caps = k prev [] caps.
Proof.
  destruct fuel as [|fuel]; cbn [star_loop]; [done|].
  erewrite m1_ext; [rewrite m1_fail; reflexivity|]. done.
Qed.

(** More fuel than there are units left changes nothing. *)
Lemma star_loop_fuel fuel1 :
  forall fuel2 prev s caps,
    (length s <= fuel1)%nat -> (length s <= fuel2)%nat ->
    star_loop m1 k fuel1 prev s caps = star_loop m1 k fuel2 prev s caps.
Proof.
  induction fuel1 as [|fuel1 IH]; intros fuel2 prev s caps H1 H2.
  - destruct s; [|cbn in H1; lia]. now rewrite !star_loop_empty.
  - destruct fuel2 as [|fuel2].
    + destruct s; [|cbn in H2; lia]. now rewrite !star_loop_empty.
    + cbn [star_loop]. erewrite m1_ext; [reflexivity|].
      intros prev' s' caps'. cbv beta.
      destruct (length s' <? length s)%nat eqn:E; [|done].
      apply Nat.ltb_lt in E. apply IH; lia.
Qed.

End StarFuel.

Lemma rmatch_ext {R} r :
  forall prev s caps (k1 k2 : cont R),
    (forall prev' s' caps', k1 prev' s' caps' = k2 prev' s' caps') ->
    rmatch r prev s caps k1 = rmatch r prev s caps k2.
Proof.
  induction r as [|p|r1 IH1 r2 IH2|r1 IH1 r2 IH2|r1 IH1|n r1 IH1| |];
    intros prev s caps k1 k2 Hk; cbn [rmatch].
  - apply Hk.
  - destruct s as [|c s]; [done|]. destruct (p c); [apply Hk|done].
  - apply IH1. intros. now apply IH2.
  - now rewrite (IH1 _ _ _ k1 k2), (IH2 _ _ _ k1 k2).
  - now apply star_loop_ext.
  - apply IH1. intros. apply Hk.
  - destruct (xorb _ _); [apply Hk|done].
  - destruct s; [apply Hk|done].
Qed.

Lemma rmatch_fail {R} r :
  forall prev s caps, rmatch (R:=R) r prev s caps (fun _ _ _ => None) = None.
Proof.
  induction r as [|p|r1 IH1 r2 IH2|r1 IH1 r2 IH2|r1 IH1|n r1 IH1| |];
    intros prev s caps; cbn [rmatch]; try done.
  - destruct s as [|c s]; [done|]. now destruct (p c).
  - erewrite rmatch_ext; [apply IH1|]. intros. apply IH2.
  - now rewrite IH1, IH2.
  - generalize (length s) at 1. intros fuel. revert prev s caps.
    induction fuel as [|fuel IH]; intros prev s caps; cbn [star_loop]; [done|].
    erewrite rmatch_ext; [rewrite IH1; reflexivity|].
    intros prev' s' caps'. cbv beta.
    destruct (length s' <? length s)%nat; [apply IH|done].
  - now destruct (xorb _ _).
  - now destruct s.
Qed.

(** [r*] does not depend on the fuel of its loop. *)
Lemma rmatch_star_fuel {R} r (k : cont R) fuel prev s caps :
  (length s <= fuel)%nat ->
  star_loop (rmatch r) k fuel prev s caps = rmatch (Star r) prev s caps k.
Proof.
  intros H. cbn [rmatch].
  apply star_loop_fuel; [apply rmatch_ext|apply rmatch_fail|done|done].
Qed.

(** A global replacement does not depend on its fuel. *)
Lemma replace_from_fuel r tpl fuel1 :
  forall fuel2 prev s,
    (length s < fuel1)%nat -> (length s < fuel2)%nat ->
    replace_from fuel1 r tpl prev s = replace_from fuel2 r tpl prev s.
Proof.
  induction fuel1 as [|fuel1 IH]; intros fuel2 prev s H1 H2; [lia|].
  destruct fuel2 as [|fuel2]; [lia|]. cbn [replace_from].
  destruct (exec_from r prev s) as [m|] eqn:E; [|done].
  apply exec_from_decompose in E. apply (f_equal length) in E.
  rewrite !length_app in E. do 2 f_equal.
  destruct (matched m) as [|c t].
  - destruct (after m) as [|c s']; [done|]. f_equal.
    cbn [length] in E. apply IH; lia.
  - cbn [length] in E. apply IH; lia.
Qed.

(** ** The patterns of the resolver *)

Lemma dropWhile_length p s : (length (dropWhile p s) <= length s)%nat.
Proof. induction s as [|c s IH]; cbn; [lia|]. destruct (p c); cbn; lia. Qed.

Lemma take_run p c s :
  take (length (c :: s) - length (dropWhile p s)) (c :: s) = c :: takeWhile p s.
Proof.
  pose proof (dropWhile_length p s) as Hle. cbn [length].
  replace (S (length s) - length (dropWhile p s))%nat
    with (S (length s - length (dropWhile p s))) by lia.
  cbn [take]. f_equal.
  rewrite <- (takeWhile_dropWhile p s) at 1 3. apply take_length_diff.
Qed.

Lemma isDigit_not_x c : isDigit c = true -> (c =? 120) = false.
Proof. unfold isDigit. intros H. unbool. lia. Qed.

Lemma takeWhile_nil_iff p s :
  takeWhile p s = [] <-> match s with [] => True | c :: _ => p c = false end.
Proof.
  destruct s as [|c s]; cbn; [done|]. destruct (p c); split; done.
Qed.

(** One attempt of the resolution pattern at the current position. *)
Lemma rmatch_resolution prev s :
  (fun r => (snd r !! 1%nat, snd r !! 2%nat)) <$> rmatch re_resolution prev s ∅ final
  = (fun wh => (Some (fst wh), Some (snd wh))) <$> resolutionAt s.
Proof.
  unfold re_resolution, resolutionAt. cbn [rmatch]. rewrite rmatch_word.
  destruct (prefixb false (js "RESOLUTION=") s); [|done].
  change (length (js "RESOLUTION=")) with 11%nat. cbn zeta.
  set (s1 := drop 11 s). clearbody s1.
  rewrite rmatch_plus_chr.
  destruct s1 as [|c s1]; [done|]. cbn [takeWhile dropWhile].
  destruct (isDigit c) eqn:Ec; cycle 1.
  { cbn. rewrite andb_false_r. done. }
  rewrite greedy_commit; cycle 1.
  { intros prev' d s' Hd. cbn. now rewrite (isDigit_not_x d Hd). }
  cbn [rmatch lit]. rewrite take_run.
  destruct (dropWhile isDigit s1) as [|x s2] eqn:Edrop; [done|].
  destruct (x =? 120) eqn:Ex; [|done]. cbn [andb].
  rewrite bool_decide_eq_false_2 by done. cbn [negb andb].
  rewrite rmatch_plus_chr.
  destruct s2 as [|d s2]; [done|]. cbn [takeWhile].
  destruct (isDigit d) eqn:Ed; [|by rewrite bool_decide_eq_true_2].
  rewrite bool_decide_eq_false_2 by done. cbn [negb].
  erewrite greedy_first; [|reflexivity].
  cbn [fmap option_fmap option_map snd fst]. rewrite take_run.
  rewrite lookup_insert_ne, !lookup_insert_eq by done. done.
Qed.

(** [line.match(/RESOLUTION=(\d+)x(\d+)/)]: the groups of the first
    attribute, [null] when there is none. *)
Lemma exec_resolution prev s :
  (fun m => (group m 1, group m 2)) <$> exec_from re_resolution prev s
  = firstResolution s.
Proof.
  revert prev. induction s as [|c s IH]; intros prev.
  - reflexivity.
  - rewrite exec_from_eq. cbn [firstResolution].
    pose proof (rmatch_resolution prev (c :: s)) as H.
    destruct (rmatch re_resolution prev (c :: s) ∅ final) as [[s' caps]|];
      destruct (resolutionAt (c :: s)) as [[w h]|]; try done.
    + cbn [fmap option_fmap option_map fst snd] in H. injection H as H1 H2.
      cbn [fmap option_fmap option_map]. unfold group. cbn [groups].
      now rewrite H1, H2.
    + rewrite <- (IH (Some c)).
      destruct (exec_from re_resolution (Some c) s); done.
Qed.

(** ** Lines *)

Lemma split_line (l t : jsstring) :
  10 ∉ l -> split 10 (l ++ 10 :: t) = l :: split 10 t.
Proof.
  induction l as [|c l IH]; intros Hl; [reflexivity|].
  cbn [app split].
  assert (c <> 10) by (intros ->; apply Hl; left).
  replace (c =? 10) with false by (symmetry; now apply N.eqb_neq).
  rewrite IH; [done|]. intros Hin. apply Hl. now right.
Qed.

Lemma split_single (l : jsstring) : 10 ∉ l -> split 10 l = [l].
Proof.
  induction l as [|c l IH]; intros Hl; [reflexivity|].
  cbn [split].
  assert (c <> 10) by (intros ->; apply Hl; left).
  replace (c =? 10) with false by (symmetry; now apply N.eqb_neq).
  rewrite IH; [done|]. intros Hin. apply Hl. now right.
Qed.

Lemma split_join (ls : list jsstring) :
  ls <> [] -> Forall (fun l => 10 ∉ l) ls -> split 10 (joinLines ls) = ls.
Proof.
  intros Hne Hall. induction Hall as [|l ls Hl Hls IH]; [done|]. clear Hne.
  destruct ls as [|l' ls].
  - now apply split_single.
  - change (joinLines (l :: l' :: ls)) with (l ++ 10 :: joinLines (l' :: ls)).
    rewrite split_line, IH; done.
Qed.

(** The loop body reads only the line at [i] and the one after it. *)
Lemma scanLine_local lines i variants :
  scanLine lines i variants = variants ++ scanLine (drop i lines) 0 [].
Proof.
  unfold scanLine. rewrite !lookup_drop, Nat.add_0_r.
  change (i + (0 + 1))%nat with (i + 1)%nat.
  destruct (lines !! i) as [line|]; [|now rewrite app_nil_r].
  destruct (startsWith _ line); [|now rewrite app_nil_r].
  destruct (exec re_resolution line); [|now rewrite app_nil_r].
  destruct (lines !! (i + 1)%nat); cbn [fmap option_fmap option_map];
    [|now rewrite app_nil_r].
  destruct (_ && _); [done|now rewrite app_nil_r].
Qed.

Lemma scanLines_scanAll lines n i variants :
  (i + n = length lines)%nat ->
  scanLines lines n i variants = variants ++ scanAll (drop i lines).
Proof.
  revert i variants. induction n as [|n IH]; intros i variants Hlen.
  - rewrite drop_ge by lia. cbn. now rewrite app_nil_r.
  - cbn [scanLines]. rewrite IH by lia. rewrite scanLine_local, <- app_assoc.
    f_equal. destruct (drop i lines) as [|l rest] eqn:E.
    + apply (f_equal length) in E. rewrite length_drop in E. cbn in E. lia.
    + cbn [scanAll]. f_equal.
      replace (drop (S i) lines) with (drop 1 (drop i lines))
        by (rewrite drop_drop; f_equal; lia).
      now rewrite E.
Qed.

Lemma parseVariants_scanAll playlistText :
  parseVariants playlistText = scanAll (split 10 playlistText).
Proof.
  unfold parseVariants. now rewrite scanLines_scanAll.
Qed.

(** ** Trimming *)

Lemma trimStart_dropWhile s : trimStart s = dropWhile isWhiteSpace s.
Proof. induction s as [|c s IH]; cbn; [done|]. now rewrite IH. Qed.

Lemma trimStart_snoc t c :
  isWhiteSpace c = false -> exists t', trimStart (t ++ [c]) = t' ++ [c].
Proof.
  intros Hc. induction t as [|d t [t' IH]]; cbn.
  - rewrite Hc. now exists [].
  - destruct (isWhiteSpace d); [eauto|]. now exists (d :: t).
Qed.

Lemma trim_keeps_head c s :
  isWhiteSpace c = false -> exists s', trim (c :: s) = c :: s'.
Proof.
  intros Hc. unfold trim, trimEnd. cbn [trimStart]. rewrite Hc.
  rewrite reverse_cons.
  destruct (trimStart_snoc (reverse s) c Hc) as [t' ->].
  rewrite reverse_snoc. eauto.
Qed.

Lemma startsWith_cons c s : startsWith [c] s = true -> exists s', s = c :: s'.
Proof.
  unfold startsWith. intros H%bool_decide_eq_true.
  destruct s as [|d s]; [done|]. cbn in H. injection H as ->. eauto.
Qed.

(** ** The base path of the manifest URL *)

Lemma rmatch_last_segment prev s :
  rmatch re_last_segment prev s ∅ final
  = match s with
    | c :: s' =>
        if c =? 47 then
          match dropWhile notSlash s' with
          | [] => Some ([], ∅)
          | _ :: _ => None
          end
        else None
    | [] => None
    end.
Proof.
  unfold re_last_segment. rewrite rmatch_seq. destruct s as [|c s]; [done|].
  unfold lit. rewrite rmatch_chr. destruct (c =? 47); [|done].
  rewrite rmatch_seq, rmatch_star_chr. fold notSlash.
  rewrite greedy_commit by done.
  cbn [rmatch]. destruct (dropWhile notSlash s); done.
Qed.

Lemma dropWhile_no_slash s : 47 ∉ s -> dropWhile notSlash s = [].
Proof.
  induction s as [|c s IH]; intros H; cbn; [done|].
  assert (c <> 47) by (intros ->; apply H; left).
  unfold notSlash at 1. replace (c =? 47) with false
    by (symmetry; now apply N.eqb_neq).
  cbn. apply IH. intros Hin. apply H. now right.
Qed.

Lemma dropWhile_slash t s : dropWhile notSlash (t ++ 47 :: s) <> [].
Proof.
  induction t as [|c t IH]; cbn; [done|]. destruct (notSlash c); done.
Qed.

Lemma exec_last_segment pre last prev :
  47 ∉ last ->
  exec_from re_last_segment prev (pre ++ 47 :: last)
  = Some (mkMatch pre (47 :: last) ∅ []).
Proof.
  intros Hlast. revert prev. induction pre as [|c pre IH]; intros prev.
  - rewrite exec_from_eq, rmatch_last_segment. cbn [app].
    rewrite N.eqb_refl, dropWhile_no_slash by done.
    change (length (@nil N)) with 0%nat. now rewrite Nat.sub_0_r, firstn_all.
  - rewrite exec_from_eq, rmatch_last_segment. cbn [app].
    destruct (c =? 47).
    + pose proof (dropWhile_slash pre last).
      destruct (dropWhile notSlash (pre ++ 47 :: last)); [done|].
      now rewrite IH.
    + now rewrite IH.
Qed.

(** [url.replace(/\/[^/]*$/, "/")]: what follows the last slash goes. *)
Lemma replace_last_segment pre last :
  47 ∉ last ->
  replace re_last_segment [Lit (js "/")] (pre ++ 47 :: last) = pre ++ [47].
Proof.
  intros Hlast. unfold replace, exec. now rewrite exec_last_segment.
Qed.

(** ** The default-subtitle test *)

Lemma prefixb_true_iff w s :
  prefixb true w s = true
  <-> exists mid post, s = mid ++ post /\ canonicalize <$> mid = canonicalize <$> w.
Proof.
  revert s. induction w as [|c w IH]; intros s; cbn [prefixb].
  - split; [|done]. intros _. now exists [], s.
  - destruct s as [|x s].
    + split; [done|]. intros (mid & post & H1 & H2).
      destruct mid; [done|]. done.
    + unfold litb. rewrite andb_true_iff, N.eqb_eq, IH. split.
      * intros (Hx & mid & post & -> & Hmid). exists (x :: mid), post.
        split; [done|]. cbn. now rewrite Hx, Hmid.
      * intros (mid & post & H1 & H2). destruct mid as [|y mid]; [done|].
        cbn in H1, H2. injection H1 as -> ->. injection H2 as Hy Hmid.
        split; [done|]. now exists mid, post.
Qed.

Lemma exec_word_Some icase w prev s :
  is_Some (exec_from (word icase w) prev s)
  <-> exists pre post, s = pre ++ post /\ prefixb icase w post = true.
Proof.
  revert prev. induction s as [|c s IH]; intros prev.
  - rewrite exec_from_eq, rmatch_word. split.
    + destruct (prefixb icase w []) eqn:E; cbn; [|by intros [? ?]].
      intros _. now exists [], [].
    + intros (pre & post & H1 & H2). symmetry in H1.
      apply app_eq_nil in H1 as [-> ->]. rewrite H2. cbn. eauto.
  - rewrite exec_from_eq, rmatch_word.
    destruct (prefixb icase w (c :: s)) eqn:E; cbn [final].
    + split; [|eauto]. intros _. now exists [], (c :: s).
    + rewrite fmap_is_Some, IH. split.
      * intros (pre & post & -> & H). now exists (c :: pre), post.
      * intros (pre & post & H1 & H2). destruct pre as [|d pre].
        -- cbn in H1. subst post. congruence.
        -- injection H1 as -> ->. eauto.
Qed.

(** [/English/i.test(lang)] *)
Lemma test_english lang :
  test re_english lang = true <-> containsIgnoreCase (js "english") lang.
Proof.
  unfold test, exec, re_english, containsIgnoreCase.
  rewrite bool_decide_eq_true, exec_word_Some. split.
  - intros (pre & post & -> & (mid & post' & -> & H)%prefixb_true_iff).
    now exists pre, mid, post'.
  - intros (pre & mid & post & -> & H). exists pre, (mid ++ post).
    split; [done|]. apply prefixb_true_iff. now exists mid, post.
Qed.

(** ** The resolution attribute *)

Lemma prefixb_false_iff w s :
  prefixb false w s = true <-> exists post, s = w ++ post.
Proof.
  revert s. induction w as [|c w IH]; intros s; cbn [prefixb].
  - split; [|done]. intros _. now exists s.
  - destruct s as [|x s].
    + split; [done|]. now intros [post H].
    + unfold litb. rewrite andb_true_iff, N.eqb_eq, IH. split.
      * intros (-> & post & ->). now exists post.
      * intros (post & H). injection H as -> ->. eauto.
Qed.

Lemma resolutionAt_Some s w h :
  resolutionAt s = Some (w, h) ->
  exists post,
    s = js "RESOLUTION=" ++ w ++ js "x" ++ h ++ post
    /\ isNumber w /\ isNumber h.
Proof.
  unfold resolutionAt.
  destruct (prefixb false (js "RESOLUTION=") s) eqn:Hp; [|done].
  apply prefixb_false_iff in Hp as [s1 ->].
  change 11%nat with (length (js "RESOLUTION=")).
  rewrite drop_app_length. cbn zeta.
  destruct (dropWhile isDigit s1) as [|x s2] eqn:Edrop; [done|].
  destruct (x =? 120) eqn:Ex; [|done]. apply N.eqb_eq in Ex. subst x.
  cbn [andb]. do 2 case_bool_decide; cbn [negb andb]; try done.
  intros [= <- <-]. exists (dropWhile isDigit s2).
  split; [|split; split; auto using takeWhile_Forall].
  rewrite (takeWhile_dropWhile isDigit s2).
  change (js "x" ++ s2) with (120 :: s2). rewrite <- Edrop.
  now rewrite (takeWhile_dropWhile isDigit s1).
Qed.

Lemma resolutionAt_intro w h post :
  isNumber w -> isNumber h ->
  is_Some (resolutionAt (js "RESOLUTION=" ++ w ++ js "x" ++ h ++ post)).
Proof.
  intros [Hw Hwd] [Hh Hhd]. unfold resolutionAt.
  replace (prefixb false (js "RESOLUTION=") _) with true
    by (symmetry; apply prefixb_false_iff; eauto).
  change 11%nat with (length (js "RESOLUTION=")).
  rewrite drop_app_length. cbn zeta.
  destruct (takeWhile_app_stop isDigit w (js "x" ++ h ++ post) Hwd) as [-> ->];
    [reflexivity|].
  cbn [js app fmap list_fmap list_ascii_of_string].
  destruct h as [|d h]; [done|]. inversion Hhd as [|? ? Hd _]; subst.
  cbn [app takeWhile]. rewrite Hd.
  change (N_of_ascii "x" =? 120) with true. cbn [andb].
  rewrite !bool_decide_eq_false_2 by done. cbn. eauto.
Qed.

(** The pattern finds an attribute exactly when the line has one. *)
Lemma firstResolution_iff s : is_Some (firstResolution s) <-> hasResolution s.
Proof.
  split.
  - induction s as [|c s IH]; cbn [firstResolution].
    + destruct (resolutionAt []) as [[w h]|] eqn:E; [|by intros [? ?]].
      intros _. apply resolutionAt_Some in E as (post & E & Hw & Hh).
      now exists [], w, h, post.
    + destruct (resolutionAt (c :: s)) as [[w h]|] eqn:E.
      * intros _. apply resolutionAt_Some in E as (post & E & Hw & Hh).
        now exists [], w, h, post.
      * intros (pre & w & h & post & -> & Hw & Hh)%IH.
        now exists (c :: pre), w, h, post.
  - intros (pre & w & h & post & -> & Hw & Hh).
    induction pre as [|c pre IH].
    + pose proof (resolutionAt_intro w h post Hw Hh) as [r Hr].
      cbn [app]. destruct (js "RESOLUTION=" ++ w ++ js "x" ++ h ++ post);
        cbn [firstResolution]; rewrite Hr; eauto.
    + cbn [app firstResolution].
      destruct (resolutionAt _); eauto.
Qed.

Lemma exec_resolution_None line :
  ~ hasResolution line -> exec re_resolution line = None.
Proof.
  intros H. unfold exec.
  pose proof (exec_resolution None line) as E.
  destruct (exec_from re_resolution None line); [|done].
  exfalso. apply H, firstResolution_iff. rewrite <- E. cbn. eauto.
Qed.

Lemma prefix_before_R (M pre rest b : jsstring) :
  82 ∉ M -> pre ++ 82 :: rest = M ++ b -> exists b', pre = M ++ b'.
Proof.
  revert pre. induction M as [|m M IH]; intros pre HM E; [now exists pre|].
  destruct pre as [|c pre].
  - injection E as <- _. exfalso. apply HM. left.
  - injection E as -> E. apply IH in E as [b' ->]; [now exists b'|].
    intros Hin. apply HM. now right.
Qed.

Lemma digits_no_R (w : jsstring) : Forall (fun c => isDigit c = true) w -> 82 ∉ w.
Proof.
  intros Hw Hin. rewrite Forall_forall in Hw. now apply Hw in Hin.
Qed.

(** The first attribute of a line, read off its text: nothing of the kind
    before it, and the height is the whole run of digits. *)
Lemma firstResolution_attr pre w h post :
  isNumber w -> isNumber h -> ~ hasResolution pre ->
  takeWhile isDigit post = [] ->
  firstResolution (pre ++ js "RESOLUTION=" ++ w ++ js "x" ++ h ++ post)
  = Some (w, h).
Proof.
  intros Hw Hh Hpre Hpost. induction pre as [|c pre IH].
  - assert (E : resolutionAt (js "RESOLUTION=" ++ w ++ js "x" ++ h ++ post)
                = Some (w, h)).
    { destruct Hw as [Hw Hwd], Hh as [Hh Hhd]. unfold resolutionAt.
      replace (prefixb false (js "RESOLUTION=") _) with true
        by (symmetry; apply prefixb_false_iff; eauto).
      change 11%nat with (length (js "RESOLUTION=")).
      rewrite drop_app_length. cbn zeta.
      destruct (takeWhile_app_stop isDigit w (js "x" ++ h ++ post) Hwd)
        as [-> ->]; [reflexivity|].
      change (js "x" ++ h ++ post) with (120 :: h ++ post).
      destruct (takeWhile_app_stop isDigit h post Hhd) as [-> _].
      { apply takeWhile_nil_iff in Hpost. exact Hpost. }
      change (120 =? 120) with true. cbn [andb].
      now rewrite !bool_decide_eq_false_2. }
    cbn [app]. destruct (js "RESOLUTION=" ++ w ++ js "x" ++ h ++ post);
      cbn [firstResolution]; now rewrite E.
  - cbn [app firstResolution].
    destruct (resolutionAt _) as [[w' h']|] eqn:E.
    + exfalso. apply Hpre.
      apply resolutionAt_Some in E as (post' & E & Hw' & Hh').
      remember (js "RESOLUTION=" ++ w ++ js "x" ++ h ++ post) as rest eqn:Hrest.
      change (js "RESOLUTION=") with (82 :: js "ESOLUTION=") in E, Hrest.
      remember (js "ESOLUTION=") as M0 eqn:HM0. remember (js "x") as x eqn:Hx.
      cbn [app] in E, Hrest. injection E as -> E. rewrite !app_assoc in E.
      rewrite Hrest in E.
      apply prefix_before_R in E as [b' ->].
      * exists [], w', h', b'. split; [|done].
        change (js "RESOLUTION=") with (82 :: js "ESOLUTION=").
        rewrite <- HM0, <- Hx. now rewrite <- !app_assoc.
      * rewrite !elem_of_app. subst M0 x. intros [[[H|H]|H]|H].
        -- revert H. decide_closed.
        -- now apply (digits_no_R w') in H; [|apply Hw'].
        -- revert H. decide_closed.
        -- now apply (digits_no_R h') in H; [|apply Hh'].
    + apply IH. intros (pre0 & w0 & h0 & post0 & -> & H0).
      apply Hpre. now exists (c :: pre0), w0, h0, post0.
Qed.

(** ** Parsing the master playlist *)

Lemma scanLine_entry tag next rest :
  startsWith tagPrefix tag = true ->
  scanLine (tag :: next :: rest) 0 [] = option_list (variantOf (tag, next)).
Proof.
  intros Htag. unfold scanLine, variantOf. cbn [lookup list_lookup fst snd].
  fold tagPrefix. rewrite Htag.
  change ((tag :: next :: rest) !! (0 + 1)%nat) with (Some next).
  cbn [fmap option_fmap option_map]. cbn zeta.
  pose proof (exec_resolution None tag) as E. fold (exec re_resolution tag) in E.
  destruct (exec re_resolution tag) as [m|];
    destruct (firstResolution tag) as [[w h]|]; try done.
  cbn in E. injection E as _ <-.
  destruct (_ && _); done.
Qed.

Lemma scanLine_other line rest :
  startsWith tagPrefix line = false -> scanLine (line :: rest) 0 [] = [].
Proof.
  intros H. unfold scanLine. cbn [lookup list_lookup]. fold tagPrefix.
  now rewrite H.
Qed.

Lemma scanAll_entries (entries : list (jsstring * jsstring)) :
  Forall (fun e => startsWith tagPrefix e.1 = true
                   /\ startsWith tagPrefix e.2 = false) entries ->
  scanAll (flat_map (fun e => [e.1; e.2]) entries) = omap variantOf entries.
Proof.
  induction 1 as [|[tag next] entries [Htag Hnext] _ IH]; [done|].
  cbn [flat_map app fst snd scanAll omap list_omap] in *.
  rewrite scanLine_entry, scanLine_other, IH by done.
  destruct (variantOf (tag, next)); done.
Qed.

Lemma parseVariants_playlistOf (entries : list (jsstring * jsstring)) :
  Forall (fun e => startsWith tagPrefix e.1 = true
                   /\ startsWith tagPrefix e.2 = false
                   /\ (10 ∉ e.1) /\ (10 ∉ e.2)) entries ->
  parseVariants (playlistOf entries) = omap variantOf entries.
Proof.
  intros H. rewrite parseVariants_scanAll. unfold playlistOf.
  destruct entries as [|e entries]; [reflexivity|].
  rewrite split_join.
  - apply scanAll_entries. eapply Forall_impl; [exact H|]. intros ? (?&?&?&?). done.
  - destruct e. done.
  - clear -H. induction H as [|[tag next] es (_&_&?&?) _ IH]; cbn; auto.
Qed.

Lemma scanLine_two l : scanLine l 0 [] = scanLine (take 2 l) 0 [].
Proof.
  unfold scanLine. destruct l as [|x [|y l]]; reflexivity.
Qed.

Lemma trim_blank_not_tag blank :
  trim blank = [] -> startsWith tagPrefix blank = false.
Proof.
  intros Hb. destruct (startsWith tagPrefix blank) eqn:E; [|done].
  apply bool_decide_eq_true in E.
  destruct blank as [|c blank]; [done|].
  set (t := tagPrefix) in E. vm_compute in t. subst t.
  cbn [length take] in E. injection E as -> _.
  destruct (trim_keeps_head 35 blank) as [s' Hs']; [done|]. congruence.
Qed.

Lemma scanLine_blank lines i variants blank :
  lines !! (i + 1)%nat = Some blank -> trim blank = [] ->
  scanLine lines i variants = variants.
Proof.
  intros Hnext Hb. unfold scanLine. rewrite Hnext.
  cbn [fmap option_fmap option_map]. rewrite Hb.
  destruct (lines !! i); [|done]. destruct (startsWith _ _); [|done].
  destruct (exec re_resolution _); done.
Qed.

Lemma scanLine_last lines i variants :
  lines !! (i + 1)%nat = None -> scanLine lines i variants = variants.
Proof.
  intros Hnext. unfold scanLine. rewrite Hnext.
  destruct (lines !! i); [|done]. destruct (startsWith _ _); [|done].
  destruct (exec re_resolution _); done.
Qed.

Lemma scanAll_blank a tag blank b :
  trim blank = [] ->
  scanAll (a ++ tag :: blank :: b) = scanAll (a ++ [tag]) ++ scanAll b.
Proof.
  intros Hb. induction a as [|x a IH].
  - cbn [app scanAll].
    rewrite (scanLine_blank (tag :: blank :: b) 0 [] blank) by done.
    rewrite (scanLine_other blank b) by now apply trim_blank_not_tag.
    rewrite (scanLine_last [tag] 0 []) by done. done.
  - cbn [app scanAll]. rewrite IH, app_assoc. f_equal. f_equal.
    rewrite scanLine_two, (scanLine_two (x :: a ++ [tag])).
    destruct a as [|y a]; reflexivity.
Qed.

Lemma parseVariants_blank a tag blank b :
  trim blank = [] ->
  Forall (fun l => 10 ∉ l) (a ++ tag :: blank :: b) ->
  parseVariants (joinLines (a ++ tag :: blank :: b))
  = parseVariants (joinLines (a ++ [tag])) ++ parseVariants (joinLines b).
Proof.
  intros Hb Hall. rewrite !parseVariants_scanAll.
  apply Forall_app in Hall as [Ha Hrest].
  inversion Hrest as [|? ? Htag Hrest']; subst.
  inversion Hrest' as [|? ? Hblank Hb']; subst.
  assert (Hne : forall x y : list jsstring, x ++ tag :: y <> [])
    by (intros [|??] ?; done).
  rewrite (split_join (a ++ tag :: blank :: b)), (split_join (a ++ [tag]));
    [|apply Hne|apply Forall_app; split; [done|now constructor]
     |apply Hne|apply Forall_app; split; [done|now repeat constructor]].
  rewrite scanAll_blank by done. f_equal.
  destruct b as [|l b]; [reflexivity|]. now rewrite split_join.
Qed.

(** The independent description agrees: a tag line with a next line that
    trims to the empty string stands for no variant. *)
Lemma variantOf_blank tag blank : trim blank = [] -> variantOf (tag, blank) = None.
Proof.
  intros Hb. unfold variantOf. cbn [fst snd].
  destruct (firstResolution tag) as [[w h]|]; [|done].
  cbn zeta. rewrite Hb. now rewrite bool_decide_eq_true_2.
Qed.

(** Tag/URI pairs followed by any further lines: the pairs give their
    variants, whatever follows. *)
Lemma scanAll_entries_app (entries : list (jsstring * jsstring)) rest :
  Forall (fun e => startsWith tagPrefix e.1 = true
                   /\ startsWith tagPrefix e.2 = false) entries ->
  scanAll (flat_map (fun e => [e.1; e.2]) entries ++ rest)
  = omap variantOf entries ++ scanAll rest.
Proof.
  induction 1 as [|[tag next] entries [Htag Hnext] _ IH]; [done|].
  cbn [flat_map app fst snd scanAll omap list_omap] in *.
  rewrite scanLine_entry, scanLine_other, IH by done.
  destruct (variantOf (tag, next)); done.
Qed.

Lemma entries_lines (entries : list (jsstring * jsstring)) :
  Forall (fun e => startsWith tagPrefix e.1 = true
                   /\ startsWith tagPrefix e.2 = false
                   /\ isLine e.1 /\ isLine e.2) entries ->
  Forall isLine (flat_map (fun e => [e.1; e.2]) entries).
Proof.
  induction 1 as [|[tag next] es (_&_&?&?) _ IH]; cbn; auto.
Qed.

(** A playlist of tag/URI pairs that ends with a tag line without a next
    line. *)
Lemma parseVariants_cut (entries : list (jsstring * jsstring)) tag :
  Forall (fun e => startsWith tagPrefix e.1 = true
                   /\ startsWith tagPrefix e.2 = false
                   /\ isLine e.1 /\ isLine e.2) entries ->
  isLine tag ->
  parseVariants (joinLines (flat_map (fun e => [e.1; e.2]) entries ++ [tag]))
  = omap variantOf entries.
Proof.
  intros H Htag. rewrite parseVariants_scanAll, split_join.
  - rewrite scanAll_entries_app
      by (eapply Forall_impl; [exact H|]; now intros ? (?&?&?&?)).
    cbn [scanAll]. rewrite scanLine_last by done. now rewrite !app_nil_r.
  - now destruct (flat_map _ entries).
  - apply Forall_app. split; [now apply entries_lines|now constructor].
Qed.

(** ** The episode-server resolver *)

Section Resolver.

Variable upstream : jsstring -> Response.

(** What a run does once the watch metadata has arrived. *)
Lemma findEpisodeServer_run episode _server log enc w :
  encodeURIComponent (ep_id episode) = Some enc ->
  ok (upstream (watchUrl enc)) = true ->
  json (upstream (watchUrl enc)) = Some (JWatchResponse w) ->
  findEpisodeServer upstream episode _server log =
    match find (fun s => src_isM3U8 s) (sources w) with
    | None =>
        (Throw (Error (js "No HLS master playlist found")), log ++ [watchUrl enc])
    | Some me =>
        if ok (upstream (src_url me)) then
          (Ok {| server := serverLabel _server;
                 headers := ∅;
                 videoSources := sourcesOf episode w me (text (upstream (src_url me))) |},
           log ++ [watchUrl enc; src_url me])
        else
          (Throw (Error (js "Failed to fetch master playlist: "
                         ++ numToString (status (upstream (src_url me))))),
           log ++ [watchUrl enc; src_url me])
    end.
Proof.
  intros Henc Hok Hjson.
  unfold findEpisodeServer, bind, lift, fetch, asWatchResponse.
  rewrite Henc. cbn [ret]. rewrite Hok. cbn [negb].
  rewrite Hjson. cbn [ret].
  destruct (find _ (sources w)) as [me|]; [|reflexivity].
  rewrite <- app_assoc. cbn [app].
  destruct (ok (upstream (src_url me))); reflexivity.
Qed.

Lemma find_first {A} (p : A -> bool) (pre : list A) (x : A) (post : list A) :
  Forall (fun y => p y = false) pre -> p x = true ->
  find p (pre ++ x :: post) = Some x.
Proof.
  induction 1 as [|y pre Hy _ IH]; intros Hx; cbn.
  - now rewrite Hx.
  - rewrite Hy. auto.
Qed.

Lemma find_absent {A} (p : A -> bool) (l : list A) :
  Forall (fun y => p y = false) l -> find p l = None.
Proof.
  induction 1 as [|y l Hy _ IH]; cbn; [reflexivity|]. now rewrite Hy.
Qed.

End Resolver.

Section ResolverClaims.

Variable upstream : jsstring -> Response.
Variables (episode : EpisodeDetails) (_server : jsstring) (log : list jsstring).
Variables (enc : jsstring) (w : WatchResponse).

Hypothesis Henc : encodeURIComponent (ep_id episode) = Some enc.
Hypothesis Hok : ok (upstream (watchUrl enc)) = true.
Hypothesis Hjson : json (upstream (watchUrl enc)) = Some (JWatchResponse w).

(** C2: with no source entry flagged isM3U8 the call fails with the
    "No HLS master playlist found" error after the single watch request;
    otherwise the first flagged entry in list order is the master entry: the
    playlist is fetched from its URL and the result is built from it. *)
Theorem absent_hls_entry_fails :
  (Forall (fun s => src_isM3U8 s = false) (sources w) ->
   findEpisodeServer upstream episode _server log
   = (Throw (Error (js "No HLS master playlist found")), log ++ [watchUrl enc]))
  /\ (forall pre me post,
        sources w = pre ++ me :: post ->
        Forall (fun s => src_isM3U8 s = false) pre ->
        src_isM3U8 me = true ->
        findEpisodeServer upstream episode _server log
        = if ok (upstream (src_url me)) then
            (Ok {| server := serverLabel _server;
                   headers := ∅;
                   videoSources :=
                     sourcesOf episode w me (text (upstream (src_url me))) |},
             log ++ [watchUrl enc; src_url me])
          else
            (Throw (Error (js "Failed to fetch master playlist: "
                           ++ numToString (status (upstream (src_url me))))),
             log ++ [watchUrl enc; src_url me])).
Proof.
  split.
  - intros Hnone. rewrite (findEpisodeServer_run _ _ _ _ _ _ Henc Hok Hjson).
    now rewrite find_absent.
  - intros pre me post Hsrc Hpre Hme.
    rewrite (findEpisodeServer_run _ _ _ _ _ _ Henc Hok Hjson).
    now rewrite Hsrc, find_first.
Qed.

Variable me : Source.
Hypothesis Hme : find (fun s => src_isM3U8 s) (sources w) = Some me.
Hypothesis Hplaylist : ok (upstream (src_url me)) = true.

Lemma findEpisodeServer_ok :
  findEpisodeServer upstream episode _server log
  = (Ok {| server := serverLabel _server;
           headers := ∅;
           videoSources := sourcesOf episode w me (text (upstream (src_url me))) |},
     log ++ [watchUrl enc; src_url me]).
Proof.
  rewrite (findEpisodeServer_run _ _ _ _ _ _ Henc Hok Hjson).
  now rewrite Hme, Hplaylist.
Qed.

(** C3: a tag line without a resolution attribute gives no variant, nor
    does one whose next line is missing or begins with '#'; and whatever the
    manifest text, the call returns the server name, empty headers and the
    video sources, none for the empty text. *)
Theorem malformed_manifest_degrades :
  (forall lines i variants line,
      lines !! i = Some line -> ~ hasResolution line ->
      scanLine lines i variants = variants)
  /\ (forall lines i variants,
        lines !! (i + 1)%nat = None
        \/ (exists next, lines !! (i + 1)%nat = Some next
                         /\ startsWith (js "#") next = true) ->
        scanLine lines i variants = variants)
  /\ (exists vs,
        findEpisodeServer upstream episode _server log
        = (Ok {| server := serverLabel _server; headers := ∅; videoSources := vs |},
           log ++ [watchUrl enc; src_url me])
        /\ (text (upstream (src_url me)) = [] -> vs = [])).
Proof.
  split; [|split].
  - intros lines i variants line Hline Hres. unfold scanLine. rewrite Hline.
    destruct (startsWith _ line); [|done].
    now rewrite exec_resolution_None.
  - intros lines i variants [Hnone|(next & Hnext & Hhash)].
    + now apply scanLine_last.
    + unfold scanLine. rewrite Hnext. cbn [fmap option_fmap option_map].
      apply (startsWith_cons 35) in Hhash as [s' ->].
      destruct (trim_keeps_head 35 s') as [t Ht]; [done|]. rewrite Ht.
      replace (startsWith (js "#") (35 :: t)) with true by done.
      rewrite andb_false_r.
      destruct (lines !! i); [|done]. destruct (startsWith _ _); [|done].
      destruct (exec re_resolution _); done.
  - eexists. split; [apply findEpisodeServer_ok|].
    intros ->. reflexivity.
Qed.

(** C1, the general part: for a playlist made of tag lines each followed by
    a URI line there is one video source per recognised variant, in playlist
    order, its quality the height of the resolution attribute followed by
    "p" and its URL the manifest URL up to its last slash followed by the
    trimmed URI line. *)
Lemma manifest_sources base file entries :
  src_url me = base ++ 47 :: file -> 47 ∉ file ->
  text (upstream (src_url me)) = playlistOf entries ->
  Forall (fun e => startsWith tagPrefix e.1 = true
                   /\ startsWith tagPrefix e.2 = false
                   /\ isLine e.1 /\ isLine e.2) entries ->
  exists r,
    fst (findEpisodeServer upstream episode _server log) = Ok r
    /\ videoSources r
       = toVideoSource (base ++ js "/") (toSubtitles episode (subtitles w))
           <$> omap variantOf entries.
Proof.
  intros Hurl Hfile Htext Hentries. rewrite findEpisodeServer_ok.
  eexists. split; [reflexivity|]. cbn [videoSources]. unfold sourcesOf.
  rewrite Htext, parseVariants_playlistOf by done.
  rewrite Hurl, replace_last_segment by done. reflexivity.
Qed.

(** C10: a tag line whose next line trims to the empty string gives no
    variant, in the loop and in the description of the variants alike; the
    parse is that of the playlist cut after the tag line followed by that
    of the lines after the blank one.  For a playlist of tag/URI pairs in
    which one pair has such a blank URI line the call succeeds, and its
    video sources are those of the pairs before and of the pairs after, in
    order, each with its quality and URL: the same sources that the pairs
    before give when the playlist ends with the tag line, its next line
    missing.  On the sample playlist, whose first tag line has the
    resolution 1280x720 and a blank next line, only the 360p source is
    returned. *)
Theorem blank_uri_skipped :
  (forall lines i variants blank,
      lines !! (i + 1)%nat = Some blank -> trim blank = [] ->
      scanLine lines i variants = variants)
  /\ (forall a tag blank b,
        trim blank = [] -> Forall isLine (a ++ tag :: blank :: b) ->
        parseVariants (joinLines (a ++ tag :: blank :: b))
        = parseVariants (joinLines (a ++ [tag])) ++ parseVariants (joinLines b))
  /\ (forall a tag blank b,
        trim blank = [] -> Forall isLine (a ++ tag :: blank :: b) ->
        text (upstream (src_url me)) = joinLines (a ++ tag :: blank :: b) ->
        exists r,
          fst (findEpisodeServer upstream episode _server log) = Ok r
          /\ videoSources r
             = sourcesOf episode w me (joinLines (a ++ [tag]))
               ++ sourcesOf episode w me (joinLines b))
  /\ (forall tag blank, trim blank = [] -> variantOf (tag, blank) = None)
  /\ (forall base file pre tag blank post,
        src_url me = base ++ 47 :: file -> 47 ∉ file ->
        startsWith tagPrefix tag = true -> isLine tag ->
        isLine blank -> trim blank = [] ->
        Forall (fun e => startsWith tagPrefix e.1 = true
                         /\ startsWith tagPrefix e.2 = false
                         /\ isLine e.1 /\ isLine e.2) (pre ++ post) ->
        text (upstream (src_url me)) = playlistOf (pre ++ (tag, blank) :: post) ->
        exists r,
          fst (findEpisodeServer upstream episode _server log) = Ok r
          /\ videoSources r
             = toVideoSource (base ++ js "/") (toSubtitles episode (subtitles w))
                 <$> (omap variantOf pre ++ omap variantOf post))
  /\ (forall base file pre tag,
        src_url me = base ++ 47 :: file -> 47 ∉ file ->
        isLine tag ->
        Forall (fun e => startsWith tagPrefix e.1 = true
                         /\ startsWith tagPrefix e.2 = false
                         /\ isLine e.1 /\ isLine e.2) pre ->
        text (upstream (src_url me))
        = joinLines (flat_map (fun e => [e.1; e.2]) pre ++ [tag]) ->
        exists r,
          fst (findEpisodeServer upstream episode _server log) = Ok r
          /\ videoSources r
             = toVideoSource (base ++ js "/") (toSubtitles episode (subtitles w))
                 <$> omap variantOf pre)
  /\ (hasResolution (js "#EXT-X-STREAM-INF:RESOLUTION=1280x720")
      /\ findEpisodeServer blankUpstream demoEpisode (js "default") []
         = (Ok {| server := js "zoro";
                  headers := ∅;
                  videoSources :=
                    [ {| vs_url := js "https://x/y/variant360.m3u8";
                         vs_type := js "m3u8";
                         vs_quality := js "360p";
                         vs_subtitles :=
                           toSubtitles demoEpisode (subtitles demoWatch) |} ] |},
            [watchUrl (js "ep-7"); js "https://x/y/master.m3u8"])).
Proof.
  split; [|split; [|split; [|split; [|split; [|split]]]]].
  - intros. now apply scanLine_blank with blank.
  - intros. now apply parseVariants_blank.
  - intros a tag blank b Hb Hall Htext. rewrite findEpisodeServer_ok.
    eexists. split; [reflexivity|]. cbn [videoSources]. unfold sourcesOf.
    rewrite Htext, parseVariants_blank by done. now rewrite fmap_app.
  - intros. now apply variantOf_blank.
  - intros base file pre tag blank post Hurl Hfile Htag Hl Hbl Hb Hall Htext.
    apply Forall_app in Hall as [Hpre Hpost].
    destruct (manifest_sources base file (pre ++ (tag, blank) :: post))
      as (r & Hr & Hsrc); [done|done|done| |].
    { apply Forall_app. split; [done|]. constructor; [|done].
      cbn [fst snd]. split; [done|]. split; [now apply trim_blank_not_tag|done]. }
    exists r. split; [done|]. rewrite Hsrc, omap_app. cbn [omap list_omap].
    now rewrite variantOf_blank.
  - intros base file pre tag Hurl Hfile Hl Hpre Htext.
    rewrite findEpisodeServer_ok. eexists. split; [reflexivity|].
    cbn [videoSources]. unfold sourcesOf.
    rewrite Htext, parseVariants_cut by done.
    rewrite Hurl, replace_last_segment by done. reflexivity.
  - split; [|vm_compute; reflexivity].
    exists (js "#EXT-X-STREAM-INF:"), (js "1280"), (js "720"), [].
    split; [reflexivity|]. split; (split; [discriminate|decide_closed]).
Qed.

End ResolverClaims.

(** C1: for a playlist made of tag lines each followed by a URI line the
    resolver gives one video source per recognised variant, in playlist
    order, its quality the height of the line's first resolution attribute
    followed by "p" (the width is dropped) and its URL the manifest URL up
    to its last slash followed by the trimmed URI line; the first attribute
    of a line that reads RESOLUTION=<width>x<height> after text without such
    an attribute is (width, height); and the two-variant example under
    https://x/y/ gives the 720p source and then the 360p source. *)
Theorem manifest_parsing :
  (forall (upstream : jsstring -> Response) episode _server log enc w me
          base file entries,
      encodeURIComponent (ep_id episode) = Some enc ->
      ok (upstream (watchUrl enc)) = true ->
      json (upstream (watchUrl enc)) = Some (JWatchResponse w) ->
      find (fun s => src_isM3U8 s) (sources w) = Some me ->
      ok (upstream (src_url me)) = true ->
      src_url me = base ++ 47 :: file -> 47 ∉ file ->
      text (upstream (src_url me)) = playlistOf entries ->
      Forall (fun e => startsWith tagPrefix e.1 = true
                       /\ startsWith tagPrefix e.2 = false
                       /\ isLine e.1 /\ isLine e.2) entries ->
      exists r,
        fst (findEpisodeServer upstream episode _server log) = Ok r
        /\ videoSources r
           = toVideoSource (base ++ js "/") (toSubtitles episode (subtitles w))
               <$> omap variantOf entries)
  /\ (forall pre width height post,
        isNumber width -> isNumber height ->
        ~ hasResolution pre -> takeWhile isDigit post = [] ->
        firstResolution
          (pre ++ js "RESOLUTION=" ++ width ++ js "x" ++ height ++ post)
        = Some (width, height))
  /\ (exists r,
        fst (findEpisodeServer demoUpstream demoEpisode (js "default") []) = Ok r
        /\ (fun v => (vs_url v, vs_type v, vs_quality v)) <$> videoSources r
           = [ (js "https://x/y/variant720.m3u8", js "m3u8", js "720p");
               (js "https://x/y/variant360.m3u8", js "m3u8", js "360p") ]).
Proof.
  split; [|split].
  - intros. eapply manifest_sources; eauto.
  - intros. now apply firstResolution_attr.
  - eexists. split; vm_compute; reflexivity.
Qed.

(** The hypotheses of C1 hold of the sample upstream and its two-variant
    playlist. *)
Lemma manifest_parsing_witness :
  exists r,
    fst (findEpisodeServer demoUpstream demoEpisode (js "default") []) = Ok r
    /\ videoSources r
       = toVideoSource (js "https://x/y/")
           (toSubtitles demoEpisode (subtitles demoWatch))
           <$> omap variantOf demoEntries.
Proof.
  refine (proj1 manifest_parsing demoUpstream demoEpisode (js "default") []
            (js "ep-7") demoWatch
            {| src_url := js "https://x/y/master.m3u8"; src_isM3U8 := true;
               src_type := js "hls" |}
            (js "https://x/y") (js "master.m3u8") demoEntries
            _ _ _ _ _ _ _ _ _);
    try reflexivity; decide_closed.
Defined.

(** C9: the server name of the result is "zoro" for the preference
    "default" and the preference itself otherwise; two preferences give the
    same requests in the same order, the same failure if any, and results
    that agree on headers and video sources. *)
Theorem server_preference_noninterference
    (upstream : jsstring -> Response) (episode : EpisodeDetails)
    (server1 server2 : jsstring) (log : list jsstring) :
  let run1 := findEpisodeServer upstream episode server1 log in
  let run2 := findEpisodeServer upstream episode server2 log in
  snd run1 = snd run2
  /\ match fst run1, fst run2 with
     | Ok r1, Ok r2 =>
         server r1 = (if bool_decide (server1 = js "default") then js "zoro"
                      else server1)
         /\ server r2 = (if bool_decide (server2 = js "default") then js "zoro"
                         else server2)
         /\ headers r1 = headers r2
         /\ videoSources r1 = videoSources r2
     | Throw e1, Throw e2 => e1 = e2
     | _, _ => False
     end.
Proof.
  unfold findEpisodeServer, bind, lift, fetch, asWatchResponse.
  destruct (encodeURIComponent (ep_id episode)) as [enc|]; cbn [ret throw fst snd];
    [|done].
  destruct (ok (upstream (watchUrl enc))); cbn [negb throw fst snd]; [|done].
  destruct (json (upstream (watchUrl enc))) as [[p|w|]|]; cbn [ret throw fst snd];
    try done.
  destruct (find _ (sources w)) as [me|]; cbn [throw fst snd]; [|done].
  destruct (ok (upstream (src_url me))); cbn [negb ret throw fst snd]; done.
Qed.

(** C8: every video source of a result carries one and the same subtitle
    list, which has an entry per upstream track, in upstream order: at
    position idx the id is the episode id, "-sub-" and idx in decimal, the
    url and language are the track's, and the default flag is set exactly
    when the language contains "english", letter case ignored. *)
Theorem subtitle_mapping :
  (forall (upstream : jsstring -> Response) episode _server log log' r enc w,
      encodeURIComponent (ep_id episode) = Some enc ->
      json (upstream (watchUrl enc)) = Some (JWatchResponse w) ->
      findEpisodeServer upstream episode _server log = (Ok r, log') ->
      exists subs,
        Forall (fun vs => vs_subtitles vs = subs) (videoSources r)
        /\ length subs = length (subtitles w)
        /\ forall idx sub,
             subtitles w !! idx = Some sub ->
             exists t,
               subs !! idx = Some t
               /\ vsub_id t
                  = ep_id episode ++ js "-sub-" ++ numToString (N.of_nat idx)
               /\ vsub_url t = trk_url sub
               /\ vsub_language t = trk_lang sub
               /\ (vsub_isDefault t = true
                   <-> containsIgnoreCase (js "english") (trk_lang sub)))
  /\ test re_english (js "English") = true
  /\ test re_english (js "english (US)") = true
  /\ test re_english (js "Spanish") = false.
Proof.
  split; [|repeat split; vm_compute; reflexivity].
  intros upstream episode _server log log' r enc w Henc Hjson.
  unfold findEpisodeServer, bind, lift, fetch, asWatchResponse.
  rewrite Henc. cbn [ret].
  destruct (ok (upstream (watchUrl enc))); cbn [negb throw]; [|done].
  rewrite Hjson. cbn [ret].
  destruct (find _ (sources w)) as [me|]; cbn [throw]; [|done].
  destruct (ok (upstream (src_url me))); cbn [negb ret throw]; [|done].
  intros [= <- _]. cbn [videoSources].
  exists (toSubtitles episode (subtitles w)). split; [|split].
  - apply Forall_fmap, Forall_forall. done.
  - unfold toSubtitles. apply length_imap.
  - intros idx sub Hsub. unfold toSubtitles.
    rewrite list_lookup_imap, Hsub. cbn [fmap option_fmap option_map].
    eexists. split; [reflexivity|]. cbn.
    repeat split; try done; apply test_english.
Qed.

(** The sample upstream meets the hypotheses of C8. *)
Lemma subtitle_mapping_witness :
  exists subs,
    Forall (fun vs => vs_subtitles vs = subs)
      (videoSources
         {| server := js "zoro"; headers := ∅;
            videoSources := sourcesOf demoEpisode demoWatch
              {| src_url := js "https://x/y/master.m3u8"; src_isM3U8 := true;
                 src_type := js "hls" |} demoPlaylist |})
    /\ length subs = length (subtitles demoWatch)
    /\ forall idx sub,
         subtitles demoWatch !! idx = Some sub ->
         exists t,
           subs !! idx = Some t
           /\ vsub_id t
              = ep_id demoEpisode ++ js "-sub-" ++ numToString (N.of_nat idx)
           /\ vsub_url t = trk_url sub
           /\ vsub_language t = trk_lang sub
           /\ (vsub_isDefault t = true
               <-> containsIgnoreCase (js "english") (trk_lang sub)).
Proof.
  apply (proj1 subtitle_mapping demoUpstream demoEpisode (js "default") []
           [watchUrl (js "ep-7"); js "https://x/y/master.m3u8"] _
           (js "ep-7") demoWatch);
    reflexivity.
Defined.

(** C2 on the sample data: a watch response without an HLS entry, and one
    whose second and third entries are HLS. *)
Lemma absent_hls_entry_fails_witness :
  findEpisodeServer noHlsUpstream demoEpisode (js "default") []
  = (Throw (Error (js "No HLS master playlist found")), [watchUrl (js "ep-7")])
  /\ findEpisodeServer demoUpstream demoEpisode (js "default") []
     = (Ok {| server := js "zoro"; headers := ∅;
              videoSources := sourcesOf demoEpisode demoWatch masterEntry demoPlaylist |},
        [watchUrl (js "ep-7"); js "https://x/y/master.m3u8"]).
Proof.
  split.
  - apply (proj1 (absent_hls_entry_fails noHlsUpstream demoEpisode (js "default")
                    [] (js "ep-7") noHlsWatch eq_refl eq_refl eq_refl)).
    repeat constructor.
  - apply (proj2 (absent_hls_entry_fails demoUpstream demoEpisode (js "default")
                    [] (js "ep-7") demoWatch eq_refl eq_refl eq_refl)
             [ {| src_url := js "https://x/y/fallback.mp4"; src_isM3U8 := false;
                  src_type := js "mp4" |} ]
             masterEntry
             [ {| src_url := js "https://z/other.m3u8"; src_isM3U8 := true;
                  src_type := js "hls" |} ]);
      [reflexivity|repeat constructor|reflexivity].
Defined.

(** C3 on the sample upstream. *)
Lemma malformed_manifest_degrades_witness :
  exists vs,
    findEpisodeServer demoUpstream demoEpisode (js "server1") []
    = (Ok {| server := js "server1"; headers := ∅; videoSources := vs |},
       [watchUrl (js "ep-7"); js "https://x/y/master.m3u8"])
    /\ (text (demoUpstream (js "https://x/y/master.m3u8")) = [] -> vs = []).
Proof.
  apply (malformed_manifest_degrades demoUpstream demoEpisode (js "server1") []
           (js "ep-7") demoWatch eq_refl eq_refl eq_refl masterEntry
           eq_refl eq_refl).
Defined.

(** C10 on a playlist with a blank line after its first tag line: the
    hypotheses hold of it, and only the second variant remains. *)
Lemma blank_uri_skipped_witness :
  exists r,
    fst (findEpisodeServer blankUpstream demoEpisode (js "default") []) = Ok r
    /\ videoSources r
       = [ {| vs_url := js "https://x/y/variant360.m3u8";
              vs_type := js "m3u8";
              vs_quality := js "360p";
              vs_subtitles := toSubtitles demoEpisode (subtitles demoWatch) |} ].
Proof.
  destruct (proj1 (proj2 (proj2 (proj2 (proj2
              (blank_uri_skipped blankUpstream demoEpisode (js "default")
                 [] (js "ep-7") demoWatch eq_refl eq_refl eq_refl
                 masterEntry eq_refl eq_refl)))))
              (js "https://x/y") (js "master.m3u8") []
              (js "#EXT-X-STREAM-INF:RESOLUTION=1280x720") (js "  ")
              [ (js "#EXT-X-STREAM-INF:RESOLUTION=640x360", js "variant360.m3u8") ])
    as (r & Hr & Hsrc);
    [reflexivity|decide_closed|reflexivity|decide_closed|decide_closed
    |reflexivity| |reflexivity|].
  - repeat constructor; cbn [fst snd]; try reflexivity; decide_closed.
  - exists r. split; [exact Hr|]. rewrite Hsrc. vm_compute. reflexivity.
Defined.

(** ** Search results *)

(** C7: the mapped entry's [subOrDub] is "both" when both counts are
    positive, else "dub" when the dub count is positive, else "sub"; it is
    always one of the three values; and the four listed count pairs give
    "sub", "dub", "both", "sub". *)
Theorem subOrDub_derivation (r : AnimeResult) :
  sr_subOrDub (toSearchResult r)
    = (if PrimFloat.ltb 0 (ar_sub r) && PrimFloat.ltb 0 (ar_dub r)
       then js "both"
       else if PrimFloat.ltb 0 (ar_dub r) then js "dub" else js "sub")
  /\ (sr_subOrDub (toSearchResult r) = js "sub"
      \/ sr_subOrDub (toSearchResult r) = js "dub"
      \/ sr_subOrDub (toSearchResult r) = js "both")
  /\ sr_subOrDub (toSearchResult (withCounts 2 0 r)) = js "sub"
  /\ sr_subOrDub (toSearchResult (withCounts 0 3 r)) = js "dub"
  /\ sr_subOrDub (toSearchResult (withCounts 1 1 r)) = js "both"
  /\ sr_subOrDub (toSearchResult (withCounts 0 0 r)) = js "sub".
Proof.
  split; [reflexivity|].
  split; [|repeat split; reflexivity].
  cbn [toSearchResult sr_subOrDub]. unfold subOrDub.
  destruct (PrimFloat.ltb 0 (ar_sub r)), (PrimFloat.ltb 0 (ar_dub r)); cbn; auto.
Qed.

(** ** Search pagination *)

Section Pagination.

Variable upstream : jsstring -> Response.
Variables (keyword enc : jsstring).
Hypothesis Henc : encodeURIComponent keyword = Some enc.

Lemma search_while_pages (pages : list SearchPage) :
  forall fuel allResults page log,
    pages <> [] -> serves upstream enc page pages -> (length pages < fuel)%nat ->
    search_while upstream fuel keyword allResults page true log
    = (Ok (allResults ++ concat ((fun p => toSearchResult <$> results p) <$> pages)),
       log ++ ((fun i => searchUrl enc (page + N.of_nat i)) <$> seq 0 (length pages))).
Proof.
  induction pages as [|p rest IH]; intros fuel allResults page log Hne Hserve Hfuel;
    [done|].
  destruct fuel as [|fuel]; [cbn in Hfuel; lia|].
  destruct (Hserve 0%nat p eq_refl) as (Hok & Hjson & Hnext).
  rewrite N.add_0_r in Hok, Hjson.
  cbn [search_while]. unfold bind at 1. unfold lift. rewrite Henc. cbn [ret].
  unfold bind at 1. unfold fetch at 1. cbn zeta. rewrite Hok. cbn [negb].
  unfold bind at 1. unfold asSearchPage. rewrite Hjson. cbn [ret].
  rewrite Hnext. cbn [length fmap list_fmap concat seq].
  rewrite N.add_0_r.
  destruct rest as [|p' rest].
  - rewrite bool_decide_eq_false_2 by (cbn; lia).
    destruct fuel as [|fuel]; [cbn in Hfuel; lia|]. cbn.
    now rewrite app_nil_r.
  - rewrite bool_decide_eq_true_2 by (cbn; lia).
    rewrite IH; [|done| |cbn in *; lia].
    + rewrite <- !app_assoc. cbn [app]. do 3 f_equal.
      rewrite <- fmap_S_seq, <- list_fmap_compose. apply list_fmap_ext.
      intros _ i _. unfold compose. f_equal. lia.
    + intros i q Hq. specialize (Hserve (S i) q Hq).
      replace (page + 1 + N.of_nat i) with (page + N.of_nat (S i)) by lia.
      destruct Hserve as (? & ? & ->). repeat split; try done.
      apply bool_decide_ext. cbn. lia.
Qed.

End Pagination.

(** C4: when the upstream answers a non-empty sequence of pages of which
    only the last reports no next page, the search, given fuel for one more
    test than there are pages, requests the pages 1, 2, ... in order, one
    request each, and returns the mapped results of all pages in page order;
    with three pages it makes exactly three requests. *)
Theorem search_pagination :
  (forall (upstream : jsstring -> Response) (q : SearchOptions) enc
          (pages : list SearchPage) fuel log,
      encodeURIComponent (normalizeQuery (query q)) = Some enc ->
      pages <> [] ->
      serves upstream enc 1 pages ->
      (length pages < fuel)%nat ->
      search upstream fuel q log
      = (Ok (concat ((fun p => toSearchResult <$> results p) <$> pages)),
         log ++ ((fun i => searchUrl enc (N.of_nat (S i)))
                   <$> seq 0 (length pages))))
  /\ search threePages 4 {| query := js "  My   Show " |} []
     = (Ok (toSearchResult
              <$> [ mkItem (js "a") (js "A") 2 0; mkItem (js "b") (js "B") 0 3;
                    mkItem (js "c") (js "C") 1 1; mkItem (js "d") (js "D") 0 0 ]),
        [ searchUrl (js "My%20Show") 1; searchUrl (js "My%20Show") 2;
          searchUrl (js "My%20Show") 3 ]).
Proof.
  split.
  - intros upstream q enc pages fuel log Henc Hne Hserve Hfuel. unfold search.
    rewrite (search_while_pages upstream _ enc Henc pages) by done.
    cbn [app]. do 2 f_equal. apply list_fmap_ext. intros _ i _. f_equal. lia.
  - vm_compute. reflexivity.
Qed.

(** The three-page upstream meets the hypotheses of C4. *)
Lemma search_pagination_witness :
  search threePages 4 {| query := js "  My   Show " |} []
  = (Ok (concat ((fun p => toSearchResult <$> results p) <$> [page1; page2; page3])),
     [] ++ ((fun i => searchUrl (js "My%20Show") (N.of_nat (S i))) <$> seq 0 3)).
Proof.
  apply (proj1 search_pagination threePages {| query := js "  My   Show " |}
           (js "My%20Show") [page1; page2; page3] 4%nat []).
  - reflexivity.
  - discriminate.
  - intros [|[|[|i]]] p Hp; try discriminate; injection Hp as <-;
      repeat split; reflexivity.
  - cbn. lia.
Defined.

(** ** The query normaliser *)

(** C6: the three listed values, and the order of the five rewriting
    steps; the season rule alone does not fire on "3rd Season", it needs the
    ordinal suffix stripped first. *)
Theorem normalizeQuery_values :
  normalizeQuery (js "3rd Season") = js "3"
  /\ normalizeQuery (js "Season 3") = js "3"
  /\ normalizeQuery (js "  My   Show ") = js "My Show"
  /\ (forall x,
        normalizeQuery x
        = trim (replace re_season_num [Ref 1]
                  (replace re_num_season [Ref 1]
                     (replaceAll re_spaces [Lit (js " ")]
                        (replaceAll re_ordinal [Ref 1] x)))))
  /\ replaceAll re_ordinal [Ref 1] (js "3rd Season") = js "3 Season"
  /\ replace re_num_season [Ref 1] (js "3rd Season") = js "3rd Season".
Proof.
  repeat split; vm_compute; reflexivity.
Qed.

(** ** Collapsing white space *)

Lemma rmatch_spaces prev s :
  rmatch re_spaces prev s ∅ final
  = match s with
    | c :: s1 =>
        if isWhiteSpace c then Some (dropWhile isWhiteSpace s1, ∅) else None
    | [] => None
    end.
Proof.
  unfold re_spaces. rewrite rmatch_plus_chr. destruct s as [|c s]; [done|].
  destruct (isWhiteSpace c); [|done]. now apply greedy_first.
Qed.

Lemma exec_spaces prev s :
  exec_from re_spaces prev s
  = match dropWhile notWhiteSpace s with
    | [] => None
    | c :: r =>
        Some (mkMatch (takeWhile notWhiteSpace s) (c :: takeWhile isWhiteSpace r)
                ∅ (dropWhile isWhiteSpace r))
    end.
Proof.
  revert prev. induction s as [|c s IH]; intros prev; [reflexivity|].
  rewrite exec_from_eq, rmatch_spaces. cbn [takeWhile dropWhile].
  unfold notWhiteSpace at 1 3. destruct (isWhiteSpace c); cbn [negb].
  - now rewrite take_run.
  - rewrite IH. destruct (dropWhile notWhiteSpace s); done.
Qed.

Lemma squeeze_run r :
  squeeze true r = squeeze false (dropWhile isWhiteSpace r).
Proof.
  induction r as [|d r IH]; cbn; [done|].
  destruct (isWhiteSpace d) eqn:E; [done|]. cbn. now rewrite E.
Qed.

Lemma squeeze_split s :
  squeeze false s
  = takeWhile notWhiteSpace s ++ squeeze false (dropWhile notWhiteSpace s).
Proof.
  induction s as [|c s IH]; cbn; [done|]. unfold notWhiteSpace at 1 3.
  destruct (isWhiteSpace c) eqn:E; cbn [negb]; cbn.
  - now rewrite E.
  - now rewrite IH.
Qed.

Lemma replace_spaces fuel prev s :
  (length s < fuel)%nat ->
  replace_from fuel re_spaces [Lit (js " ")] prev s = squeeze false s.
Proof.
  revert prev s. induction fuel as [|fuel IH]; intros prev s Hlen; [lia|].
  cbn [replace_from]. rewrite exec_spaces, (squeeze_split s).
  pose proof (takeWhile_dropWhile notWhiteSpace s) as Hs.
  destruct (dropWhile notWhiteSpace s) as [|c r] eqn:E.
  - cbn. now rewrite app_nil_r in *.
  - cbn [before matched after substitute]. f_equal.
    apply dropWhile_head in E as Hc. unfold notWhiteSpace in Hc.
    apply negb_false_iff in Hc. cbn [squeeze]. rewrite Hc. cbn. f_equal.
    rewrite squeeze_run. apply IH.
    pose proof (dropWhile_length isWhiteSpace r).
    apply (f_equal length) in Hs. rewrite length_app in Hs. cbn in Hs. lia.
Qed.

(** [s.replace(/\s+/g, " ")] *)
Lemma replaceAll_spaces s :
  replaceAll re_spaces [Lit (js " ")] s = squeeze false s.
Proof. unfold replaceAll. apply replace_spaces. lia. Qed.

Lemma squeeze_normalb s :
  normalb (squeeze false s) = true
  /\ normalb (squeeze true s) = true
  /\ startsWithSpace (squeeze true s) = false.
Proof.
  induction s as [|c s (IH1 & IH2 & IH3)]; cbn; [done|].
  destruct (isWhiteSpace c) eqn:E; cbn.
  - now rewrite IH2, IH3.
  - now rewrite E, IH1.
Qed.

Lemma normalb_squeeze s : normalb s = true -> squeeze false s = s.
Proof.
  induction s as [|c s IH]; cbn; [done|].
  destruct (isWhiteSpace c) eqn:E.
  - intros [[Hc Hs%negb_true_iff]%andb_true_iff Hn]%andb_true_iff.
    apply N.eqb_eq in Hc. subst c. f_equal. rewrite squeeze_run.
    destruct s as [|d s]; [done|]. cbn [startsWithSpace] in Hs.
    cbn [dropWhile]. rewrite Hs. now apply IH.
  - intros H. f_equal. now apply IH.
Qed.

Lemma normalb_app_inv a b :
  normalb (a ++ b) = true -> normalb a = true /\ normalb b = true.
Proof.
  induction a as [|c a IH]; cbn [app normalb]; [done|].
  intros [Hc [Ha Hb]%IH]%andb_true_iff. split; [|done].
  rewrite Ha, andb_true_r. destruct (isWhiteSpace c); [|done].
  apply andb_true_iff in Hc as [-> Hc]. cbn.
  destruct a as [|d a]; [done|]. exact Hc.
Qed.

Lemma normalb_app_head a b :
  normalb a = true -> normalb b = true -> startsWithSpace b = false ->
  normalb (a ++ b) = true.
Proof.
  intros Ha Hb Hhead. induction a as [|c a IH]; cbn [app normalb] in *; [done|].
  apply andb_true_iff in Ha as [Hc Ha]. rewrite (IH Ha), andb_true_r.
  destruct (isWhiteSpace c); [|done].
  apply andb_true_iff in Hc as [-> Hc]. cbn.
  destruct a as [|d a]; [cbn; now rewrite Hhead|exact Hc].
Qed.

Lemma normalb_app_last a c b :
  normalb (a ++ [c]) = true -> normalb b = true -> isWhiteSpace c = false ->
  normalb ((a ++ [c]) ++ b) = true.
Proof.
  intros Ha Hb Hc. rewrite <- app_assoc. cbn [app].
  apply normalb_app_inv in Ha as [Ha _].
  apply normalb_app_head; [done|cbn; now rewrite Hc|exact Hc].
Qed.

Lemma trimStart_factor s : exists l, s = l ++ trimStart s.
Proof.
  induction s as [|c s [l IH]]; cbn; [now exists []|].
  destruct (isWhiteSpace c); [|now exists []].
  exists (c :: l). cbn. now f_equal.
Qed.

Lemma trimEnd_factor s : exists r, s = trimEnd s ++ r.
Proof.
  unfold trimEnd. destruct (trimStart_factor (reverse s)) as [l Hl].
  exists (reverse l). rewrite <- reverse_app, <- Hl. now rewrite reverse_involutive.
Qed.

Lemma normalb_trim s : normalb s = true -> normalb (trim s) = true.
Proof.
  intros H. unfold trim.
  destruct (trimStart_factor s) as [l Hl]. rewrite Hl in H.
  apply normalb_app_inv in H as [_ H].
  destruct (trimEnd_factor (trimStart s)) as [r Hr]. rewrite Hr in H.
  now apply normalb_app_inv in H as [H _].
Qed.

Lemma trimStart_idem s : trimStart (trimStart s) = trimStart s.
Proof.
  induction s as [|c s IH]; cbn; [done|].
  destruct (isWhiteSpace c) eqn:E; [done|]. cbn. now rewrite E.
Qed.

Lemma trimEnd_idem s : trimEnd (trimEnd s) = trimEnd s.
Proof.
  unfold trimEnd. now rewrite reverse_involutive, trimStart_idem.
Qed.

Lemma trimStart_trimEnd s :
  trimStart (trimEnd (trimStart s)) = trimEnd (trimStart s).
Proof.
  destruct (trimStart s) as [|c t] eqn:E; [reflexivity|].
  assert (Hc : isWhiteSpace c = false).
  { rewrite trimStart_dropWhile in E. now apply dropWhile_head in E. }
  destruct (trim_keeps_head c t Hc) as [t' Ht']. unfold trim in Ht'.
  cbn [trimStart] in Ht'. rewrite Hc in Ht'. rewrite Ht'. cbn. now rewrite Hc.
Qed.

Lemma trim_idem s : trim (trim s) = trim s.
Proof.
  unfold trim. now rewrite trimStart_trimEnd, trimEnd_idem.
Qed.

(** ** The season patterns *)

Lemma isDigit_not_space d : isDigit d = true -> isWhiteSpace d = false.
Proof.
  unfold isDigit, isWhiteSpace. intros H. unbool.
  repeat (apply orb_false_intro); try (apply andb_false_iff; left); unbool; lia.
Qed.

Lemma isDigit_not_S d : isDigit d = true -> litb true 83 d = false.
Proof.
  unfold isDigit, litb, canonicalize. intros H. unbool.
  replace ((97 <=? d) && (d <=? 122)) with false
    by (symmetry; apply andb_false_iff; left; unbool; lia).
  cbn. unbool. lia.
Qed.

Lemma space_not_S c : isWhiteSpace c = true -> litb true 83 c = false.
Proof.
  unfold litb, canonicalize. intros H.
  destruct ((97 <=? c) && (c <=? 122)) eqn:E.
  - unfold isWhiteSpace in H. unbool; lia.
  - cbn. unbool; try lia. intros ->. done.
Qed.

Lemma space_not_digit c : isWhiteSpace c = true -> isDigit c = false.
Proof.
  intros H. destruct (isDigit c) eqn:E; [|done].
  apply isDigit_not_space in E. congruence.
Qed.

Lemma prefixb_Season d s :
  litb true 83 d = false -> prefixb true (js "Season") (d :: s) = false.
Proof.
  intros H. change (js "Season") with (83 :: js "eason").
  cbn [prefixb]. now rewrite H.
Qed.

Lemma rmatch_num_season prev s :
  rmatch re_num_season prev s ∅ final
  = match s with
    | c :: s1 =>
        if isDigit c then
          let r2 := dropWhile isWhiteSpace (dropWhile isDigit s1) in
          if prefixb true (js "Season") r2
          then Some (drop 6 r2, <[1%nat := c :: takeWhile isDigit s1]> ∅)
          else None
        else None
    | [] => None
    end.
Proof.
  unfold re_num_season. rewrite rmatch_seq, rmatch_group, rmatch_plus_chr.
  destruct s as [|c s1]; [done|]. destruct (isDigit c); [|done].
  rewrite greedy_commit; cycle 1.
  { intros prev' d s' Hd. rewrite rmatch_seq, rmatch_star_chr. cbn [greedy].
    rewrite (isDigit_not_space d Hd), rmatch_word.
    now rewrite (prefixb_Season _ _ (isDigit_not_S d Hd)). }
  rewrite take_run, rmatch_seq, rmatch_star_chr.
  rewrite greedy_commit; cycle 1.
  { intros prev' d s' Hd. rewrite rmatch_word.
    now rewrite (prefixb_Season _ _ (space_not_S d Hd)). }
  rewrite rmatch_word. cbn zeta.
  destruct (prefixb true (js "Season") _); done.
Qed.

Lemma rmatch_season_num prev s :
  rmatch re_season_num prev s ∅ final
  = if prefixb true (js "Season") s then
      match dropWhile isWhiteSpace (drop 6 s) with
      | d :: r3 =>
          if isDigit d
          then Some (dropWhile isDigit r3, <[1%nat := d :: takeWhile isDigit r3]> ∅)
          else None
      | [] => None
      end
    else None.
Proof.
  unfold re_season_num. rewrite rmatch_seq, rmatch_word.
  destruct (prefixb true (js "Season") s); [|done].
  change (length (js "Season")) with 6%nat.
  rewrite rmatch_seq, rmatch_star_chr.
  rewrite greedy_commit; cycle 1.
  { intros prev' d s' Hd. rewrite rmatch_group, rmatch_plus_chr.
    now rewrite (space_not_digit d Hd). }
  rewrite rmatch_group, rmatch_plus_chr.
  destruct (dropWhile isWhiteSpace (drop 6 s)) as [|d r3]; [done|].
  destruct (isDigit d); [|done].
  erewrite greedy_first; [|reflexivity]. now rewrite take_run.
Qed.

Lemma replaceAll_no_match r tpl s : exec r s = None -> replaceAll r tpl s = s.
Proof.
  unfold replaceAll, exec. intros H. cbn [replace_from]. now rewrite H.
Qed.

Lemma replace_no_match r tpl s : exec r s = None -> replace r tpl s = s.
Proof. unfold replace. now intros ->. Qed.

Lemma exec_from_inv r prev s m :
  exec_from r prev s = Some m ->
  exists prev' t,
    s = before m ++ t
    /\ rmatch r prev' t ∅ final = Some (after m, groups m)
    /\ matched m = take (length t - length (after m)) t.
Proof.
  revert prev m. induction s as [|c s IH]; intros prev m; rewrite exec_from_eq.
  - destruct (rmatch r prev [] ∅ final) as [[s' caps]|] eqn:E; [|done].
    intros [= <-]. now exists prev, [].
  - destruct (rmatch r prev (c :: s) ∅ final) as [[s' caps]|] eqn:E.
    + intros [= <-]. now exists prev, (c :: s).
    + destruct (exec_from r (Some c) s) as [m'|] eqn:E'; [|done].
      intros [= <-]. apply IH in E' as (prev' & t & -> & H1 & H2).
      now exists prev', t.
Qed.

Lemma digits_last d D :
  Forall (fun c => isDigit c = true) (d :: D) ->
  exists D' c, d :: D = D' ++ [c] /\ isWhiteSpace c = false.
Proof.
  intros H. destruct (exists_last (l := d :: D)) as (D' & c & E); [done|].
  exists D', c. split; [done|]. rewrite E in H.
  apply Forall_app in H as [_ H]. inversion H; subst.
  now apply isDigit_not_space.
Qed.

Lemma prefixb_nonempty icase w s :
  w <> [] -> prefixb icase w s = true -> s <> [].
Proof. destruct w, s; done. Qed.

(** What replacing "<number> Season" by the number does when the pattern
    matches: a non-empty piece after the number goes. *)
Lemma replace_num_season_shape s m :
  exec re_num_season s = Some m ->
  exists D c X,
    s = (before m ++ D ++ [c]) ++ X ++ after m
    /\ replace re_num_season [Ref 1] s = (before m ++ D ++ [c]) ++ after m
    /\ isWhiteSpace c = false /\ X <> [].
Proof.
  intros E. unfold replace. rewrite E. unfold exec in E.
  apply exec_from_inv in E as (prev' & t & E & Hm & _).
  rewrite rmatch_num_season in Hm.
  destruct t as [|c s1]; [done|]. destruct (isDigit c) eqn:Ec; [|done].
  cbn zeta in Hm. destruct (prefixb _ _ _) eqn:Ep; [|done].
  injection Hm as Hafter Hgroups.
  unfold substitute, group. cbn [fmap list_fmap concat].
  rewrite <- Hgroups, lookup_insert_eq. cbn [default from_option id].
  rewrite app_nil_r.
  destruct (digits_last c (takeWhile isDigit s1)) as (D' & c' & HD & Hc').
  { constructor; [done|apply takeWhile_Forall]. }
  exists D', c',
    (takeWhile isWhiteSpace (dropWhile isDigit s1)
     ++ take 6 (dropWhile isWhiteSpace (dropWhile isDigit s1))).
  rewrite <- HD. split; [|split; [|split; [done|]]].
  - rewrite E, <- Hafter, <- !app_assoc. cbn [app]. do 2 f_equal.
    now rewrite take_drop, !takeWhile_dropWhile.
  - now rewrite <- app_assoc.
  - apply prefixb_nonempty in Ep; [|done].
    destruct (dropWhile isWhiteSpace (dropWhile isDigit s1)); [done|].
    cbn [take]. intros [_ H]%app_eq_nil. done.
Qed.

(** What replacing "Season <number>" by the number does when the pattern
    matches: a non-empty piece before the number goes. *)
Lemma replace_season_num_shape s m :
  exec re_season_num s = Some m ->
  exists X d D,
    s = (before m ++ X) ++ (d :: D) ++ after m
    /\ replace re_season_num [Ref 1] s = before m ++ (d :: D) ++ after m
    /\ isWhiteSpace d = false /\ X <> [].
Proof.
  intros E. unfold replace. rewrite E. unfold exec in E.
  apply exec_from_inv in E as (prev' & t & E & Hm & _).
  rewrite rmatch_season_num in Hm.
  destruct (prefixb _ _ _) eqn:Ep; [|done].
  destruct (dropWhile isWhiteSpace (drop 6 t)) as [|d r3] eqn:Er; [done|].
  destruct (isDigit d) eqn:Ed; [|done].
  injection Hm as Hafter Hgroups.
  unfold substitute, group. cbn [fmap list_fmap concat].
  rewrite <- Hgroups, lookup_insert_eq. cbn [default from_option id].
  rewrite app_nil_r.
  exists (take 6 t ++ takeWhile isWhiteSpace (drop 6 t)), d, (takeWhile isDigit r3).
  split; [|split; [done|split; [now apply isDigit_not_space|]]].
  - rewrite E, <- Hafter, <- !app_assoc. do 2 f_equal. cbn [app].
    rewrite takeWhile_dropWhile, <- Er, takeWhile_dropWhile.
    now rewrite take_drop.
  - apply prefixb_nonempty in Ep; [|done]. now destruct t.
Qed.

(** Replacing "<number> Season" by the number keeps a string normal. *)
Lemma replace_num_season_normalb s :
  normalb s = true -> normalb (replace re_num_season [Ref 1] s) = true.
Proof.
  intros Hs. destruct (exec re_num_season s) as [m|] eqn:E;
    [|now rewrite replace_no_match].
  apply replace_num_season_shape in E as (D & c & X & Hfactor & -> & Hc & _).
  rewrite Hfactor in Hs. apply normalb_app_inv in Hs as [Hpre Hpost].
  apply normalb_app_inv in Hpost as [_ Hpost].
  rewrite !app_assoc in *. now apply normalb_app_last.
Qed.

(** Replacing "Season <number>" by the number keeps a string normal. *)
Lemma replace_season_num_normalb s :
  normalb s = true -> normalb (replace re_season_num [Ref 1] s) = true.
Proof.
  intros Hs. destruct (exec re_season_num s) as [m|] eqn:E;
    [|now rewrite replace_no_match].
  apply replace_season_num_shape in E as (X & d & D & Hfactor & -> & Hd & _).
  rewrite Hfactor in Hs. apply normalb_app_inv in Hs as [Hpre Hpost].
  apply normalb_app_inv in Hpre as [Hpre _].
  now apply normalb_app_head.
Qed.

(** ** Normal forms of the query normaliser *)

(** The result of [normalizeQuery] has single spaces only and none at
    either end. *)
Lemma normalizeQuery_normal x :
  normalb (normalizeQuery x) = true
  /\ trim (normalizeQuery x) = normalizeQuery x.
Proof.
  unfold normalizeQuery. split; [|apply trim_idem].
  apply normalb_trim, replace_season_num_normalb, replace_num_season_normalb.
  rewrite replaceAll_spaces. apply squeeze_normalb.
Qed.

Lemma normalizeQuery_settled y :
  normalb y = true -> trim y = y ->
  exec re_ordinal y = None ->
  exec re_num_season y = None ->
  exec re_season_num y = None ->
  normalizeQuery y = y.
Proof.
  intros Hn Ht H1 H3 H4. unfold normalizeQuery.
  rewrite (replaceAll_no_match _ _ _ H1), replaceAll_spaces.
  rewrite (normalb_squeeze _ Hn).
  now rewrite (replace_no_match _ _ _ H3), (replace_no_match _ _ _ H4).
Qed.

(** ** Stripping ordinal suffixes shortens *)

Lemma rmatch_alt {R} r1 r2 prev s caps (k : cont R) :
  rmatch (Alt r1 r2) prev s caps k
  = match rmatch r1 prev s caps k with
    | Some x => Some x
    | None => rmatch r2 prev s caps k
    end.
Proof. reflexivity. Qed.

Lemma rmatch_boundary {R} prev s caps (k : cont R) :
  rmatch WordBoundary prev s caps k
  = if xorb (isWordAt prev) (isWordAt (head s)) then k prev s caps else None.
Proof. reflexivity. Qed.

Lemma prefixb_length icase w s :
  prefixb icase w s = true -> (length w <= length s)%nat.
Proof.
  revert s. induction w as [|c w IH]; intros [|x s]; cbn; try done; try lia.
  intros [_ H%IH]%andb_true_iff. lia.
Qed.

Lemma digit_no_suffix d s a b :
  isDigit d = true -> (96 < a) -> prefixb false [a; b] (d :: s) = false.
Proof.
  intros Hd Ha. cbn. unfold litb, isDigit in *. unbool.
  replace (d =? a) with false by (symmetry; unbool; lia). done.
Qed.

Lemma suffix_alternative (w r D : jsstring) prev s' (caps : captures) :
  length w = 2%nat ->
  (if prefixb false w r
   then rmatch WordBoundary (advance prev (take (length w) r))
          (drop (length w) r)
          (<[2%nat:=take (length r - length (drop (length w) r)) r]>
             (<[1%nat:=D]> ∅))
          final
   else None) = Some (s', caps) ->
  caps !! 1%nat = Some D /\ s' = drop 2 r /\ (2 <= length r)%nat.
Proof.
  intros Hw. destruct (prefixb false w r) eqn:Hp; [|done].
  rewrite rmatch_boundary. destruct (xorb _ _); [|done]. intros [= <- <-].
  apply prefixb_length in Hp.
  rewrite lookup_insert_ne, lookup_insert_eq by done.
  rewrite Hw in *. done.
Qed.

(** A match of the ordinal pattern at the current position: the number
    captured is the whole run of digits there, and two more units of the
    match follow it. *)
Lemma rmatch_ordinal_inv prev s s' caps :
  rmatch re_ordinal prev s ∅ final = Some (s', caps) ->
  exists c s1,
    s = c :: s1 /\ isDigit c = true
    /\ caps !! 1%nat = Some (c :: takeWhile isDigit s1)
    /\ s' = drop 2 (dropWhile isDigit s1)
    /\ (2 <= length (dropWhile isDigit s1))%nat.
Proof.
  unfold re_ordinal. rewrite rmatch_seq, rmatch_boundary.
  destruct (xorb _ _); [|done].
  rewrite rmatch_seq, rmatch_group, rmatch_plus_chr.
  destruct s as [|c s1]; [done|]. destruct (isDigit c) eqn:Ec; [|done].
  rewrite greedy_commit; cycle 1.
  { intros prev' d r Hd. rewrite rmatch_seq, rmatch_group, !rmatch_alt, !rmatch_word.
    change (js "st") with [115; 116]. change (js "nd") with [110; 100].
    change (js "rd") with [114; 100]. change (js "th") with [116; 104].
    now rewrite !(digit_no_suffix d r) by (done || lia). }
  rewrite take_run.
  rewrite rmatch_seq, rmatch_group, !rmatch_alt, !rmatch_word.
  intros H. exists c, s1. split; [done|]. split; [done|].
  repeat match type of H with
         | match ?e with Some _ => _ | None => _ end = Some _ =>
             let E := fresh "E" in
             destruct e as [?|] eqn:E;
             [injection H as ->; now apply suffix_alternative in E|]
         end.
  now apply suffix_alternative in H.
Qed.

Lemma exec_ordinal_lengths prev s m :
  exec_from re_ordinal prev s = Some m ->
  (length (group m 1) + 2 = length (matched m))%nat.
Proof.
  intros E. apply exec_from_inv in E as (prev' & t & _ & Hm & ->).
  apply rmatch_ordinal_inv in Hm as (c & s1 & -> & _ & HD & -> & Hlen).
  unfold group. rewrite HD. cbn [default from_option id].
  rewrite length_take, length_drop. cbn [length].
  pose proof (f_equal length (takeWhile_dropWhile isDigit s1)) as E.
  rewrite length_app in E. lia.
Qed.

Lemma strip_length fuel prev s :
  (length (replace_from fuel re_ordinal [Ref 1] prev s) <= length s)%nat.
Proof.
  revert prev s. induction fuel as [|fuel IH]; intros prev s; cbn [replace_from];
    [done|].
  destruct (exec_from re_ordinal prev s) as [m|] eqn:E; [|done].
  pose proof (exec_ordinal_lengths _ _ _ E) as Hlen.
  apply exec_from_decompose in E.
  apply (f_equal length) in E. rewrite !length_app in E.
  unfold substitute. cbn [fmap list_fmap concat]. rewrite app_nil_r.
  destruct (matched m) as [|c t] eqn:Em; [cbn in Hlen; lia|].
  rewrite !length_app.
  specialize (IH (last (c :: t)) (after m)). cbn [length] in *. lia.
Qed.

Lemma strip_shorter s :
  exec re_ordinal s <> None ->
  (length (replaceAll re_ordinal [Ref 1] s) < length s)%nat.
Proof.
  unfold replaceAll, exec. cbn [replace_from].
  destruct (exec_from re_ordinal None s) as [m|] eqn:E; [|done]. intros _.
  pose proof (exec_ordinal_lengths _ _ _ E) as Hlen.
  apply exec_from_decompose in E.
  apply (f_equal length) in E. rewrite !length_app in E.
  unfold substitute. cbn [fmap list_fmap concat]. rewrite app_nil_r.
  destruct (matched m) as [|c t] eqn:Em; [cbn in Hlen; lia|].
  rewrite !length_app.
  pose proof (strip_length (length s) (last (c :: t)) (after m)).
  cbn [length] in *. lia.
Qed.

Lemma squeeze_length b s : (length (squeeze b s) <= length s)%nat.
Proof.
  revert b. induction s as [|c s IH]; intros b; cbn; [done|].
  pose proof (IH true). pose proof (IH false).
  destruct (isWhiteSpace c), b; cbn; lia.
Qed.

Lemma trim_length s : (length (trim s) <= length s)%nat.
Proof.
  unfold trim.
  destruct (trimStart_factor s) as [l Hl].
  destruct (trimEnd_factor (trimStart s)) as [r Hr].
  rewrite Hl at 2. rewrite Hr at 2. rewrite !length_app. lia.
Qed.

Lemma replace_num_season_length s :
  (length (replace re_num_season [Ref 1] s) <= length s)%nat
  /\ (exec re_num_season s <> None ->
      (length (replace re_num_season [Ref 1] s) < length s)%nat).
Proof.
  destruct (exec re_num_season s) as [m|] eqn:E.
  - apply replace_num_season_shape in E as (D & c & X & Hs & Hr & _ & HX).
    rewrite Hr. apply (f_equal length) in Hs. rewrite !length_app in *.
    destruct X; [done|]. cbn [length] in *. split; [|intros _]; lia.
  - rewrite replace_no_match by done. split; [lia|done].
Qed.

Lemma replace_season_num_length s :
  (length (replace re_season_num [Ref 1] s) <= length s)%nat
  /\ (exec re_season_num s <> None ->
      (length (replace re_season_num [Ref 1] s) < length s)%nat).
Proof.
  destruct (exec re_season_num s) as [m|] eqn:E.
  - apply replace_season_num_shape in E as (X & d & D & Hs & Hr & _ & HX).
    rewrite Hr. apply (f_equal length) in Hs. rewrite !length_app in *.
    destruct X; [done|]. cbn [length] in *. split; [|intros _]; lia.
  - rewrite replace_no_match by done. split; [lia|done].
Qed.

(** A normal string that the normaliser leaves alone has none of its three
    number patterns. *)
Lemma normalizeQuery_fixed y :
  normalb y = true -> normalizeQuery y = y ->
  exec re_ordinal y = None
  /\ exec re_num_season y = None
  /\ exec re_season_num y = None.
Proof.
  intros Hn Hfix.
  assert (H1 : exec re_ordinal y = None).
  { destruct (exec re_ordinal y) eqn:E; [|done]. exfalso.
    assert (Hlt := strip_shorter y ltac:(congruence)).
    apply (f_equal length) in Hfix. unfold normalizeQuery in Hfix.
    pose proof (trim_length (replace re_season_num [Ref 1]
      (replace re_num_season [Ref 1] (replaceAll re_spaces [Lit (js " ")]
         (replaceAll re_ordinal [Ref 1] y))))).
    pose proof (proj1 (replace_season_num_length
      (replace re_num_season [Ref 1] (replaceAll re_spaces [Lit (js " ")]
         (replaceAll re_ordinal [Ref 1] y))))).
    pose proof (proj1 (replace_num_season_length
      (replaceAll re_spaces [Lit (js " ")] (replaceAll re_ordinal [Ref 1] y)))).
    rewrite replaceAll_spaces in *.
    pose proof (squeeze_length false (replaceAll re_ordinal [Ref 1] y)). lia. }
  unfold normalizeQuery in Hfix.
  rewrite (replaceAll_no_match _ _ _ H1), replaceAll_spaces in Hfix.
  rewrite (normalb_squeeze _ Hn) in Hfix.
  assert (H3 : exec re_num_season y = None).
  { destruct (exec re_num_season y) eqn:E; [|done]. exfalso.
    assert (Hlt := proj2 (replace_num_season_length y) ltac:(congruence)).
    apply (f_equal length) in Hfix.
    pose proof (trim_length (replace re_season_num [Ref 1]
      (replace re_num_season [Ref 1] y))).
    pose proof (proj1 (replace_season_num_length
      (replace re_num_season [Ref 1] y))). lia. }
  rewrite (replace_no_match _ _ _ H3) in Hfix.
  repeat split; try done.
  destruct (exec re_season_num y) eqn:E; [|done]. exfalso.
  assert (Hlt := proj2 (replace_season_num_length y) ltac:(congruence)).
  apply (f_equal length) in Hfix.
  pose proof (trim_length (replace re_season_num [Ref 1] y)). lia.
Qed.

(** ** Where the ordinal pattern matches *)

Lemma digit_is_word c : isDigit c = true -> isWordChar c = true.
Proof. unfold isWordChar. intros ->. now rewrite orb_true_r. Qed.

Lemma space_not_word c : isWhiteSpace c = true -> isWordChar c = false.
Proof.
  intros H. destruct (isWordChar c) eqn:E; [|done]. exfalso.
  unfold isWordChar, isDigit in E. unfold isWhiteSpace in H. unbool; lia.
Qed.

Lemma someb_or {A} (o1 o2 : option A) :
  someb (match o1 with Some x => Some x | None => o2 end) = someb o1 || someb o2.
Proof. now destruct o1. Qed.

Lemma takeWhile_two p (a b : N) r :
  takeWhile p r = [a; b] ->
  r = a :: b :: dropWhile p r /\ p b = true
  /\ match dropWhile p r with [] => True | c :: _ => p c = false end.
Proof.
  intros H. pose proof (takeWhile_dropWhile p r) as Hr. rewrite H in Hr.
  pose proof (takeWhile_Forall p r) as Hall. rewrite H in Hall.
  split; [done|]. split.
  - inversion Hall as [|? ? _ Hall']. now inversion Hall'.
  - destruct (dropWhile p r) eqn:E; [done|]. now apply dropWhile_head in E.
Qed.

Lemma suffix_someb (a b : N) r prev (caps : captures) :
  isWordChar a = true -> isWordChar b = true ->
  someb (if prefixb false [a; b] r
         then rmatch WordBoundary (advance prev (take 2 r)) (drop 2 r) caps final
         else None)
  = bool_decide (takeWhile isWordChar r = [a; b]).
Proof.
  intros Ha Hb. destruct r as [|x [|y r]].
  - done.
  - cbn [prefixb]. rewrite andb_false_r. cbn [takeWhile someb].
    destruct (isWordChar x); now rewrite bool_decide_eq_false_2.
  - change (take 2 (x :: y :: r)) with [x; y].
    change (drop 2 (x :: y :: r)) with r. cbn [prefixb]. unfold litb.
    destruct (x =? a) eqn:Ex; cycle 1.
    { cbn [andb someb]. rewrite bool_decide_eq_false_2; [done|].
      cbn [takeWhile]. destruct (isWordChar x); [|done].
      intros [= -> _]. now rewrite N.eqb_refl in Ex. }
    destruct (y =? b) eqn:Ey; cycle 1.
    { cbn [andb someb]. rewrite bool_decide_eq_false_2; [done|].
      cbn [takeWhile]. destruct (isWordChar x); [|done].
      destruct (isWordChar y); [|done].
      intros [= _ -> _]. now rewrite N.eqb_refl in Ey. }
    apply N.eqb_eq in Ex, Ey. subst x y. cbn [andb].
    rewrite rmatch_boundary.
    replace (advance prev [a; b]) with (Some b) by done.
    cbn [isWordAt takeWhile]. rewrite Ha, Hb. rewrite xorb_true_l.
    destruct r as [|c r]; cbn [head isWordAt takeWhile negb].
    + now rewrite bool_decide_eq_true_2.
    + destruct (isWordChar c); cbn [negb someb final].
      * now rewrite bool_decide_eq_false_2.
      * now rewrite bool_decide_eq_true_2.
Qed.

Lemma dropWhile_digit_word s :
  dropWhile isDigit (takeWhile isWordChar s)
  = takeWhile isWordChar (dropWhile isDigit s).
Proof.
  induction s as [|c s IH]; [done|]. cbn [takeWhile dropWhile].
  destruct (isDigit c) eqn:Ed.
  - rewrite (digit_is_word c Ed). cbn [dropWhile]. now rewrite Ed.
  - destruct (isWordChar c) eqn:Ew; cbn [dropWhile takeWhile].
    + now rewrite Ed, Ew.
    + now rewrite Ew.
Qed.

(** The ordinal pattern matches at a position exactly when the unit before
    is no word character and the run of word characters there is a number
    followed by one of the four suffixes. *)
Lemma rmatch_ordinal_someb prev s :
  someb (rmatch re_ordinal prev s ∅ final) = ordAt (isWordAt prev) s.
Proof.
  unfold re_ordinal, ordAt. rewrite rmatch_seq, rmatch_boundary.
  destruct s as [|c s1].
  - cbn [head isWordAt takeWhile ordWord]. rewrite andb_false_r.
    destruct (xorb _ _); [|done].
    now rewrite rmatch_seq, rmatch_group, rmatch_plus_chr.
  - cbn [head isWordAt takeWhile]. destruct (isDigit c) eqn:Ec; cycle 1.
    { replace (ordWord _) with false
        by (destruct (isWordChar c); cbn [ordWord]; now rewrite ?Ec).
      rewrite andb_false_r. destruct (xorb _ _); [|done].
      rewrite rmatch_seq, rmatch_group, rmatch_plus_chr. now rewrite Ec. }
    rewrite (digit_is_word c Ec). cbn [ordWord]. rewrite Ec. cbn [andb].
    rewrite xorb_true_r. destruct (negb (isWordAt prev)); [|done]. cbn [andb].
    rewrite rmatch_seq, rmatch_group, rmatch_plus_chr, Ec.
    rewrite greedy_commit; cycle 1.
    { intros prev' d r Hd.
      rewrite rmatch_seq, rmatch_group, !rmatch_alt, !rmatch_word.
      change (js "st") with [115; 116]. change (js "nd") with [110; 100].
      change (js "rd") with [114; 100]. change (js "th") with [116; 104].
      now rewrite !(digit_no_suffix d r) by (done || lia). }
    rewrite rmatch_seq, rmatch_group, !rmatch_alt, !rmatch_word.
    rewrite dropWhile_digit_word.
    change (js "st") with [115; 116]. change (js "nd") with [110; 100].
    change (js "rd") with [114; 100]. change (js "th") with [116; 104].
    cbn [length]. rewrite !someb_or, !suffix_someb by done.
    unfold isSuffix2.
    change (js "st") with [115; 116]. change (js "nd") with [110; 100].
    change (js "rd") with [114; 100]. change (js "th") with [116; 104].
    now rewrite !orb_assoc.
Qed.

Lemma exec_ordinal_None prev s :
  exec_from re_ordinal prev s = None <-> noOrdb (isWordAt prev) s = true.
Proof.
  revert prev. induction s as [|c s IH]; intros prev;
    rewrite exec_from_eq; cbn [noOrdb]; rewrite <- rmatch_ordinal_someb.
  - destruct (rmatch re_ordinal prev [] ∅ final) as [[? ?]|]; cbn; split; done.
  - destruct (rmatch re_ordinal prev (c :: s) ∅ final) as [[? ?]|]; cbn [someb negb andb].
    + split; done.
    + rewrite <- (IH (Some c)). destruct (exec_from re_ordinal (Some c) s); split; done.
Qed.

Lemma exec_from_at r prev s m :
  exec_from r prev s = Some m ->
  exists t,
    s = before m ++ t
    /\ rmatch r (advance prev (before m)) t ∅ final = Some (after m, groups m)
    /\ matched m = take (length t - length (after m)) t.
Proof.
  revert prev m. induction s as [|c s IH]; intros prev m; rewrite exec_from_eq.
  - destruct (rmatch r prev [] ∅ final) as [[s' caps]|] eqn:E; [|done].
    intros [= <-]. now exists [].
  - destruct (rmatch r prev (c :: s) ∅ final) as [[s' caps]|] eqn:E.
    + intros [= <-]. now exists (c :: s).
    + destruct (exec_from r (Some c) s) as [m'|] eqn:E'; [|done].
      intros [= <-]. apply IH in E' as (t & -> & H1 & H2).
      exists t. cbn [shift before after groups matched].
      now rewrite advance_cons.
Qed.

(** What a match of the ordinal pattern looks like. *)
Lemma ordinal_match prev t s' (caps : captures) :
  rmatch re_ordinal prev t ∅ final = Some (s', caps) ->
  isWordAt prev = false
  /\ exists D a b,
       t = D ++ [a; b] ++ s' /\ isNumber D /\ caps !! 1%nat = Some D
       /\ isWordChar b = true /\ isWordAt (head s') = false.
Proof.
  intros H. pose proof (rmatch_ordinal_someb prev t) as Hb. rewrite H in Hb.
  cbn [someb] in Hb. symmetry in Hb. unfold ordAt in Hb.
  apply andb_true_iff in Hb as [Hprev Hword]. apply negb_true_iff in Hprev.
  split; [done|].
  apply rmatch_ordinal_inv in H as (c & s1 & -> & Hc & HD & -> & _).
  cbn [takeWhile] in Hword. rewrite (digit_is_word c Hc) in Hword.
  cbn [ordWord] in Hword. rewrite Hc, dropWhile_digit_word in Hword.
  cbn [andb] in Hword.
  assert (exists a b, takeWhile isWordChar (dropWhile isDigit s1) = [a; b])
    as (a & b & Hab).
  { unfold isSuffix2 in Hword.
    repeat (apply orb_true_iff in Hword as [Hword|Hword]);
      apply bool_decide_eq_true in Hword; rewrite Hword; eauto. }
  apply takeWhile_two in Hab as (Hr & Hbw & Hnext).
  pose proof (takeWhile_dropWhile isDigit s1) as Hs1.
  remember (dropWhile isDigit s1) as r eqn:Er. clear Er.
  set (q := dropWhile isWordChar r) in *. clearbody q. subst r.
  exists (c :: takeWhile isDigit s1), a, b.
  split; [|split; [|split; [done|split; [done|]]]].
  - rewrite <- Hs1 at 1. reflexivity.
  - split; [done|]. constructor; [done|apply takeWhile_Forall].
  - cbn [drop]. rewrite drop_0. now destruct q.
Qed.

(** ** White space does not matter to the ordinal pattern *)

Lemma ordAt_cons_ext bp c X Y :
  takeWhile isWordChar X = takeWhile isWordChar Y ->
  ordAt bp (c :: X) = ordAt bp (c :: Y).
Proof. unfold ordAt. cbn [takeWhile]. now intros ->. Qed.

Lemma ordAt_not_word bp c X : isWordChar c = false -> ordAt bp (c :: X) = false.
Proof. unfold ordAt. cbn [takeWhile]. intros ->. now rewrite andb_false_r. Qed.

Lemma takeWhile_word_squeeze s :
  takeWhile isWordChar (squeeze false s) = takeWhile isWordChar s.
Proof.
  induction s as [|c s IH]; [done|]. cbn [squeeze].
  destruct (isWhiteSpace c) eqn:E; cbn [takeWhile].
  - now rewrite (space_not_word c E).
  - now rewrite IH.
Qed.

Lemma noOrdb_squeeze s :
  forall b bp,
    (b = true -> bp = false) ->
    noOrdb bp s = true -> noOrdb bp (squeeze b s) = true.
Proof.
  induction s as [|c s IH]; intros b bp Hb; [done|].
  cbn [noOrdb squeeze]. intros [Hc Hs]%andb_true_iff.
  destruct (isWhiteSpace c) eqn:E.
  - rewrite (space_not_word c E) in Hs. destruct b.
    + rewrite (Hb eq_refl). now apply IH.
    + cbn [noOrdb]. rewrite ordAt_not_word by done.
      change (isWordChar 32) with false. cbn [negb andb]. now apply IH.
  - cbn [noOrdb].
    rewrite (ordAt_cons_ext bp c _ s (takeWhile_word_squeeze s)), Hc.
    cbn [andb]. now apply IH.
Qed.

Lemma noOrdb_trimStart s :
  noOrdb false s = true -> noOrdb false (trimStart s) = true.
Proof.
  induction s as [|c s IH]; [done|]. cbn [trimStart].
  destruct (isWhiteSpace c) eqn:E; [|done].
  cbn [noOrdb]. rewrite (space_not_word c E). intros [_ H]%andb_true_iff. auto.
Qed.

Lemma takeWhile_snoc_stop p (s : jsstring) c :
  p c = false -> takeWhile p (s ++ [c]) = takeWhile p s.
Proof.
  intros Hc. induction s as [|d s IH]; cbn [app takeWhile].
  - now rewrite Hc.
  - now rewrite IH.
Qed.

Lemma noOrdb_snoc_inv s :
  forall bp c,
    isWordChar c = false -> noOrdb bp (s ++ [c]) = true -> noOrdb bp s = true.
Proof.
  induction s as [|d s IH]; intros bp c Hc.
  - cbn. unfold ordAt. cbn. now rewrite Hc, !andb_false_r.
  - cbn [app noOrdb]. intros [Hd Hs]%andb_true_iff.
    rewrite (ordAt_cons_ext bp d s (s ++ [c])), Hd
      by (symmetry; now apply takeWhile_snoc_stop).
    cbn [andb]. now apply IH with c.
Qed.

Lemma trimEnd_snoc s c :
  trimEnd (s ++ [c]) = if isWhiteSpace c then trimEnd s else s ++ [c].
Proof.
  unfold trimEnd. rewrite reverse_snoc. cbn [trimStart].
  destruct (isWhiteSpace c); [done|].
  now rewrite reverse_cons, reverse_involutive.
Qed.

Lemma noOrdb_trimEnd bp s :
  noOrdb bp s = true -> noOrdb bp (trimEnd s) = true.
Proof.
  induction s as [|c s IH] using rev_ind; [done|].
  rewrite trimEnd_snoc. destruct (isWhiteSpace c) eqn:E; [|done].
  intros H. apply IH. apply noOrdb_snoc_inv in H; [done|].
  now apply space_not_word.
Qed.

(** ** Stripping leaves no ordinal *)

Lemma dropWhile_all p (s : jsstring) :
  Forall (fun c => p c = true) s -> dropWhile p s = [].
Proof. induction 1 as [|c s Hc _ IH]; cbn; [done|]. now rewrite Hc. Qed.

Lemma takeWhile_word_digits D out :
  Forall (fun c => isDigit c = true) D -> isWordAt (head out) = false ->
  takeWhile isWordChar (D ++ out) = D.
Proof.
  intros HD Hout. apply takeWhile_app_stop.
  - eapply Forall_impl; [exact HD|]. apply digit_is_word.
  - destruct out; [done|exact Hout].
Qed.

Lemma noOrdb_digits out D :
  isWordAt (head out) = false -> noOrdb true out = true ->
  Forall (fun c => isDigit c = true) D -> D <> [] ->
  forall bp, noOrdb bp (D ++ out) = true.
Proof.
  intros Hhead Hout HD. induction HD as [|d D Hd HD IH]; intros Hne bp; [done|].
  cbn [app noOrdb]. apply andb_true_iff. split.
  - apply negb_true_iff. unfold ordAt.
    change (d :: D ++ out) with ((d :: D) ++ out).
    rewrite takeWhile_word_digits by (done || now constructor).
    cbn [ordWord]. rewrite (dropWhile_all isDigit D HD).
    now rewrite !andb_false_r.
  - rewrite (digit_is_word d Hd). destruct D as [|d' D]; [exact Hout|].
    now apply IH.
Qed.

Lemma takeWhile_barrier (a : jsstring) :
  forall c Y,
    isWordAt (advance (Some c) a) = false ->
    takeWhile isWordChar ((c :: a) ++ Y) = takeWhile isWordChar (c :: a).
Proof.
  induction a as [|d a IH]; intros c Y H.
  - cbn in H. cbn [app takeWhile]. now rewrite H.
  - rewrite advance_cons in H. specialize (IH d Y H).
    cbn [app takeWhile] in *. now rewrite IH.
Qed.

(** One round of the global replacement: up to the number that replaces
    the first match, nothing matches. *)
Lemma strip_round out s :
  isWordAt (head out) = false -> noOrdb true out = true ->
  forall prev m,
    exec_from re_ordinal prev s = Some m ->
    noOrdb (isWordAt prev) (before m ++ group m 1 ++ out) = true.
Proof.
  intros Hhead Hout. induction s as [|c s IH]; intros prev m; rewrite exec_from_eq.
  - destruct (rmatch re_ordinal prev [] ∅ final) as [[s' caps]|] eqn:E; [|done].
    apply ordinal_match in E as (_ & D & a & b & E & _). now destruct D.
  - destruct (rmatch re_ordinal prev (c :: s) ∅ final) as [[s' caps]|] eqn:E.
    + intros [= <-]. cbn [before app]. unfold group. cbn [groups].
      apply ordinal_match in E as (_ & D & a & b & _ & [HD1 HD2] & -> & _).
      cbn [default from_option id]. now apply noOrdb_digits.
    + destruct (exec_from re_ordinal (Some c) s) as [m'|] eqn:E'; [|done].
      intros [= <-]. unfold group, shift. cbn [before groups app].
      fold (group m' 1). cbn [noOrdb].
      change (isWordChar c) with (isWordAt (Some c)).
      rewrite (IH (Some c) m' E'). rewrite andb_true_r.
      apply negb_true_iff.
      pose proof (rmatch_ordinal_someb prev (c :: s)) as Hat. rewrite E in Hat.
      cbn [someb] in Hat. rewrite Hat.
      apply exec_from_at in E' as (t & -> & Hm & _).
      apply ordinal_match in Hm as (Hb & _).
      unfold ordAt. do 2 f_equal.
      change (c :: before m' ++ group m' 1 ++ out)
        with ((c :: before m') ++ group m' 1 ++ out).
      change (c :: before m' ++ t) with ((c :: before m') ++ t).
      now rewrite !takeWhile_barrier.
Qed.

Lemma strip_head fuel prev s :
  isWordAt (head s) = false ->
  isWordAt (head (replace_from fuel re_ordinal [Ref 1] prev s)) = false.
Proof.
  intros Hs. destruct fuel as [|fuel]; [done|]. cbn [replace_from].
  destruct (exec_from re_ordinal prev s) as [m|] eqn:E; [|done].
  rewrite exec_from_eq in E.
  destruct (rmatch re_ordinal prev s ∅ final) as [[s' caps]|] eqn:Em.
  - apply ordinal_match in Em as (_ & D & a & b & -> & [HD1 HD2] & _).
    destruct D as [|d D]; [done|]. inversion HD2; subst.
    cbn in Hs. now rewrite digit_is_word in Hs.
  - destruct s as [|c s]; [done|].
    destruct (exec_from re_ordinal (Some c) s); [|done].
    injection E as <-. exact Hs.
Qed.

(** After the global replacement the ordinal pattern matches nowhere. *)
Lemma noOrdb_strip fuel :
  forall prev s,
    (length s < fuel)%nat ->
    noOrdb (isWordAt prev) (replace_from fuel re_ordinal [Ref 1] prev s) = true.
Proof.
  induction fuel as [|fuel IH]; intros prev s Hlen; [lia|].
  cbn [replace_from].
  destruct (exec_from re_ordinal prev s) as [m|] eqn:E;
    [|now apply exec_ordinal_None].
  unfold substitute. cbn [fmap list_fmap concat]. rewrite app_nil_r.
  pose proof E as E1. apply exec_from_at in E1 as (t & Hs & Hm & Hmatched).
  apply ordinal_match in Hm as (_ & D & a & b & Ht & [HD1 HD2] & HD & Hb & Hafter).
  assert (Hmd : matched m = D ++ [a; b]).
  { rewrite Hmatched, Ht, !app_assoc. apply take_length_diff. }
  assert (Hlast : last (matched m) = Some b).
  { rewrite Hmd. change [a; b] with ([a] ++ [b]). now rewrite app_assoc, last_snoc. }
  rewrite Hlast. destruct (matched m) as [|x mt] eqn:Emt.
  { destruct D; done. }
  apply (strip_round _ s); [now apply strip_head| |done].
  replace true with (isWordAt (Some b)) at 1 by exact Hb.
  apply (IH (Some b)).
  rewrite Hs, Ht, !length_app in Hlen. cbn [length] in Hlen. lia.
Qed.

(** ** The word "season" is not created *)

Lemma letter_plain c k :
  canonicalize c = k -> 65 <= k <= 90 ->
  isWhiteSpace c = false /\ isDigit c = false.
Proof.
  unfold canonicalize. intros Hc Hk.
  assert (65 <= c <= 122).
  { destruct ((97 <=? c) && (c <=? 122)) eqn:E; unbool; lia. }
  split.
  - unfold isWhiteSpace.
    repeat (apply orb_false_intro);
      try (apply andb_false_iff; left; apply N.leb_gt; lia);
      apply N.eqb_neq; lia.
  - unfold isDigit. apply andb_false_iff. right. apply N.leb_gt. lia.
Qed.

Lemma letters_plain (w mid : jsstring) :
  canonicalize <$> mid = canonicalize <$> w ->
  Forall (fun k => 65 <= canonicalize k <= 90) w ->
  Forall (fun c => isWhiteSpace c = false /\ isDigit c = false) mid.
Proof.
  revert w. induction mid as [|c mid IH]; intros [|k w] E Hw; try done.
  cbn in E. injection E as Hc E. inversion Hw; subst.
  constructor; [now apply letter_plain with (canonicalize k)|now apply IH with w].
Qed.

Lemma season_plain mid :
  canonicalize <$> mid = canonicalize <$> js "season" ->
  mid <> [] /\ Forall (fun c => isWhiteSpace c = false /\ isDigit c = false) mid.
Proof.
  intros E. split; [now destruct mid|].
  apply letters_plain with (js "season"); [done|]. decide_closed.
Qed.

Lemma squeeze_prefix mid :
  forall s post,
    Forall (fun c => isWhiteSpace c = false) mid ->
    squeeze false s = mid ++ post -> exists post', s = mid ++ post'.
Proof.
  induction mid as [|m mid IH]; intros s post Hmid E; [now exists s|].
  inversion Hmid as [|? ? Hm Hmid']; subst.
  destruct s as [|c s]; [done|]. cbn [squeeze] in E.
  destruct (isWhiteSpace c) eqn:Ec.
  - injection E as <- _. done.
  - injection E as -> E. apply IH in E as [post' ->]; [|done]. now exists post'.
Qed.

Lemma squeeze_factor s :
  forall b pre mid post,
    Forall (fun c => isWhiteSpace c = false) mid ->
    squeeze b s = pre ++ mid ++ post ->
    exists pre' post', s = pre' ++ mid ++ post'.
Proof.
  induction s as [|c s IH]; intros b pre mid post Hmid E.
  - cbn in E. destruct pre; [|done]. destruct mid; [|done]. now exists [], [].
  - cbn [squeeze] in E. destruct (isWhiteSpace c) eqn:Ec.
    + destruct b.
      * apply IH in E as (pre' & post' & ->); [|done].
        now exists (c :: pre'), post'.
      * destruct pre as [|p pre].
        -- destruct mid as [|m mid]; [now exists [], (c :: s)|].
           injection E as <- _. inversion Hmid; subst. done.
        -- injection E as _ E. apply IH in E as (pre' & post' & ->); [|done].
           now exists (c :: pre'), post'.
    + destruct pre as [|p pre].
      * destruct mid as [|m mid]; [now exists [], (c :: s)|].
        injection E as -> E. inversion Hmid; subst.
        apply squeeze_prefix in E as [post' ->]; [|done].
        now exists [], post'.
      * injection E as _ E. apply IH in E as (pre' & post' & ->); [|done].
        now exists (c :: pre'), post'.
Qed.

Lemma factor_prefix (mid : jsstring) :
  forall A d D B post,
    Forall (fun c => isDigit c = false) mid -> isDigit d = true ->
    mid ++ post = A ++ (d :: D) ++ B -> exists q, A = mid ++ q.
Proof.
  induction mid as [|m mid IH]; intros A d D B post Hmid Hd E; [now exists A|].
  inversion Hmid; subst. destruct A as [|a A].
  - injection E as -> _. congruence.
  - injection E as -> E. apply IH in E as [q ->]; [|done|done]. now exists q.
Qed.

(** A piece without digits of a text in which a number stands lies before
    the number or after it. *)
Lemma factor_beside (A D B : jsstring) :
  forall pre mid post,
    Forall (fun c => isDigit c = false) mid -> mid <> [] ->
    Forall (fun c => isDigit c = true) D -> D <> [] ->
    pre ++ mid ++ post = A ++ D ++ B ->
    (exists p q, A = p ++ mid ++ q) \/ (exists p q, B = p ++ mid ++ q).
Proof.
  intros pre mid post Hmid Hne HD HDne. revert pre.
  induction A as [|a A IH]; intros pre E.
  - right. clear HDne. revert pre E. induction HD as [|d D Hd HD IHD]; intros pre E.
    + now exists pre, post.
    + destruct pre as [|p pre].
      * destruct mid as [|m mid]; [done|]. injection E as -> _.
        inversion Hmid; subst. congruence.
      * injection E as _ E. now apply IHD with pre.
  - destruct pre as [|p pre].
    + left. destruct D as [|d D]; [done|]. inversion HD; subst.
      apply (factor_prefix mid (a :: A) d D B post) in E as [q E]; [|done|done].
      rewrite E. now exists [], q.
    + injection E as _ E. apply IH in E as [(p' & q & ->)|(p' & q & ->)].
      * left. now exists (a :: p'), q.
      * right. now exists p', q.
Qed.

Lemma contains_mid n (A B C : jsstring) :
  containsIgnoreCase n B -> containsIgnoreCase n (A ++ B ++ C).
Proof.
  intros (pre & mid & post & -> & E).
  exists (A ++ pre), mid, (post ++ C). split; [|done].
  now rewrite <- !app_assoc.
Qed.

Lemma contains_left n (A B : jsstring) :
  containsIgnoreCase n A -> containsIgnoreCase n (A ++ B).
Proof. intros H. now apply (contains_mid n [] A B). Qed.

Lemma contains_right n (A B : jsstring) :
  containsIgnoreCase n B -> containsIgnoreCase n (A ++ B).
Proof.
  intros H. rewrite <- (app_nil_r B). now apply contains_mid.
Qed.

Lemma prefixb_contains w s :
  prefixb true w s = true -> containsIgnoreCase w s.
Proof.
  intros H. exists [], (take (length w) s), (drop (length w) s).
  cbn [app]. rewrite take_drop. split; [done|].
  revert s H. induction w as [|c w IH]; intros [|x s] H; try done.
  cbn [prefixb] in H. apply andb_true_iff in H as [Hc H].
  unfold litb in Hc. apply N.eqb_eq in Hc.
  cbn. rewrite Hc. f_equal. now apply IH.
Qed.

Lemma contains_Season s :
  containsIgnoreCase (js "Season") s -> containsIgnoreCase (js "season") s.
Proof. intros (pre & mid & post & -> & E). now exists pre, mid, post. Qed.

(** The season patterns match only where the word stands. *)
Lemma num_season_contains s :
  exec re_num_season s <> None -> containsIgnoreCase (js "season") s.
Proof.
  destruct (exec re_num_season s) as [m|] eqn:E; [intros _|done].
  apply exec_from_inv in E as (prev' & t & -> & Hm & _).
  apply contains_right. rewrite rmatch_num_season in Hm.
  destruct t as [|c s1]; [done|]. destruct (isDigit c); [|done].
  cbv zeta in Hm.
  destruct (prefixb true (js "Season") (dropWhile isWhiteSpace (dropWhile isDigit s1)))
    eqn:Ep; [|done].
  apply prefixb_contains, contains_Season in Ep.
  apply (contains_right _ [c]).
  rewrite <- (takeWhile_dropWhile isDigit s1). apply contains_right.
  rewrite <- (takeWhile_dropWhile isWhiteSpace (dropWhile isDigit s1)).
  now apply contains_right.
Qed.

Lemma season_num_contains s :
  exec re_season_num s <> None -> containsIgnoreCase (js "season") s.
Proof.
  destruct (exec re_season_num s) as [m|] eqn:E; [intros _|done].
  apply exec_from_inv in E as (prev' & t & -> & Hm & _).
  apply contains_right. rewrite rmatch_season_num in Hm.
  destruct (prefixb true (js "Season") t) eqn:Ep; [|done].
  now apply contains_Season, prefixb_contains.
Qed.

Lemma season_squeeze b s :
  containsIgnoreCase (js "season") (squeeze b s) ->
  containsIgnoreCase (js "season") s.
Proof.
  intros (pre & mid & post & E & Hmid).
  apply squeeze_factor in E as (pre' & post' & ->).
  - now exists pre', mid, post'.
  - apply season_plain in Hmid as [_ H].
    eapply Forall_impl; [exact H|]. now intros c [? _].
Qed.

Lemma season_trim s :
  containsIgnoreCase (js "season") (trim s) ->
  containsIgnoreCase (js "season") s.
Proof.
  unfold trim. intros H.
  destruct (trimStart_factor s) as [l Hl].
  destruct (trimEnd_factor (trimStart s)) as [r Hr].
  rewrite Hl, Hr. now apply contains_mid.
Qed.

Lemma season_strip fuel :
  forall prev s,
    containsIgnoreCase (js "season") (replace_from fuel re_ordinal [Ref 1] prev s) ->
    containsIgnoreCase (js "season") s.
Proof.
  induction fuel as [|fuel IH]; intros prev s; [done|].
  cbn [replace_from].
  destruct (exec_from re_ordinal prev s) as [m|] eqn:E; [|done].
  unfold substitute. cbn [fmap list_fmap concat]. rewrite app_nil_r.
  pose proof E as E1. apply exec_from_at in E1 as (t & Hs & Hm & Hmatched).
  apply ordinal_match in Hm as (_ & D & a & b & Ht & [HD1 HD2] & HD & Hb & Hafter).
  assert (Hmd : matched m = D ++ [a; b]).
  { rewrite Hmatched, Ht, !app_assoc. apply take_length_diff. }
  assert (Hg : group m 1 = D) by (unfold group; now rewrite HD).
  rewrite Hg. destruct (matched m) as [|x mt] eqn:Emt.
  { destruct D; done. }
  rewrite <- Emt. clear Emt. intros (pre & mid & post & Hout & Hmid).
  pose proof (season_plain _ Hmid) as [Hne Hplain].
  assert (Hnd : Forall (fun c => isDigit c = false) mid).
  { eapply Forall_impl; [exact Hplain|]. now intros c [_ ?]. }
  symmetry in Hout.
  apply factor_beside in Hout as [(p & q & Hp)|(p & q & Hp)]; [| |done..].
  - rewrite Hs, Hp. apply contains_left. now exists p, mid, q.
  - rewrite Hs, Ht. apply contains_right, contains_right, contains_right.
    apply (IH (last (matched m))). now exists p, mid, q.
Qed.

(** ** Queries that do not name a season *)

Lemma normalizeQuery_seasonless x :
  ~ containsIgnoreCase (js "season") x ->
  normalizeQuery x = trim (squeeze false (replaceAll re_ordinal [Ref 1] x)).
Proof.
  intros Hx. unfold normalizeQuery. rewrite replaceAll_spaces.
  assert (Hb : ~ containsIgnoreCase (js "season")
                 (squeeze false (replaceAll re_ordinal [Ref 1] x))).
  { intros H. now apply season_squeeze, season_strip in H. }
  rewrite (replace_no_match re_num_season).
  - rewrite (replace_no_match re_season_num); [done|].
    destruct (exec re_season_num _) eqn:E; [|done].
    exfalso. apply Hb, season_num_contains. now rewrite E.
  - destruct (exec re_num_season _) eqn:E; [|done].
    exfalso. apply Hb, num_season_contains. now rewrite E.
Qed.

Lemma seasonless_idempotent x :
  ~ containsIgnoreCase (js "season") x ->
  normalizeQuery (normalizeQuery x) = normalizeQuery x.
Proof.
  intros Hx. destruct (normalizeQuery_normal x) as [Hn Ht].
  assert (Hy : ~ containsIgnoreCase (js "season") (normalizeQuery x)).
  { rewrite (normalizeQuery_seasonless x Hx). intros H.
    now apply season_trim, season_squeeze, season_strip in H. }
  apply normalizeQuery_settled; [done|done| | |].
  - rewrite (normalizeQuery_seasonless x Hx). unfold exec.
    apply (exec_ordinal_None None). unfold trim.
    apply noOrdb_trimEnd, noOrdb_trimStart, noOrdb_squeeze; [done|].
    apply (noOrdb_strip (S (length x)) None). lia.
  - destruct (exec re_num_season _) eqn:E; [|done].
    exfalso. apply Hy, num_season_contains. now rewrite E.
  - destruct (exec re_season_num _) eqn:E; [|done].
    exfalso. apply Hy, season_num_contains. now rewrite E.
Qed.

(** What [/season/i.test(s)] computes. *)
Lemma contains_test w s :
  test (word true w) s = true <-> containsIgnoreCase w s.
Proof.
  unfold test, exec, containsIgnoreCase.
  rewrite bool_decide_eq_true, exec_word_Some. split.
  - intros (pre & post & -> & (mid & post' & -> & H)%prefixb_true_iff).
    now exists pre, mid, post'.
  - intros (pre & mid & post & -> & H). exists pre, (mid ++ post).
    split; [done|]. apply prefixb_true_iff. now exists mid, post.
Qed.

(** C5, as amended: a second pass changes nothing exactly when the first
    result has no number with an ordinal suffix, no number followed by
    "Season" and no "Season" followed by a number left in it; this is so for
    every query that does not contain the word "season" (in any letter
    case), and for "3rd Season", "Season 3" and "  My   Show ". *)
Theorem normalizeQuery_idempotent_iff :
  (forall x,
      normalizeQuery (normalizeQuery x) = normalizeQuery x
      <-> exec re_ordinal (normalizeQuery x) = None
          /\ exec re_num_season (normalizeQuery x) = None
          /\ exec re_season_num (normalizeQuery x) = None)
  /\ (forall x,
        ~ containsIgnoreCase (js "season") x ->
        normalizeQuery (normalizeQuery x) = normalizeQuery x)
  /\ normalizeQuery (normalizeQuery (js "3rd Season")) = normalizeQuery (js "3rd Season")
  /\ normalizeQuery (normalizeQuery (js "Season 3")) = normalizeQuery (js "Season 3")
  /\ normalizeQuery (normalizeQuery (js "  My   Show "))
     = normalizeQuery (js "  My   Show ").
Proof.
  split; [|split; [exact seasonless_idempotent|repeat split; vm_compute; reflexivity]].
  intros x. destruct (normalizeQuery_normal x) as [Hn Ht]. split.
  - now apply normalizeQuery_fixed.
  - intros (H1 & H3 & H4). now apply normalizeQuery_settled.
Qed.

Lemma normalizeQuery_idempotent_iff_witness :
  ~ containsIgnoreCase (js "season") (js " the 21st  sea son of 2nd")
  /\ normalizeQuery (js " the 21st  sea son of 2nd") = js "the 21 sea son of 2"
  /\ normalizeQuery (normalizeQuery (js " the 21st  sea son of 2nd"))
     = normalizeQuery (js " the 21st  sea son of 2nd").
Proof.
  assert (H : ~ containsIgnoreCase (js "season") (js " the 21st  sea son of 2nd")).
  { intros H%contains_test. vm_compute in H. discriminate. }
  split; [exact H|]. split; [vm_compute; reflexivity|].
  exact (proj1 (proj2 normalizeQuery_idempotent_iff) _ H).
Defined.

(** C5 as stated fails: a second pass rewrites "Season 3", the result for
    "Season Season 3", to "3". *)
Lemma normalizeQuery_not_idempotent :
  normalizeQuery (js "Season Season 3") = js "Season 3"
  /\ normalizeQuery (normalizeQuery (js "Season Season 3")) = js "3"
  /\ ~ (forall x, normalizeQuery (normalizeQuery x) = normalizeQuery x).
Proof.
  split; [vm_compute; reflexivity|]. split; [vm_compute; reflexivity|].
  intros H. specialize (H (js "Season Season 3")). vm_compute in H. discriminate.
Qed.

(** * Further properties of the provider *)

(** ** Failing and unending searches *)

Lemma fmap_seq_S {A} (f : nat -> A) n :
  f <$> seq 0 (S n) = f 0%nat :: ((fun i => f (S i)) <$> seq 0 n).
Proof.
  cbn [seq fmap list_fmap]. f_equal.
  now rewrite <- fmap_S_seq, <- list_fmap_compose.
Qed.

Section SearchRuns.

Variable upstream : jsstring -> Response.
Variables (keyword enc : jsstring).
Hypothesis Henc : encodeURIComponent keyword = Some enc.

(** One round of the loop on a page that arrives. *)
Lemma search_while_round fuel allResults page log p :
  ok (upstream (searchUrl enc page)) = true ->
  json (upstream (searchUrl enc page)) = Some (JSearchPage p) ->
  search_while upstream (S fuel) keyword allResults page true log
  = search_while upstream fuel keyword
      (allResults ++ (toSearchResult <$> results p)) (page + 1) (hasNextPage p)
      (log ++ [searchUrl enc page]).
Proof.
  intros Hok Hjson. cbn [search_while].
  unfold bind at 1. unfold lift. rewrite Henc. cbn [ret].
  unfold bind at 1. unfold fetch at 1. cbn zeta. rewrite Hok. cbn [negb].
  unfold bind at 1. unfold asSearchPage. rewrite Hjson. reflexivity.
Qed.

(** One round of the loop on a page that fails. *)
Lemma search_while_down fuel allResults page log :
  ok (upstream (searchUrl enc page)) = false ->
  search_while upstream (S fuel) keyword allResults page true log
  = (Throw (Error (searchFailed page (upstream (searchUrl enc page)))),
     log ++ [searchUrl enc page]).
Proof.
  intros Hok. cbn [search_while].
  unfold bind at 1. unfold lift. rewrite Henc. cbn [ret].
  unfold bind at 1. unfold fetch at 1. cbn zeta. rewrite Hok. reflexivity.
Qed.

Lemma search_while_fails (pages : list SearchPage) :
  forall fuel allResults (page : nat) log,
    (forall i p,
        pages !! i = Some p ->
        ok (upstream (searchUrl enc (N.of_nat (page + i)))) = true
        /\ json (upstream (searchUrl enc (N.of_nat (page + i)))) = Some (JSearchPage p)
        /\ hasNextPage p = true) ->
    ok (upstream (searchUrl enc (N.of_nat (page + length pages)))) = false ->
    (length pages < fuel)%nat ->
    search_while upstream fuel keyword allResults (N.of_nat page) true log
    = (Throw (Error (searchFailed (N.of_nat (page + length pages))
                       (upstream (searchUrl enc (N.of_nat (page + length pages)))))),
       log ++ ((fun i => searchUrl enc (N.of_nat (page + i)))
                 <$> seq 0 (S (length pages)))).
Proof.
  induction pages as [|p rest IH]; intros fuel allResults page log Hserve Hdown Hfuel;
    (destruct fuel as [|fuel]; [cbn in Hfuel; lia|]).
  - cbn [length] in *. rewrite Nat.add_0_r in *.
    rewrite search_while_down by done. cbn. now rewrite Nat.add_0_r.
  - destruct (Hserve 0%nat p eq_refl) as (Hok & Hjson & Hnext).
    rewrite Nat.add_0_r in Hok, Hjson.
    rewrite (search_while_round _ _ _ _ p) by done. rewrite Hnext.
    replace (N.of_nat page + 1) with (N.of_nat (S page)) by lia.
    cbn [length] in *.
    rewrite IH; [| |now replace (S page + length rest)%nat
                          with (page + S (length rest))%nat by lia|lia].
    + replace (S page + length rest)%nat with (page + S (length rest))%nat by lia.
      f_equal. rewrite <- app_assoc. f_equal.
      rewrite (fmap_seq_S _ (S (length rest))). cbn [app].
      rewrite Nat.add_0_r. f_equal.
      apply list_fmap_ext. intros _ i _. do 2 f_equal. lia.
    + intros i q Hq. specialize (Hserve (S i) q Hq).
      now replace (S page + i)%nat with (page + S i)%nat by lia.
Qed.

Lemma search_while_endless fuel :
  forall allResults (page : nat) log,
    (forall n, exists p,
        ok (upstream (searchUrl enc n)) = true
        /\ json (upstream (searchUrl enc n)) = Some (JSearchPage p)
        /\ hasNextPage p = true) ->
    search_while upstream fuel keyword allResults (N.of_nat page) true log
    = (OutOfFuel,
       log ++ ((fun i => searchUrl enc (N.of_nat (page + i))) <$> seq 0 fuel)).
Proof.
  induction fuel as [|fuel IH]; intros allResults page log Hserve.
  - cbn. now rewrite app_nil_r.
  - destruct (Hserve (N.of_nat page)) as (p & Hok & Hjson & Hnext).
    rewrite (search_while_round _ _ _ _ p) by done. rewrite Hnext.
    replace (N.of_nat page + 1) with (N.of_nat (S page)) by lia.
    rewrite IH by done. f_equal. rewrite <- app_assoc. f_equal.
    rewrite (fmap_seq_S _ fuel). cbn [app]. rewrite Nat.add_0_r. f_equal.
    apply list_fmap_ext. intros _ i _. do 2 f_equal. lia.
Qed.

End SearchRuns.

(** X1: when the pages before page number k arrive, each announcing a next
    page, and the request for page k is answered with a status that is not
    ok, the search throws the error "Search failed (page k): status
    statusText" after exactly k requests; the results of the pages before
    are not returned. *)
Theorem search_page_failure
    (upstream : jsstring -> Response) (q : SearchOptions) (enc : jsstring)
    (pages : list SearchPage) (fuel : nat) (log : list jsstring) :
  encodeURIComponent (normalizeQuery (query q)) = Some enc ->
  (forall i p,
      pages !! i = Some p ->
      ok (upstream (searchUrl enc (N.of_nat (S i)))) = true
      /\ json (upstream (searchUrl enc (N.of_nat (S i)))) = Some (JSearchPage p)
      /\ hasNextPage p = true) ->
  ok (upstream (searchUrl enc (N.of_nat (S (length pages))))) = false ->
  (length pages < fuel)%nat ->
  search upstream fuel q log
  = (Throw (Error (searchFailed (N.of_nat (S (length pages)))
                     (upstream (searchUrl enc (N.of_nat (S (length pages))))))),
     log ++ pageUrls enc (S (length pages))).
Proof.
  intros Henc Hserve Hdown Hfuel. unfold search.
  change 1 with (N.of_nat 1).
  now rewrite (search_while_fails upstream _ enc Henc pages).
Qed.

Lemma search_page_failure_witness :
  search twoThenDown 3 {| query := js "  My   Show " |} []
  = (Throw (Error (js "Search failed (page 3): 404 Not Found")),
     [ searchUrl (js "My%20Show") 1; searchUrl (js "My%20Show") 2;
       searchUrl (js "My%20Show") 3 ]).
Proof.
  apply (search_page_failure twoThenDown {| query := js "  My   Show " |}
           (js "My%20Show") [page1; page2] 3%nat []).
  - reflexivity.
  - intros [|[|i]] p Hp; try discriminate; injection Hp as <-;
      repeat split; reflexivity.
  - reflexivity.
  - cbn. lia.
Defined.

(** X2: the loop has no bound of its own: against an upstream whose every
    page announces a next page the search does not return, and after n tests
    of the loop condition it has requested the pages 1 to n. *)
Theorem search_unbounded
    (upstream : jsstring -> Response) (q : SearchOptions) (enc : jsstring)
    (fuel : nat) (log : list jsstring) :
  encodeURIComponent (normalizeQuery (query q)) = Some enc ->
  (forall n, exists p,
      ok (upstream (searchUrl enc n)) = true
      /\ json (upstream (searchUrl enc n)) = Some (JSearchPage p)
      /\ hasNextPage p = true) ->
  search upstream fuel q log = (OutOfFuel, log ++ pageUrls enc fuel).
Proof.
  intros Henc Hserve. unfold search. change 1 with (N.of_nat 1).
  now rewrite (search_while_endless upstream _ enc Henc).
Qed.

Lemma search_unbounded_witness :
  search endless 5 {| query := js "My Show" |} []
  = (OutOfFuel, [] ++ pageUrls (js "My%20Show") 5).
Proof.
  apply (search_unbounded endless {| query := js "My Show" |} (js "My%20Show") 5 []).
  - reflexivity.
  - intros n. exists page1. repeat split; reflexivity.
Defined.

(** ** Encoding a URI component *)

(** Induction along the recursion of [encodeURIComponent]: one unit or a
    pair at a time. *)
Lemma pair_ind (P : jsstring -> Prop) :
  P [] ->
  (forall c s, P s -> (forall d s', s = d :: s' -> P s') -> P (c :: s)) ->
  forall s, P s.
Proof.
  intros Hnil Hcons s.
  enough (H : P s /\ forall d s', s = d :: s' -> P s') by apply H.
  induction s as [|c s [IH1 IH2]]; [split; [done|discriminate]|].
  split; [now apply Hcons|]. now intros d s' [= _ <-].
Qed.

Lemma unreserved_range c : uriUnreserved c = true -> c < 128.
Proof. unfold uriUnreserved, isDigit. intros H. unbool; lia. Qed.

Lemma unreserved_not_high c : uriUnreserved c = true -> isHighSurrogate c = false.
Proof.
  intros H%unreserved_range. unfold isHighSurrogate.
  apply andb_false_iff. left. apply N.leb_gt. lia.
Qed.

Lemma unreserved_not_low c : uriUnreserved c = true -> isLowSurrogate c = false.
Proof.
  intros H%unreserved_range. unfold isLowSurrogate.
  apply andb_false_iff. left. apply N.leb_gt. lia.
Qed.

Lemma high_not_low c : isHighSurrogate c = true -> isLowSurrogate c = false.
Proof.
  unfold isHighSurrogate, isLowSurrogate. intros H.
  apply andb_false_iff. left. unbool. lia.
Qed.

(** The steps of [encodeURIComponent], by the kind of the first unit. *)
Lemma encode_unreserved c s :
  uriUnreserved c = true ->
  encodeURIComponent (c :: s) = (c ::.) <$> encodeURIComponent s.
Proof. intros H. cbn [encodeURIComponent]. now rewrite H. Qed.

Lemma encode_low c s :
  isLowSurrogate c = true -> encodeURIComponent (c :: s) = None.
Proof.
  intros H. cbn [encodeURIComponent].
  destruct (uriUnreserved c) eqn:E.
  - apply unreserved_not_low in E. congruence.
  - unfold isLowSurrogate in H. now rewrite H.
Qed.

Lemma encode_high c s :
  isHighSurrogate c = true ->
  encodeURIComponent (c :: s)
  = match s with
    | d :: s' =>
        if isLowSurrogate d then
          (percent (utf8 ((c - 0xD800) * 0x400 + (d - 0xDC00) + 0x10000)) ++.)
            <$> encodeURIComponent s'
        else None
    | [] => None
    end.
Proof.
  intros H. cbn [encodeURIComponent].
  destruct (uriUnreserved c) eqn:E.
  - apply unreserved_not_high in E. congruence.
  - pose proof (high_not_low c H) as Hl. unfold isLowSurrogate in Hl.
    rewrite Hl. unfold isHighSurrogate in H. now rewrite H.
Qed.

Lemma encode_other c s :
  uriUnreserved c = false -> isHighSurrogate c = false -> isLowSurrogate c = false ->
  encodeURIComponent (c :: s) = (percent (utf8 c) ++.) <$> encodeURIComponent s.
Proof.
  intros H1 H2 H3. cbn [encodeURIComponent]. rewrite H1.
  unfold isHighSurrogate in H2. unfold isLowSurrogate in H3. now rewrite H3, H2.
Qed.

Lemma lone_cons c s :
  isHighSurrogate c = false -> loneSurrogate s -> loneSurrogate (c :: s).
Proof.
  intros Hc (pre & x & post & -> & H). exists (c :: pre), x, post.
  split; [done|]. destruct H as [H|[Hx H]]; [now left|]. right.
  split; [done|]. intros h. destruct pre as [|p pre]; [|exact (H h)].
  cbn. now intros [= <-].
Qed.

Lemma lone_pair c d s :
  isLowSurrogate d = true -> loneSurrogate s -> loneSurrogate (c :: d :: s).
Proof.
  intros Hd (pre & x & post & -> & H). exists (c :: d :: pre), x, post.
  split; [done|]. destruct H as [H|[Hx H]]; [now left|]. right.
  split; [done|]. intros h. destruct pre as [|p pre]; [|exact (H h)].
  cbn. intros [= <-]. destruct (isHighSurrogate d) eqn:E; [|done].
  apply high_not_low in E. congruence.
Qed.

Lemma lone_tail c s :
  loneSurrogate (c :: s) ->
  (isLowSurrogate c = true)
  \/ (isHighSurrogate c = true /\ forall d, head s = Some d -> isLowSurrogate d = false)
  \/ loneSurrogate s.
Proof.
  intros (pre & x & post & E & H). destruct pre as [|p pre].
  - injection E as <- <-. destruct H as [H|[H _]]; [right; now left|now left].
  - injection E as <- ->. right. right. exists pre, x, post.
    split; [done|]. destruct H as [H|[Hx H]]; [now left|]. right.
    split; [done|]. intros h Hh. apply H. destruct pre; [done|exact Hh].
Qed.

Lemma lone_tail_pair c d s :
  isHighSurrogate c = true -> isLowSurrogate d = true ->
  loneSurrogate (c :: d :: s) -> loneSurrogate s.
Proof.
  intros Hc Hd (pre & x & post & E & H). destruct pre as [|p pre].
  { injection E as <- <-. destruct H as [[_ H]|[H _]].
    - specialize (H d eq_refl). congruence.
    - apply high_not_low in Hc. congruence. }
  injection E as <- E. destruct pre as [|p' pre].
  { injection E as <- <-. destruct H as [[H _]|[_ H]].
    - apply high_not_low in H. congruence.
    - specialize (H c eq_refl). congruence. }
  injection E as <- ->. exists pre, x, post.
  split; [done|]. destruct H as [H|[Hx H]]; [now left|]. right.
  split; [done|]. intros h Hh. apply H. destruct pre; [done|exact Hh].
Qed.

Lemma encode_None_lone s : encodeURIComponent s = None <-> loneSurrogate s.
Proof.
  induction s as [|c s IH IH'] using pair_ind.
  { split; [done|]. intros (pre & x & post & E & _). now destruct pre. }
  destruct (uriUnreserved c) eqn:Eu.
  { rewrite encode_unreserved by done. rewrite fmap_None, IH. split.
    - apply lone_cons. now apply unreserved_not_high.
    - intros [H|[[H _]|H]]%lone_tail; [|
        |done].
      + apply unreserved_not_low in Eu. congruence.
      + apply unreserved_not_high in Eu. congruence. }
  destruct (isLowSurrogate c) eqn:El.
  { rewrite encode_low by done. split; [intros _|done].
    exists [], c, s. split; [done|]. right. split; [done|]. done. }
  destruct (isHighSurrogate c) eqn:Eh.
  { rewrite encode_high by done. destruct s as [|d s].
    - split; [intros _|done]. exists [], c, []. split; [done|]. left.
      split; [done|]. done.
    - destruct (isLowSurrogate d) eqn:Ed.
      + rewrite fmap_None, (IH' d s eq_refl). split.
        * now apply lone_pair.
        * now apply lone_tail_pair.
      + split; [intros _|done]. exists [], c, (d :: s). split; [done|].
        left. split; [done|]. now intros ? [= <-]. }
  rewrite encode_other by done. rewrite fmap_None, IH. split.
  - now apply lone_cons.
  - intros [H|[[H _]|H]]%lone_tail; [congruence|congruence|done].
Qed.

Lemma hexDigit_unreserved d : d < 16 -> uriUnreserved (hexDigit d) = true.
Proof.
  intros H. unfold hexDigit, uriUnreserved, isDigit.
  destruct (d <? 10) eqn:E; unbool.
  - replace ((48 <=? 48 + d) && (48 + d <=? 57)) with true.
    + now rewrite orb_true_r.
    + symmetry. apply andb_true_iff. split; apply N.leb_le; lia.
  - replace ((65 <=? 55 + d) && (55 + d <=? 90)) with true; [done|].
    symmetry. apply andb_true_iff. split; apply N.leb_le; lia.
Qed.

Lemma utf8_bytes v : v < 0x110000 -> Forall (fun b => b < 256) (utf8 v).
Proof.
  intros Hv. unfold utf8.
  assert (Hm : forall x, x mod 64 < 64) by (intros x; now apply N.mod_lt).
  destruct (v <? 128) eqn:E1; unbool; [repeat constructor; lia|].
  destruct (v <? 2048) eqn:E2; unbool.
  { assert (v / 64 < 32) by (apply N.Div0.div_lt_upper_bound; lia).
    pose proof (Hm v). repeat constructor; lia. }
  destruct (v <? 65536) eqn:E3; unbool.
  { assert (v / 4096 < 16) by (apply N.Div0.div_lt_upper_bound; lia).
    pose proof (Hm v). pose proof (Hm (v / 64)). repeat constructor; lia. }
  assert (v / 262144 < 8) by (apply N.Div0.div_lt_upper_bound; lia).
  pose proof (Hm v). pose proof (Hm (v / 64)). pose proof (Hm (v / 4096)).
  repeat constructor; lia.
Qed.

Lemma utf8_nonempty v : utf8 v <> [].
Proof.
  unfold utf8. destruct (v <? 128); [done|]. destruct (v <? 2048); [done|].
  now destruct (v <? 65536).
Qed.

Lemma percent_length bytes : length (percent bytes) = (3 * length bytes)%nat.
Proof.
  unfold percent. induction bytes as [|b bytes IH]; [done|].
  cbn [fmap list_fmap concat length app]. rewrite IH. lia.
Qed.

Lemma percent_safe bytes :
  Forall (fun b => b < 256) bytes -> Forall (fun c => uriSafe c = true) (percent bytes).
Proof.
  unfold percent. induction 1 as [|b bytes Hb _ IH]; [constructor|].
  cbn [fmap list_fmap concat app].
  assert (b / 16 < 16) by (apply N.Div0.div_lt_upper_bound; lia).
  assert (b mod 16 < 16) by now apply N.mod_lt.
  constructor; [done|]. unfold uriSafe.
  constructor; [now rewrite hexDigit_unreserved|].
  constructor; [now rewrite hexDigit_unreserved|]. exact IH.
Qed.

Lemma pair_code_point c d :
  isHighSurrogate c = true -> isLowSurrogate d = true ->
  (c - 0xD800) * 0x400 + (d - 0xDC00) + 0x10000 < 0x110000.
Proof. unfold isHighSurrogate, isLowSurrogate. intros Hc Hd. unbool. lia. Qed.

Lemma encode_safe s :
  forall e,
    isCodeUnits s -> encodeURIComponent s = Some e ->
    Forall (fun c => uriSafe c = true) e.
Proof.
  induction s as [|c s IH IH'] using pair_ind; intros e Hs He.
  { injection He as <-. constructor. }
  inversion Hs as [|? ? Hc Hs']; subst.
  destruct (uriUnreserved c) eqn:Eu.
  { rewrite encode_unreserved in He by done.
    destruct (encodeURIComponent s) as [e'|] eqn:E; [|done].
    injection He as <-. constructor; [unfold uriSafe; now rewrite Eu|].
    now apply IH. }
  destruct (isLowSurrogate c) eqn:El; [now rewrite encode_low in He|].
  destruct (isHighSurrogate c) eqn:Eh.
  { rewrite encode_high in He by done. destruct s as [|d s]; [done|].
    destruct (isLowSurrogate d) eqn:Ed; [|done].
    destruct (encodeURIComponent s) as [e'|] eqn:E; [|done].
    injection He as <-. apply Forall_app. split.
    - apply percent_safe, utf8_bytes. now apply pair_code_point.
    - apply (IH' d s eq_refl); [|done]. now inversion Hs'. }
  rewrite encode_other in He by done.
  destruct (encodeURIComponent s) as [e'|] eqn:E; [|done].
  injection He as <-. apply Forall_app. split.
  - apply percent_safe, utf8_bytes. lia.
  - now apply IH.
Qed.

Lemma encode_length s :
  forall e, encodeURIComponent s = Some e -> (length s <= length e)%nat.
Proof.
  induction s as [|c s IH IH'] using pair_ind; intros e He.
  { cbn. lia. }
  assert (Hp : forall v, (3 <= length (percent (utf8 v)))%nat).
  { intros v. rewrite percent_length. pose proof (utf8_nonempty v).
    destruct (utf8 v); [done|cbn; lia]. }
  destruct (uriUnreserved c) eqn:Eu.
  { rewrite encode_unreserved in He by done.
    destruct (encodeURIComponent s) as [e'|] eqn:E; [|done].
    injection He as <-. cbn. specialize (IH e' eq_refl). lia. }
  destruct (isLowSurrogate c) eqn:El; [now rewrite encode_low in He|].
  destruct (isHighSurrogate c) eqn:Eh.
  { rewrite encode_high in He by done. destruct s as [|d s]; [done|].
    destruct (isLowSurrogate d) eqn:Ed; [|done].
    destruct (encodeURIComponent s) as [e'|] eqn:E; [|done].
    injection He as <-. rewrite length_app. rewrite percent_length.
    specialize (IH' d s eq_refl e' E).
    assert (length (utf8 ((c - 55296) * 1024 + (d - 56320) + 65536)) = 4%nat).
    { unfold utf8. replace (_ <? 128) with false by (symmetry; apply N.ltb_ge; lia).
      replace (_ <? 2048) with false by (symmetry; apply N.ltb_ge; lia).
      now replace (_ <? 65536) with false by (symmetry; apply N.ltb_ge; lia). }
    cbn [length]. lia. }
  rewrite encode_other in He by done.
  destruct (encodeURIComponent s) as [e'|] eqn:E; [|done].
  injection He as <-. rewrite length_app. specialize (IH e' eq_refl).
  specialize (Hp c). cbn [length]. lia.
Qed.

Lemma encode_identity s :
  encodeURIComponent s = Some s <-> Forall (fun c => uriUnreserved c = true) s.
Proof.
  split.
  - induction s as [|c s IH]; intros He; [constructor|].
    destruct (uriUnreserved c) eqn:Eu.
    { rewrite encode_unreserved in He by done.
      destruct (encodeURIComponent s) as [e'|] eqn:E; [|done].
      injection He as ->. constructor; [done|]. now apply IH. }
    exfalso.
    assert (Hp : forall v, (3 <= length (percent (utf8 v)))%nat).
    { intros v. rewrite percent_length. pose proof (utf8_nonempty v).
      destruct (utf8 v); [done|cbn; lia]. }
    destruct (isLowSurrogate c) eqn:El; [now rewrite encode_low in He|].
    destruct (isHighSurrogate c) eqn:Eh.
    { rewrite encode_high in He by done. destruct s as [|d s]; [done|].
      destruct (isLowSurrogate d) eqn:Ed; [|done].
      destruct (encodeURIComponent s) as [e'|] eqn:E; [|done].
      apply encode_length in E. injection He as He.
      apply (f_equal length) in He. rewrite length_app in He.
      specialize (Hp ((c - 55296) * 1024 + (d - 56320) + 65536)).
      cbn [length] in He. lia. }
    rewrite encode_other in He by done. clear IH.
    destruct (encodeURIComponent s) as [e'|] eqn:E; [|done].
    apply encode_length in E. injection He as He.
    apply (f_equal length) in He. rewrite length_app in He.
    specialize (Hp c). cbn [length] in He. lia.
  - induction 1 as [|c s Hc _ IH]; [done|].
    rewrite encode_unreserved by done. now rewrite IH.
Qed.

Lemma encode_app a :
  forall b ea,
    encodeURIComponent a = Some ea ->
    encodeURIComponent (a ++ b) = (ea ++.) <$> encodeURIComponent b.
Proof.
  induction a as [|c a IH IH'] using pair_ind; intros b ea He.
  { injection He as <-. cbn [app]. now destruct (encodeURIComponent b). }
  change ((c :: a) ++ b) with (c :: (a ++ b)).
  destruct (uriUnreserved c) eqn:Eu.
  { rewrite encode_unreserved in He |- * by done.
    destruct (encodeURIComponent a) as [e'|] eqn:E; [|done].
    injection He as <-. rewrite (IH b e' eq_refl).
    now destruct (encodeURIComponent b). }
  destruct (isLowSurrogate c) eqn:El; [now rewrite encode_low in He|].
  destruct (isHighSurrogate c) eqn:Eh.
  { rewrite encode_high in He |- * by done. destruct a as [|d a]; [done|].
    cbn [app]. destruct (isLowSurrogate d) eqn:Ed; [|done].
    destruct (encodeURIComponent a) as [e'|] eqn:E; [|done].
    injection He as <-. rewrite (IH' d a eq_refl b e' E).
    destruct (encodeURIComponent b); cbn; [|done]. now rewrite <- app_assoc. }
  rewrite encode_other in He |- * by done.
  destruct (encodeURIComponent a) as [e'|] eqn:E; [|done].
  injection He as <-. rewrite (IH b e' eq_refl).
  destruct (encodeURIComponent b); cbn; [|done]. now rewrite <- app_assoc.
Qed.

(** X3: a keyword or an episode id with a surrogate that has no partner
    cannot be encoded ([encodeURIComponent] throws exactly for such
    strings); the search and the resolver then fail with the URIError before
    any request. *)
Theorem lone_surrogate_rejected :
  (forall s, encodeURIComponent s = None <-> loneSurrogate s)
  /\ (forall (upstream : jsstring -> Response) q fuel log,
        loneSurrogate (normalizeQuery (query q)) ->
        search upstream (S fuel) q log = (Throw URIError, log))
  /\ (forall (upstream : jsstring -> Response) episode _server log,
        loneSurrogate (ep_id episode) ->
        findEpisodeServer upstream episode _server log = (Throw URIError, log)).
Proof.
  split; [exact encode_None_lone|]. split.
  - intros upstream q fuel log H%encode_None_lone.
    unfold search. cbn [search_while]. unfold bind at 1. unfold lift.
    now rewrite H.
  - intros upstream episode _server log H%encode_None_lone.
    unfold findEpisodeServer. unfold bind at 1. unfold lift. now rewrite H.
Qed.

Lemma lone_surrogate_rejected_witness :
  loneSurrogate (ep_id brokenEpisode)
  /\ findEpisodeServer demoUpstream brokenEpisode (js "default") []
     = (Throw URIError, []).
Proof.
  assert (H : loneSurrogate (ep_id brokenEpisode)).
  { exists [101; 112], 0xD83D, []. split; [reflexivity|]. left.
    split; [reflexivity|]. discriminate. }
  split; [exact H|].
  exact (proj2 (proj2 lone_surrogate_rejected) demoUpstream brokenEpisode
           (js "default") [] H).
Defined.

(** X4: the encoding of a string of code units has only unreserved
    characters and percent signs: no slash, question mark, number sign,
    ampersand or space of the keyword or the episode id reaches the request
    URL. *)
Theorem encoded_component_safe (s e : jsstring) :
  isCodeUnits s -> encodeURIComponent s = Some e ->
  Forall (fun c => uriSafe c = true) e
  /\ (47 ∉ e) /\ (63 ∉ e) /\ (35 ∉ e) /\ (38 ∉ e) /\ (32 ∉ e).
Proof.
  intros Hs He. pose proof (encode_safe s e Hs He) as H.
  split; [exact H|].
  rewrite Forall_forall in H.
  repeat split; intros Hin; apply H in Hin; vm_compute in Hin; discriminate.
Qed.

Lemma encoded_component_safe_witness :
  encodeURIComponent (js "a/b?c #d&e") = Some (js "a%2Fb%3Fc%20%23d%26e")
  /\ 47 ∉ js "a%2Fb%3Fc%20%23d%26e".
Proof.
  split; [reflexivity|].
  apply (encoded_component_safe (js "a/b?c #d&e") (js "a%2Fb%3Fc%20%23d%26e")).
  - decide_closed.
  - reflexivity.
Defined.

(** X5: encoding goes piece by piece: the encoding of two strings one after
    the other is the two encodings one after the other; so the words of a
    keyword are encoded each by itself and joined by %20. *)
Theorem encoded_words (a b ea eb : jsstring) :
  encodeURIComponent a = Some ea -> encodeURIComponent b = Some eb ->
  encodeURIComponent (a ++ b) = Some (ea ++ eb)
  /\ encodeURIComponent (a ++ 32 :: b) = Some (ea ++ js "%20" ++ eb).
Proof.
  intros Ha Hb. split.
  - rewrite (encode_app a b ea Ha), Hb. reflexivity.
  - rewrite (encode_app a (32 :: b) ea Ha).
    rewrite encode_other by reflexivity. rewrite Hb. reflexivity.
Qed.

Lemma encoded_words_witness :
  encodeURIComponent (js "My" ++ js "Show") = Some (js "My" ++ js "Show")
  /\ encodeURIComponent (js "My" ++ 32 :: js "Show")
     = Some (js "My" ++ js "%20" ++ js "Show").
Proof.
  apply (encoded_words (js "My") (js "Show") (js "My") (js "Show"));
    reflexivity.
Defined.

(** ** The episode list *)

Section EpisodeList.

Variable upstream : jsstring -> Response.
Variable infoOf : Response -> option (option InfoResponse).

Lemma findEpisodes_log id log :
  snd (findEpisodes upstream infoOf id log) = log ++ [infoUrl id].
Proof.
  unfold findEpisodes, bind, fetch, asInfoResponse. cbn zeta. fold (infoUrl id).
  destruct (ok (upstream (infoUrl id))); cbn [negb]; [|reflexivity].
  destruct (infoOf (upstream (infoUrl id))) as [[data|]|]; reflexivity.
Qed.

Lemma findEpisodes_inv id log eps log' :
  findEpisodes upstream infoOf id log = (Ok eps, log') ->
  exists data,
    ok (upstream (infoUrl id)) = true
    /\ infoOf (upstream (infoUrl id)) = Some (Some data)
    /\ eps = toEpisodeDetails <$> episodes data.
Proof.
  unfold findEpisodes, bind, fetch, asInfoResponse. cbn zeta. fold (infoUrl id).
  destruct (ok (upstream (infoUrl id))); cbn [negb]; [|discriminate].
  destruct (infoOf (upstream (infoUrl id))) as [[data|]|]; try discriminate.
  intros [= <- _]. now exists data.
Qed.

End EpisodeList.

(** X6: when the info request is answered with a status that is not ok,
    findEpisodes throws the error that names the id, the status and the
    status text, after that one request. *)
Theorem findEpisodes_failure
    (upstream : jsstring -> Response)
    (infoOf : Response -> option (option InfoResponse))
    (id : jsstring) (log : list jsstring) :
  ok (upstream (infoUrl id)) = false ->
  findEpisodes upstream infoOf id log
  = (Throw (Error (infoFailed id (upstream (infoUrl id)))), log ++ [infoUrl id]).
Proof.
  intros Hok. unfold findEpisodes, bind, fetch. cbn zeta. fold (infoUrl id).
  now rewrite Hok.
Qed.

Lemma findEpisodes_failure_witness :
  findEpisodes infoUpstream demoInfoOf (js "b") []
  = (Throw (Error (js "Failed to fetch episode info for " ++ [34] ++ js "b"
                   ++ [34] ++ js ": 404 Not Found")),
     [infoUrl (js "b")]).
Proof.
  apply (findEpisodes_failure infoUpstream demoInfoOf (js "b") []).
  reflexivity.
Defined.

(** X7: when the info request succeeds, findEpisodes makes that one request,
    with the id as it is (not encoded), and returns one entry for each
    episode of the answer, in the answer's order, with its id, number and
    title; the url is the watch URL built from the id, not the url the
    upstream gave. *)
Theorem findEpisodes_result
    (upstream : jsstring -> Response)
    (infoOf : Response -> option (option InfoResponse))
    (id : jsstring) (log : list jsstring) (data : InfoResponse) :
  ok (upstream (infoUrl id)) = true ->
  infoOf (upstream (infoUrl id)) = Some (Some data) ->
  exists eps,
    findEpisodes upstream infoOf id log = (Ok eps, log ++ [infoUrl id])
    /\ length eps = length (episodes data)
    /\ forall i ep,
         episodes data !! i = Some ep ->
         eps !! i = Some {| ep_id := ei_id ep; ep_number := ei_number ep;
                            ep_url := watchUrl (ei_id ep);
                            ep_title := ei_title ep |}.
Proof.
  intros Hok Hinfo. exists (toEpisodeDetails <$> episodes data). split; [|split].
  - unfold findEpisodes, bind, fetch, asInfoResponse. cbn zeta.
    fold (infoUrl id). now rewrite Hok, Hinfo.
  - now rewrite length_fmap.
  - intros i ep Hep. now rewrite list_lookup_fmap, Hep.
Qed.

Lemma findEpisodes_result_witness :
  exists eps,
    findEpisodes infoUpstream demoInfoOf (js "a") []
    = (Ok eps, [] ++ [infoUrl (js "a")])
    /\ length eps = 2%nat
    /\ forall i ep,
         episodes demoInfo !! i = Some ep ->
         eps !! i = Some {| ep_id := ei_id ep; ep_number := ei_number ep;
                            ep_url := watchUrl (ei_id ep);
                            ep_title := ei_title ep |}.
Proof.
  apply (findEpisodes_result infoUpstream demoInfoOf (js "a") [] demoInfo);
    reflexivity.
Defined.

(** ** From a search result to its episodes, from an episode to its streams *)

Lemma search_while_results (upstream : jsstring -> Response) keyword fuel :
  forall allResults page hasNext log rs log',
    search_while upstream fuel keyword allResults page hasNext log = (Ok rs, log') ->
    exists items, rs = allResults ++ (toSearchResult <$> items).
Proof.
  induction fuel as [|fuel IH]; intros allResults page hasNext log rs log' H;
    [discriminate|].
  cbn [search_while] in H. destruct hasNext; cycle 1.
  { injection H as <- _. exists []. now rewrite app_nil_r. }
  unfold bind at 1 in H. unfold lift in H.
  destruct (encodeURIComponent keyword) as [enc|]; [|discriminate].
  cbn [ret] in H. unfold bind at 1 in H. unfold fetch at 1 in H. cbn zeta in H.
  destruct (ok (upstream (searchUrl enc page))); [|discriminate].
  cbn [negb] in H. unfold bind at 1 in H. unfold asSearchPage in H.
  destruct (json (upstream (searchUrl enc page))) as [[p|w|]|]; try discriminate.
  cbn [ret] in H. apply IH in H as [items ->].
  exists (results p ++ items). now rewrite fmap_app, app_assoc.
Qed.

(** X8: every result of a search carries the URL that findEpisodes requests
    for its id: findEpisodes, called with the id of a search result, makes
    one request, to the url of that result. *)
Theorem search_result_opens_info
    (upstream : jsstring -> Response)
    (infoOf : Response -> option (option InfoResponse))
    (q : SearchOptions) (fuel : nat) (log log' log2 : list jsstring)
    (rs : list SearchResult) (sr : SearchResult) :
  search upstream fuel q log = (Ok rs, log') -> sr ∈ rs ->
  sr_url sr = infoUrl (sr_id sr)
  /\ snd (findEpisodes upstream infoOf (sr_id sr) log2) = log2 ++ [sr_url sr].
Proof.
  intros H Hin. unfold search in H.
  apply search_while_results in H as [items ->]. cbn [app] in Hin.
  apply list_elem_of_fmap in Hin as (r & -> & _).
  split; [reflexivity|]. now rewrite findEpisodes_log.
Qed.

Lemma search_result_opens_info_witness :
  sr_url (toSearchResult (mkItem (js "c") (js "C") 1 1)) = infoUrl (js "c")
  /\ snd (findEpisodes threePages demoInfoOf (js "c") [])
     = [] ++ [sr_url (toSearchResult (mkItem (js "c") (js "C") 1 1))].
Proof.
  apply (search_result_opens_info threePages demoInfoOf
           {| query := js "  My   Show " |} 4 []
           [ searchUrl (js "My%20Show") 1; searchUrl (js "My%20Show") 2;
             searchUrl (js "My%20Show") 3 ] []
           (toSearchResult
              <$> [ mkItem (js "a") (js "A") 2 0; mkItem (js "b") (js "B") 0 3;
                    mkItem (js "c") (js "C") 1 1; mkItem (js "d") (js "D") 0 0 ])
           (toSearchResult (mkItem (js "c") (js "C") 1 1))).
  - vm_compute. reflexivity.
  - cbn [fmap list_fmap]. do 2 constructor 2. constructor 1.
Defined.

(** The run of the resolver when the watch request fails. *)
Lemma findEpisodeServer_down (upstream : jsstring -> Response) episode _server
    log enc :
  encodeURIComponent (ep_id episode) = Some enc ->
  ok (upstream (watchUrl enc)) = false ->
  findEpisodeServer upstream episode _server log
  = (Throw (Error (watchFailed (ep_id episode) (upstream (watchUrl enc)))),
     log ++ [watchUrl enc]).
Proof.
  intros Henc Hok. unfold findEpisodeServer. unfold bind at 1. unfold lift.
  rewrite Henc. cbn [ret]. unfold bind at 1. unfold fetch at 1. now rewrite Hok.
Qed.

(** The requests of a run of the resolver. *)
Lemma findEpisodeServer_log (upstream : jsstring -> Response) episode _server log :
  snd (findEpisodeServer upstream episode _server log)
  = match encodeURIComponent (ep_id episode) with
    | None => log
    | Some enc =>
        if ok (upstream (watchUrl enc)) then
          match json (upstream (watchUrl enc)) with
          | Some (JWatchResponse w) =>
              match find (fun s => src_isM3U8 s) (sources w) with
              | Some me => log ++ [watchUrl enc; src_url me]
              | None => log ++ [watchUrl enc]
              end
          | _ => log ++ [watchUrl enc]
          end
        else log ++ [watchUrl enc]
    end.
Proof.
  destruct (encodeURIComponent (ep_id episode)) as [enc|] eqn:Henc; cycle 1.
  { unfold findEpisodeServer. unfold bind at 1. unfold lift. now rewrite Henc. }
  destruct (ok (upstream (watchUrl enc))) eqn:Hok; cycle 1.
  { unfold findEpisodeServer. unfold bind at 1. unfold lift. rewrite Henc.
    cbn [ret]. unfold bind at 1. unfold fetch at 1. now rewrite Hok. }
  destruct (json (upstream (watchUrl enc))) as [[p|w|]|] eqn:Hjson.
  2:{ rewrite (findEpisodeServer_run upstream _ _ _ enc w) by done.
      destruct (find _ (sources w)) as [me|]; [|reflexivity].
      now destruct (ok (upstream (src_url me))). }
  all: unfold findEpisodeServer; unfold bind at 1; unfold lift; rewrite Henc;
    cbn [ret]; unfold bind at 1; unfold fetch at 1; rewrite Hok; cbn [negb];
    unfold bind at 1; unfold asWatchResponse; now rewrite Hjson.
Qed.

(** X9: the watch URL is built from the encoded id, the url of an episode
    from the id as it is: for an episode that findEpisodes returned the two
    are the same URL exactly when the id has only unreserved characters, and
    then the url of the episode is what the resolver requests first. *)
Theorem episode_url_is_watch_request
    (upstream : jsstring -> Response)
    (infoOf : Response -> option (option InfoResponse))
    (id : jsstring) (log log' : list jsstring)
    (eps : list EpisodeDetails) (e : EpisodeDetails) :
  findEpisodes upstream infoOf id log = (Ok eps, log') -> e ∈ eps ->
  ep_url e = watchUrl (ep_id e)
  /\ (forall enc,
        encodeURIComponent (ep_id e) = Some enc ->
        watchUrl enc = ep_url e
        <-> Forall (fun c => uriUnreserved c = true) (ep_id e))
  /\ (Forall (fun c => uriUnreserved c = true) (ep_id e) ->
      forall (upstream' : jsstring -> Response) _server log2,
      exists rest,
        snd (findEpisodeServer upstream' e _server log2) = log2 ++ ep_url e :: rest).
Proof.
  intros H Hin. apply findEpisodes_inv in H as (data & _ & _ & ->).
  apply list_elem_of_fmap in Hin as (ep & -> & _).
  split; [reflexivity|]. split.
  - intros enc Henc. cbn [toEpisodeDetails ep_url ep_id] in *.
    rewrite <- encode_identity, Henc. unfold watchUrl. split.
    + intros E. apply app_inv_head, app_inv_head in E. now rewrite E.
    + now intros [= ->].
  - intros Hall upstream' _server log2.
    apply encode_identity in Hall as Henc. rewrite findEpisodeServer_log, Henc.
    change (watchUrl (ep_id (toEpisodeDetails ep))) with (ep_url (toEpisodeDetails ep)).
    destruct (ok _); [|now exists []].
    destruct (json _) as [[p|w|]|]; try (now exists []).
    destruct (find _ _) as [me|]; [now exists [src_url me]|now exists []].
Qed.

Lemma episode_url_is_watch_request_witness :
  ep_url secondEpisode = watchUrl (ep_id secondEpisode)
  /\ (forall enc,
        encodeURIComponent (ep_id secondEpisode) = Some enc ->
        watchUrl enc = ep_url secondEpisode
        <-> Forall (fun c => uriUnreserved c = true) (ep_id secondEpisode))
  /\ (Forall (fun c => uriUnreserved c = true) (ep_id secondEpisode) ->
      forall (upstream' : jsstring -> Response) _server log2,
      exists rest,
        snd (findEpisodeServer upstream' secondEpisode _server log2)
        = log2 ++ ep_url secondEpisode :: rest).
Proof.
  apply (episode_url_is_watch_request infoUpstream demoInfoOf (js "a") []
           [infoUrl (js "a")] (toEpisodeDetails <$> episodes demoInfo)
           secondEpisode).
  - reflexivity.
  - constructor 2. constructor 1.
Defined.

(** X10: when the watch request is answered with a status that is not ok,
    the resolver throws the error that names the episode id and the status,
    after that one request: no playlist is fetched. *)
Theorem watch_request_failure
    (upstream : jsstring -> Response) (episode : EpisodeDetails)
    (_server : jsstring) (log : list jsstring) (enc : jsstring) :
  encodeURIComponent (ep_id episode) = Some enc ->
  ok (upstream (watchUrl enc)) = false ->
  findEpisodeServer upstream episode _server log
  = (Throw (Error (watchFailed (ep_id episode) (upstream (watchUrl enc)))),
     log ++ [watchUrl enc]).
Proof. apply findEpisodeServer_down. Qed.

Lemma watch_request_failure_witness :
  findEpisodeServer demoUpstream unknownEpisode (js "server1") []
  = (Throw (Error (js "Failed to fetch watch info for " ++ [34] ++ js "ep-8"
                   ++ [34] ++ js ": 404")),
     [watchUrl (js "ep-8")]).
Proof.
  apply (watch_request_failure demoUpstream unknownEpisode (js "server1") []
           (js "ep-8")); reflexivity.
Defined.

(** ** Every video source of a result *)

(** What a run that returns has gone through. *)
Lemma findEpisodeServer_Ok_inv (upstream : jsstring -> Response)
    episode _server log r log' :
  findEpisodeServer upstream episode _server log = (Ok r, log') ->
  exists enc w me,
    encodeURIComponent (ep_id episode) = Some enc
    /\ ok (upstream (watchUrl enc)) = true
    /\ json (upstream (watchUrl enc)) = Some (JWatchResponse w)
    /\ find (fun s => src_isM3U8 s) (sources w) = Some me
    /\ ok (upstream (src_url me)) = true
    /\ r = {| server := serverLabel _server; headers := ∅;
              videoSources := sourcesOf episode w me (text (upstream (src_url me))) |}
    /\ log' = log ++ [watchUrl enc; src_url me].
Proof.
  intros H.
  destruct (encodeURIComponent (ep_id episode)) as [enc|] eqn:Henc; cycle 1.
  { unfold findEpisodeServer in H. unfold bind at 1 in H. unfold lift in H.
    now rewrite Henc in H. }
  destruct (ok (upstream (watchUrl enc))) eqn:Hok; cycle 1.
  { now rewrite (findEpisodeServer_down upstream _ _ _ enc) in H. }
  destruct (json (upstream (watchUrl enc))) as [[p|w|]|] eqn:Hjson.
  2:{ rewrite (findEpisodeServer_run upstream _ _ _ enc w) in H by done.
      destruct (find _ (sources w)) as [me|] eqn:Hme; [|discriminate].
      destruct (ok (upstream (src_url me))) eqn:Hp; [|discriminate].
      injection H as <- <-. now exists enc, w, me. }
  all: exfalso; unfold findEpisodeServer in H; unfold bind at 1 in H;
    unfold lift in H; rewrite Henc in H; cbn [ret] in H; unfold bind at 1 in H;
    unfold fetch at 1 in H; rewrite Hok in H; cbn [negb] in H;
    unfold bind at 1 in H; unfold asWatchResponse in H;
    now rewrite Hjson in H.
Qed.



Lemma firstResolution_number line w h :
  firstResolution line = Some (w, h) -> isNumber h /\ hasResolution line.
Proof.
  intros H. split; [|apply firstResolution_iff; now rewrite H].
  induction line as [|c line IH]; cbn [firstResolution] in H.
  - destruct (resolutionAt []) as [[w' h']|] eqn:E; [|done].
    injection H as -> ->. now apply resolutionAt_Some in E as (? & _ & _ & ?).
  - destruct (resolutionAt (c :: line)) as [[w' h']|] eqn:E; [|auto].
    injection H as -> ->. now apply resolutionAt_Some in E as (? & _ & _ & ?).
Qed.

(** The variant of one round of the loop. *)
Lemma scanLine_variant lines v :
  v ∈ scanLine lines 0 [] ->
  exists tag next rest h,
    lines = tag :: next :: rest
    /\ startsWith tagPrefix tag = true /\ hasResolution tag
    /\ isNumber h /\ res v = h ++ js "p"
    /\ uri v = trim next /\ trim next <> []
    /\ startsWith (js "#") (trim next) = false.
Proof.
  destruct lines as [|tag [|next rest]].
  - intros H. cbn in H. now apply elem_of_nil in H.
  - rewrite scanLine_last by done. intros H. now apply elem_of_nil in H.
  - destruct (startsWith tagPrefix tag) eqn:Htag; cycle 1.
    { rewrite scanLine_other by done. intros H. now apply elem_of_nil in H. }
    rewrite scanLine_entry by done. unfold variantOf. cbn [fst snd].
    destruct (firstResolution tag) as [[w h]|] eqn:E; cycle 1.
    { intros H. now apply elem_of_nil in H. }
    apply firstResolution_number in E as [Hh Hres]. cbn zeta.
    destruct (bool_decide (trim next = [])) eqn:Hb; cbn [negb andb].
    { intros H. now apply elem_of_nil in H. }
    destruct (startsWith (js "#") (trim next)) eqn:Hc; cbn [negb].
    { intros H. now apply elem_of_nil in H. }
    cbn [option_list]. intros ->%list_elem_of_singleton.
    exists tag, next, rest, h. apply bool_decide_eq_false in Hb. done.
Qed.

Lemma scanAll_variant lines v :
  v ∈ scanAll lines ->
  exists i tag next h,
    lines !! i = Some tag /\ lines !! S i = Some next
    /\ startsWith tagPrefix tag = true /\ hasResolution tag
    /\ isNumber h /\ res v = h ++ js "p"
    /\ uri v = trim next /\ trim next <> []
    /\ startsWith (js "#") (trim next) = false.
Proof.
  induction lines as [|l rest IH]; cbn [scanAll].
  { intros H. now apply elem_of_nil in H. }
  intros [H|H]%elem_of_app.
  - apply scanLine_variant in H as (tag & next & rest' & h & E & H).
    injection E as -> ->. now exists 0%nat, tag, next, h.
  - apply IH in H as (i & tag & next & h & H1 & H2 & H).
    now exists (S i), tag, next, h.
Qed.

Lemma filter_cons_eq {A} (f : A -> bool) x l :
  List.filter f (x :: l) = if f x then x :: List.filter f l else List.filter f l.
Proof. reflexivity. Qed.

Lemma scanLine_short lines : (length (scanLine lines 0 []) <= 1)%nat.
Proof.
  unfold scanLine. destruct (lines !! 0%nat); [|cbn; lia].
  destruct (startsWith _ _); [|cbn; lia].
  destruct (exec re_resolution _); [|cbn; lia].
  destruct (trim <$> _); [|cbn; lia]. destruct (_ && _); cbn; lia.
Qed.

Lemma scanAll_count lines :
  (length (scanAll lines) <= length (tagLines lines))%nat
  /\ (length (scanAll lines) <= length (tagLines (removelast lines)))%nat.
Proof.
  induction lines as [|l rest [IH1 IH2]]; [cbn; lia|].
  cbn [scanAll]. rewrite length_app. unfold tagLines in *.
  destruct rest as [|l' rest].
  { rewrite scanLine_last by done. cbn. lia. }
  change (removelast (l :: l' :: rest)) with (l :: removelast (l' :: rest)).
  rewrite (filter_cons_eq _ l (l' :: rest)),
    (filter_cons_eq _ l (removelast (l' :: rest))).
  destruct (startsWith tagPrefix l) eqn:Htag.
  - pose proof (scanLine_short (l :: l' :: rest)). cbn [length]. lia.
  - rewrite scanLine_other by done. cbn [length]. lia.
Qed.

(** X12: whatever the playlist text, every video source of a result has the
    type m3u8, a quality that is a number followed by "p", and a url that is
    the base path of the master URL followed by a trimmed line of the
    playlist that is not empty and does not begin with '#', the line after a
    tag line with a resolution attribute. *)
Theorem video_sources_wellformed
    (upstream : jsstring -> Response) (episode : EpisodeDetails)
    (_server : jsstring) (log log' : list jsstring) (r : EpisodeServer)
    (vs : VideoSource) :
  findEpisodeServer upstream episode _server log = (Ok r, log') ->
  vs ∈ videoSources r ->
  vs_type vs = js "m3u8"
  /\ (exists h, isNumber h /\ vs_quality vs = h ++ js "p")
  /\ (exists enc master i tag next,
        encodeURIComponent (ep_id episode) = Some enc
        /\ log' = log ++ [watchUrl enc; master]
        /\ split 10 (text (upstream master)) !! i = Some tag
        /\ split 10 (text (upstream master)) !! S i = Some next
        /\ startsWith tagPrefix tag = true /\ hasResolution tag
        /\ vs_url vs = baseUrl master ++ trim next
        /\ trim next <> []
        /\ startsWith (js "#") (trim next) = false).
Proof.
  intros H Hin.
  apply findEpisodeServer_Ok_inv in H
    as (enc & w & me & Henc & _ & _ & _ & _ & -> & ->).
  cbn [videoSources] in Hin. unfold sourcesOf in Hin.
  apply list_elem_of_fmap in Hin as (v & -> & Hv).
  rewrite parseVariants_scanAll in Hv.
  apply scanAll_variant in Hv
    as (i & tag & next & h & H1 & H2 & Htag & Hres & Hh & Hq & Hu & Hne & Hc).
  cbn [toVideoSource vs_type vs_quality vs_url]. split; [done|]. split.
  - now exists h.
  - exists enc, (src_url me), i, tag, next. rewrite Hu. done.
Qed.

Lemma video_sources_wellformed_witness :
  vs_type (toVideoSource (js "https://x/y/")
             (toSubtitles demoEpisode (subtitles demoWatch))
             {| res := js "360p"; uri := js "variant360.m3u8" |})
  = js "m3u8"
  /\ exists h, isNumber h /\ js "360p" = h ++ js "p".
Proof.
  pose proof (video_sources_wellformed demoUpstream demoEpisode (js "default") []
                [watchUrl (js "ep-7"); js "https://x/y/master.m3u8"]
                {| server := js "zoro"; headers := ∅;
                   videoSources :=
                     toVideoSource (js "https://x/y/")
                       (toSubtitles demoEpisode (subtitles demoWatch))
                       <$> [ {| res := js "720p"; uri := js "variant720.m3u8" |};
                             {| res := js "360p"; uri := js "variant360.m3u8" |} ] |}
                (toVideoSource (js "https://x/y/")
                   (toSubtitles demoEpisode (subtitles demoWatch))
                   {| res := js "360p"; uri := js "variant360.m3u8" |})) as H.
  refine (let H' := H _ _ in conj (proj1 H') (proj1 (proj2 H'))).
  - vm_compute. reflexivity.
  - cbn [videoSources fmap list_fmap]. constructor 2. constructor 1.
Defined.

(** X13: there are never more video sources than tag lines in the playlist,
    the last line not counted: a tag on the last line has no line after it. *)
Theorem variants_bounded (playlistText : jsstring) :
  (length (parseVariants playlistText)
   <= length (tagLines (removelast (split 10 playlistText))))%nat
  /\ (length (parseVariants playlistText)
      <= length (tagLines (split 10 playlistText)))%nat.
Proof.
  rewrite parseVariants_scanAll.
  destruct (scanAll_count (split 10 playlistText)). done.
Qed.

(** ** Carriage returns at the line ends *)

Lemma startsWith_snoc (p s : jsstring) c :
  c ∉ p -> startsWith p (s ++ [c]) = startsWith p s.
Proof.
  intros Hc. unfold startsWith.
  destruct (decide (length p <= length s)%nat) as [Hle|Hgt].
  { now rewrite take_app_le. }
  rewrite (take_ge s) by lia. rewrite (take_ge (s ++ [c]))
    by (rewrite length_app; cbn; lia).
  rewrite !bool_decide_eq_false_2; [done| |].
  - intros ->. lia.
  - intros <-. apply Hc. apply elem_of_app. right. constructor.
Qed.

Lemma prefixb_snoc icase (w s : jsstring) c :
  Forall (fun x => litb icase x c = false) w ->
  prefixb icase w (s ++ [c]) = prefixb icase w s.
Proof.
  intros Hw. revert s. induction Hw as [|x w Hx _ IH]; intros s; [done|].
  destruct s as [|y s]; cbn [app prefixb]; [now rewrite Hx|]. now rewrite IH.
Qed.

Lemma dropWhile_snoc_stop p (s : jsstring) c :
  p c = false -> dropWhile p (s ++ [c]) = dropWhile p s ++ [c].
Proof.
  intros Hc. induction s as [|d s IH]; cbn [app dropWhile].
  - now rewrite Hc.
  - destruct (p d); [exact IH|done].
Qed.

Lemma resolutionAt_cr s : resolutionAt (s ++ [13]) = resolutionAt s.
Proof.
  unfold resolutionAt. rewrite prefixb_snoc by decide_closed.
  destruct (prefixb false (js "RESOLUTION=") s) eqn:Hp; [|done].
  apply prefixb_false_iff in Hp as [s1 ->].
  rewrite <- app_assoc. change 11%nat with (length (js "RESOLUTION=")).
  rewrite !drop_app_length. cbn zeta.
  rewrite takeWhile_snoc_stop, dropWhile_snoc_stop by done.
  destruct (dropWhile isDigit s1) as [|x s2]; [done|]. cbn [app].
  now rewrite takeWhile_snoc_stop by done.
Qed.

Lemma firstResolution_cr s : firstResolution (s ++ [13]) = firstResolution s.
Proof.
  induction s as [|c s IH]; [reflexivity|].
  cbn [app firstResolution].
  change (c :: s ++ [13]) with ((c :: s) ++ [13]).
  now rewrite resolutionAt_cr, IH.
Qed.

Lemma trimStart_snoc_space s c :
  isWhiteSpace c = true ->
  trimStart (s ++ [c]) = match trimStart s with [] => [] | t => t ++ [c] end.
Proof.
  intros Hc. induction s as [|d s IH]; cbn [app trimStart].
  - now rewrite Hc.
  - destruct (isWhiteSpace d); [exact IH|done].
Qed.

Lemma trim_snoc_space s c : isWhiteSpace c = true -> trim (s ++ [c]) = trim s.
Proof.
  intros Hc. unfold trim. rewrite trimStart_snoc_space by done.
  destruct (trimStart s) as [|d t]; [done|].
  now rewrite trimEnd_snoc, Hc.
Qed.

Lemma sameLine_tag l l' :
  sameLine l l' -> startsWith tagPrefix l' = startsWith tagPrefix l.
Proof. intros [->| ->]; [done|]. apply startsWith_snoc. decide_closed. Qed.

Lemma sameLine_variant tag tag' next next' :
  sameLine tag tag' -> sameLine next next' ->
  variantOf (tag', next') = variantOf (tag, next).
Proof.
  intros Ht Hn. unfold variantOf. cbn [fst snd].
  replace (firstResolution tag') with (firstResolution tag)
    by (destruct Ht as [->| ->]; [done|now rewrite firstResolution_cr]).
  replace (trim next') with (trim next)
    by (destruct Hn as [->| ->]; [done|now rewrite trim_snoc_space]).
  done.
Qed.

Lemma scanAll_cr ls ls' : Forall2 sameLine ls ls' -> scanAll ls' = scanAll ls.
Proof.
  induction 1 as [|l l' rest rest' Hl Hrest IH]; [done|].
  cbn [scanAll]. rewrite IH. f_equal.
  destruct Hrest as [|n n' r r' Hn _].
  { now rewrite !scanLine_last. }
  pose proof (sameLine_tag l l' Hl) as Htag.
  destruct (startsWith tagPrefix l) eqn:E.
  - rewrite !scanLine_entry by done. now rewrite (sameLine_variant l l' n n').
  - now rewrite !scanLine_other.
Qed.

(** X14: carriage returns at the ends of lines make no difference: a
    playlist with the line ends CR LF, on all or on some of its lines, gives
    the variants of the same playlist with the line ends LF. *)
Theorem carriage_returns_ignored (ls ls' : list jsstring) :
  Forall (fun l => 10 ∉ l) ls -> Forall2 sameLine ls ls' ->
  parseVariants (joinLines ls') = parseVariants (joinLines ls).
Proof.
  intros Hls H. destruct H as [|l l' rest rest' Hl Hrest]; [done|].
  assert (H : Forall2 sameLine (l :: rest) (l' :: rest')) by now constructor.
  assert (Hls' : Forall (fun l => 10 ∉ l) (l' :: rest')).
  { clear Hl Hrest. induction H as [|a a' r r' Ha _ IH]; [constructor|].
    inversion Hls as [|? ? Ha10 Hr]; subst. constructor; [|now apply IH].
    destruct Ha as [->| ->]; [done|]. intros [?|Hin]%elem_of_app; [done|].
    apply list_elem_of_singleton in Hin. discriminate. }
  rewrite !parseVariants_scanAll, !split_join by done.
  now apply scanAll_cr.
Qed.

Lemma carriage_returns_ignored_witness :
  parseVariants (joinLines demoLinesCR) = parseVariants (joinLines demoLines).
Proof.
  apply carriage_returns_ignored.
  - decide_closed.
  - repeat constructor; (now left) || (now right).
Defined.

(** ** The base path *)

Lemma exec_last_segment_none s :
  forall prev, 47 ∉ s -> exec_from re_last_segment prev s = None.
Proof.
  induction s as [|c s IH]; intros prev Hs; rewrite exec_from_eq, rmatch_last_segment.
  - done.
  - assert (c <> 47) by (intros ->; apply Hs; constructor).
    replace (c =? 47) with false by (symmetry; now apply N.eqb_neq).
    rewrite IH; [done|]. intros Hin. apply Hs. now constructor.
Qed.

(** X15: the base path of the master URL is the URL up to and with its last
    slash; a URL without a slash is its own base path, so that the URI of a
    variant is then appended to the whole URL; taking the base path again
    changes nothing; and what the base path leaves off has no slash. *)
Theorem base_url_shape (url : jsstring) :
  (47 ∉ url -> baseUrl url = url)
  /\ (forall pre last,
        url = pre ++ 47 :: last -> 47 ∉ last -> baseUrl url = pre ++ [47])
  /\ baseUrl (baseUrl url) = baseUrl url
  /\ exists last, url = baseUrl url ++ last /\ 47 ∉ last.
Proof.
  assert (H1 : forall u, 47 ∉ u -> baseUrl u = u).
  { intros u Hu. unfold baseUrl, replace, exec.
    now rewrite exec_last_segment_none. }
  assert (H2 : forall u pre last,
             u = pre ++ 47 :: last -> 47 ∉ last -> baseUrl u = pre ++ [47]).
  { intros u pre last -> Hl. now apply replace_last_segment. }
  split; [apply H1|]. split; [apply H2|].
  destruct (decide (47 ∈ url)) as [Hin|Hout].
  - apply list_elem_of_split_r in Hin as (pre & last & -> & Hlast).
    rewrite (H2 _ pre last eq_refl Hlast). split.
    + apply (H2 _ pre []); [done|]. apply not_elem_of_nil.
    + exists last. now rewrite <- app_assoc.
  - rewrite !(H1 url Hout). split; [done|]. exists []. rewrite app_nil_r.
    split; [done|apply not_elem_of_nil].
Qed.

Lemma base_url_shape_witness :
  baseUrl (js "https://x/y/master.m3u8") = js "https://x/y" ++ [47].
Proof.
  apply (proj1 (proj2 (base_url_shape (js "https://x/y/master.m3u8")))
           (js "https://x/y") (js "master.m3u8")).
  - reflexivity.
  - decide_closed.
Defined.

(** ** The lines of a text *)

Lemma joinLines_cons l ls :
  ls <> [] -> joinLines (l :: ls) = l ++ 10 :: joinLines ls.
Proof. now destruct ls. Qed.

Lemma split_nonempty s : split 10 s <> [].
Proof.
  destruct s as [|c s]; [done|]. cbn [split].
  destruct (c =? 10); [done|]. now destruct (split 10 s).
Qed.

(** X16: splitting a text at the line feeds loses nothing: it gives at least
    one line, no line has a line feed, there is one line more than there are
    line feeds, and the lines joined by line feeds are the text; the other
    way round, lines without line feeds, joined and split, come back. *)
Theorem lines_round_trip :
  (forall s,
      split 10 s <> []
      /\ Forall (fun l => 10 ∉ l) (split 10 s)
      /\ length (split 10 s) = S (length (List.filter (N.eqb 10) s))
      /\ joinLines (split 10 s) = s)
  /\ (forall ls,
        ls <> [] -> Forall (fun l => 10 ∉ l) ls -> split 10 (joinLines ls) = ls).
Proof.
  split; [|exact split_join].
  intros s. split; [apply split_nonempty|].
  induction s as [|c s (IH1 & IH2 & IH3)].
  { split; [repeat constructor; apply not_elem_of_nil|]. done. }
  pose proof (split_nonempty s) as Hne. cbn [split List.filter].
  rewrite (N.eqb_sym 10 c).
  destruct (c =? 10) eqn:Ec.
  - apply N.eqb_eq in Ec as ->. split; [|split].
    + constructor; [apply not_elem_of_nil|done].
    + cbn [length]. now rewrite IH2.
    + rewrite joinLines_cons by done. now rewrite IH3.
  - apply N.eqb_neq in Ec. destruct (split 10 s) as [|l ls]; [done|].
    apply Forall_cons in IH1 as [Hl Hls]. split; [|split].
    + constructor; [|done]. intros [?|?]%elem_of_cons; [congruence|done].
    + exact IH2.
    + rewrite <- IH3. now destruct ls.
Qed.

Lemma lines_round_trip_witness : split 10 (joinLines demoLines) = demoLines.
Proof.
  apply (proj2 lines_round_trip demoLines).
  - discriminate.
  - decide_closed.
Defined.

(** ** Subtitle ids *)

Lemma uint_digits_inj d d' : uint_digits d = uint_digits d' -> d = d'.
Proof.
  revert d'. induction d as [|d IH|d IH|d IH|d IH|d IH|d IH|d IH|d IH|d IH|d IH];
    intros [|d'|d'|d'|d'|d'|d'|d'|d'|d'|d']; cbn [uint_digits]; intros H;
    try discriminate; try reflexivity; injection H as H; f_equal; now apply IH.
Qed.

Lemma numToString_inj n m : numToString n = numToString m -> n = m.
Proof.
  unfold numToString. intros H%uint_digits_inj.
  rewrite <- (DecimalN.Unsigned.of_to n), <- (DecimalN.Unsigned.of_to m).
  now rewrite H.
Qed.

(** X17: the subtitles of a result have ids that differ from one another:
    two entries of the list with the same id are the same entry. *)
Theorem subtitle_ids_distinct (episode : EpisodeDetails) (subs : list Track) :
  NoDup (vsub_id <$> toSubtitles episode subs)
  /\ forall i j a b,
       toSubtitles episode subs !! i = Some a ->
       toSubtitles episode subs !! j = Some b ->
       vsub_id a = vsub_id b -> i = j.
Proof.
  assert (H : forall i j a b,
             toSubtitles episode subs !! i = Some a ->
             toSubtitles episode subs !! j = Some b ->
             vsub_id a = vsub_id b -> i = j).
  { intros i j a b Ha Hb E. unfold toSubtitles in Ha, Hb.
    rewrite list_lookup_imap in Ha, Hb.
    destruct (subs !! i) as [x|]; [|done]. destruct (subs !! j) as [y|]; [|done].
    cbn [fmap option_fmap option_map] in Ha, Hb.
    injection Ha as <-. injection Hb as <-. cbn [vsub_id] in E.
    assert (E' : numToString (N.of_nat i) = numToString (N.of_nat j)).
    { apply (app_inv_head (js "-sub-")), (app_inv_head (ep_id episode)), E. }
    apply numToString_inj in E'. lia. }
  split; [|exact H].
  apply NoDup_alt. intros i j x Hi Hj. rewrite list_lookup_fmap in Hi, Hj.
  destruct (toSubtitles episode subs !! i) as [a|] eqn:Ha; [|done].
  destruct (toSubtitles episode subs !! j) as [b|] eqn:Hb; [|done].
  cbn [fmap option_fmap option_map] in Hi, Hj.
  apply (H i j a b Ha Hb). congruence.
Qed.

Lemma subtitle_ids_distinct_witness :
  NoDup (vsub_id <$> toSubtitles demoEpisode (subtitles demoWatch)).
Proof. exact (proj1 (subtitle_ids_distinct demoEpisode (subtitles demoWatch))). Defined.

(** ** The advertised servers *)

(** X18: no server that getSettings advertises is named "default": a result
    for an advertised server carries that server's name, and only the
    preference "default" is answered under the name "zoro". *)
Theorem advertised_servers_keep_name
    (upstream : jsstring -> Response) (episode : EpisodeDetails)
    (_server : jsstring) (log log' : list jsstring) (r : EpisodeServer) :
  findEpisodeServer upstream episode _server log = (Ok r, log') ->
  (_server ∈ episodeServers getSettings -> server r = _server)
  /\ (server r = js "zoro" <-> _server = js "default" \/ _server = js "zoro").
Proof.
  intros H. apply findEpisodeServer_Ok_inv in H
    as (enc & w & me & _ & _ & _ & _ & _ & -> & _).
  cbn [server]. unfold serverLabel. split.
  - intros Hin. rewrite bool_decide_eq_false_2; [done|]. intros ->.
    revert Hin. apply (bool_decide_unpack _). vm_compute. exact I.
  - case_bool_decide as E; [tauto|]. split; [tauto|]. now intros [?|?].
Qed.

Lemma advertised_servers_keep_name_witness :
  (js "server2" ∈ episodeServers getSettings
   -> server {| server := js "server2"; headers := ∅;
                videoSources := sourcesOf demoEpisode demoWatch masterEntry demoPlaylist |}
      = js "server2")
  /\ (js "server2" = js "zoro"
      <-> js "server2" = js "default" \/ js "server2" = js "zoro").
Proof.
  refine (let H := advertised_servers_keep_name demoUpstream demoEpisode
                     (js "server2") []
                     [watchUrl (js "ep-7"); js "https://x/y/master.m3u8"] _ _
          in H).
  vm_compute. reflexivity.
Defined.

(** ** The digits of a query *)

Lemma digitsOf_app a b : digitsOf (a ++ b) = digitsOf a ++ digitsOf b.
Proof. apply List.filter_app. Qed.

Lemma digitsOf_none s :
  Forall (fun c => isDigit c = false) s -> digitsOf s = [].
Proof.
  induction 1 as [|c s Hc _ IH]; [done|]. cbn. now rewrite Hc.
Qed.

Lemma digitsOf_all s :
  Forall (fun c => isDigit c = true) s -> digitsOf s = s.
Proof.
  induction 1 as [|c s Hc _ IH]; [done|]. cbn. rewrite Hc. now f_equal.
Qed.

Lemma digitsOf_spaces s :
  Forall (fun c => isWhiteSpace c = true) s -> digitsOf s = [].
Proof.
  intros H. apply digitsOf_none. eapply Forall_impl; [exact H|].
  intros c Hc. now apply space_not_digit.
Qed.

Lemma suffix_letters (suf : jsstring) :
  isSuffix2 suf = true ->
  length suf = 2%nat
  /\ Forall (fun c => isDigit c = false /\ isWordChar c = true
                      /\ isWhiteSpace c = false) suf.
Proof.
  unfold isSuffix2. intros H.
  repeat (apply orb_true_iff in H as [H|H]);
    apply bool_decide_eq_true in H; subst suf;
    (split; [reflexivity|repeat constructor]).
Qed.

(** A match of the ordinal pattern: the number, then one of the four
    suffixes. *)
Lemma ordinal_match_suffix prev t s' (caps : captures) :
  rmatch re_ordinal prev t ∅ final = Some (s', caps) ->
  exists D suf,
    t = D ++ suf ++ s' /\ isNumber D /\ caps !! 1%nat = Some D
    /\ isSuffix2 suf = true.
Proof.
  intros H. pose proof (rmatch_ordinal_someb prev t) as Hb. rewrite H in Hb.
  cbn [someb] in Hb. symmetry in Hb. unfold ordAt in Hb.
  apply andb_true_iff in Hb as [_ Hword].
  apply rmatch_ordinal_inv in H as (c & s1 & -> & Hc & HD & -> & _).
  cbn [takeWhile] in Hword. rewrite (digit_is_word c Hc) in Hword.
  cbn [ordWord] in Hword. rewrite Hc, dropWhile_digit_word in Hword.
  cbn [andb] in Hword.
  assert (exists a b, takeWhile isWordChar (dropWhile isDigit s1) = [a; b])
    as (a & b & Hab).
  { apply suffix_letters in Hword as [Hlen _].
    destruct (takeWhile isWordChar (dropWhile isDigit s1)) as [|a [|b [|? ?]]];
      try done. eauto. }
  rewrite Hab in Hword.
  apply takeWhile_two in Hab as (Hr & _ & _).
  pose proof (takeWhile_dropWhile isDigit s1) as Hs1.
  remember (dropWhile isDigit s1) as r eqn:Er. clear Er.
  set (q := dropWhile isWordChar r) in *. clearbody q. subst r.
  exists (c :: takeWhile isDigit s1), [a; b].
  split; [|split; [|split; [done|done]]].
  - rewrite <- Hs1 at 1. reflexivity.
  - split; [done|]. constructor; [done|apply takeWhile_Forall].
Qed.

Lemma strip_digits fuel :
  forall prev s,
    digitsOf (replace_from fuel re_ordinal [Ref 1] prev s) = digitsOf s.
Proof.
  induction fuel as [|fuel IH]; intros prev s; [done|].
  cbn [replace_from].
  destruct (exec_from re_ordinal prev s) as [m|] eqn:E; [|done].
  unfold substitute. cbn [fmap list_fmap concat]. rewrite app_nil_r.
  apply exec_from_at in E as (t & Hs & Hm & Hmatched).
  apply ordinal_match_suffix in Hm as (D & suf & Ht & [HD1 HD2] & HD & Hsuf).
  assert (Hg : group m 1 = D) by (unfold group; now rewrite HD).
  assert (Hmd : matched m = D ++ suf).
  { rewrite Hmatched, Ht, !app_assoc. apply take_length_diff. }
  rewrite Hg. destruct (matched m) as [|x mt] eqn:Emt.
  { symmetry in Hmd. apply app_eq_nil in Hmd as [? _]. done. }
  rewrite Hs, Ht, !digitsOf_app, IH. do 2 f_equal.
  apply suffix_letters in Hsuf as [_ Hsuf].
  rewrite (digitsOf_none suf); [done|].
  eapply Forall_impl; [exact Hsuf|]. now intros c (? & _).
Qed.

Lemma squeeze_digits s : forall b, digitsOf (squeeze b s) = digitsOf s.
Proof.
  induction s as [|c s IH]; intros b; [done|]. cbn [squeeze].
  destruct (isWhiteSpace c) eqn:Ec.
  - change (digitsOf (c :: s)) with (digitsOf ([c] ++ s)).
    rewrite digitsOf_app, (digitsOf_spaces [c]) by (now constructor).
    destruct b; [apply IH|]. cbn. apply IH.
  - cbn. now rewrite IH.
Qed.

Lemma trimStart_digits s : digitsOf (trimStart s) = digitsOf s.
Proof.
  induction s as [|c s IH]; [done|]. cbn [trimStart].
  destruct (isWhiteSpace c) eqn:Ec; [|done].
  cbn. now rewrite (space_not_digit c Ec).
Qed.

Lemma trimEnd_digits s : digitsOf (trimEnd s) = digitsOf s.
Proof.
  induction s as [|c s IH] using rev_ind; [done|].
  rewrite trimEnd_snoc. destruct (isWhiteSpace c) eqn:Ec; [|done].
  rewrite IH, digitsOf_app. cbn. rewrite (space_not_digit c Ec).
  now rewrite app_nil_r.
Qed.

Lemma Season_letters (t : jsstring) :
  prefixb true (js "Season") t = true ->
  Forall (fun c => isDigit c = false) (take 6 t) /\ t <> [].
Proof.
  intros H. split; [|now destruct t].
  apply prefixb_true_iff in H as (mid & post & -> & Hmid).
  assert (Hlen : length mid = 6%nat).
  { apply (f_equal length) in Hmid. now rewrite !length_fmap in Hmid. }
  rewrite take_app_length' by done.
  apply letters_plain in Hmid; [|decide_closed].
  eapply Forall_impl; [exact Hmid|]. now intros c [_ ?].
Qed.

Lemma replace_num_season_digits s :
  digitsOf (replace re_num_season [Ref 1] s) = digitsOf s.
Proof.
  unfold replace. destruct (exec re_num_season s) as [m|] eqn:E; [|done].
  unfold exec in E. apply exec_from_inv in E as (prev' & t & E & Hm & _).
  rewrite rmatch_num_season in Hm.
  destruct t as [|c s1]; [done|]. destruct (isDigit c) eqn:Ec; [|done].
  cbn zeta in Hm. destruct (prefixb _ _ _) eqn:Ep; [|done].
  injection Hm as Hafter Hgroups.
  unfold substitute, group. cbn [fmap list_fmap concat].
  rewrite <- Hgroups, lookup_insert_eq. cbn [default from_option id].
  rewrite app_nil_r, E, !digitsOf_app. f_equal.
  apply Season_letters in Ep as [Hsix _].
  set (r2 := dropWhile isWhiteSpace (dropWhile isDigit s1)) in *.
  assert (Hdec : c :: s1
                 = (c :: takeWhile isDigit s1)
                   ++ takeWhile isWhiteSpace (dropWhile isDigit s1)
                   ++ take 6 r2 ++ after m).
  { rewrite <- Hafter, take_drop. unfold r2. rewrite takeWhile_dropWhile.
    cbn [app]. now rewrite takeWhile_dropWhile. }
  rewrite Hdec, !digitsOf_app.
  rewrite (digitsOf_spaces (takeWhile _ _)) by apply takeWhile_Forall.
  now rewrite (digitsOf_none (take 6 r2)).
Qed.

Lemma replace_season_num_digits s :
  digitsOf (replace re_season_num [Ref 1] s) = digitsOf s.
Proof.
  unfold replace. destruct (exec re_season_num s) as [m|] eqn:E; [|done].
  unfold exec in E. apply exec_from_inv in E as (prev' & t & E & Hm & _).
  rewrite rmatch_season_num in Hm.
  destruct (prefixb _ _ _) eqn:Ep; [|done].
  destruct (dropWhile isWhiteSpace (drop 6 t)) as [|d r3] eqn:Er; [done|].
  destruct (isDigit d) eqn:Ed; [|done].
  injection Hm as Hafter Hgroups.
  unfold substitute, group. cbn [fmap list_fmap concat].
  rewrite <- Hgroups, lookup_insert_eq. cbn [default from_option id].
  rewrite app_nil_r, E, !digitsOf_app. f_equal.
  apply Season_letters in Ep as [Hsix _].
  assert (Hdec : t = take 6 t ++ takeWhile isWhiteSpace (drop 6 t)
                     ++ (d :: takeWhile isDigit r3) ++ after m).
  { rewrite <- Hafter. cbn [app]. rewrite takeWhile_dropWhile, <- Er.
    now rewrite takeWhile_dropWhile, take_drop. }
  rewrite (f_equal digitsOf Hdec), !digitsOf_app.
  rewrite (digitsOf_spaces (takeWhile _ _)) by apply takeWhile_Forall.
  now rewrite (digitsOf_none (take 6 t)).
Qed.

Lemma normalizeQuery_digits x : digitsOf (normalizeQuery x) = digitsOf x.
Proof.
  unfold normalizeQuery, trim.
  rewrite trimEnd_digits, trimStart_digits, replace_season_num_digits,
    replace_num_season_digits, replaceAll_spaces, squeeze_digits.
  apply strip_digits.
Qed.

(** X19: the normaliser neither drops nor adds nor moves a digit: the digits
    of the result are the digits of the query, in the same order. *)
Theorem normalizeQuery_keeps_digits (x : jsstring) :
  digitsOf (normalizeQuery x) = digitsOf x.
Proof. apply normalizeQuery_digits. Qed.

(** X20: the normaliser never makes a query longer. *)
Theorem normalizeQuery_not_longer (x : jsstring) :
  (length (normalizeQuery x) <= length x)%nat.
Proof.
  unfold normalizeQuery.
  pose proof (trim_length
                (replace re_season_num [Ref 1]
                   (replace re_num_season [Ref 1]
                      (replaceAll re_spaces [Lit (js " ")]
                         (replaceAll re_ordinal [Ref 1] x))))) as H1.
  pose proof (proj1 (replace_season_num_length
                (replace re_num_season [Ref 1]
                   (replaceAll re_spaces [Lit (js " ")]
                      (replaceAll re_ordinal [Ref 1] x))))) as H2.
  pose proof (proj1 (replace_num_season_length
                (replaceAll re_spaces [Lit (js " ")]
                   (replaceAll re_ordinal [Ref 1] x)))) as H3.
  rewrite replaceAll_spaces in *.
  pose proof (squeeze_length false (replaceAll re_ordinal [Ref 1] x)) as H4.
  pose proof (strip_length (S (length x)) None x) as H5.
  unfold replaceAll in *. lia.
Qed.

(** ** The white space of a normalised query *)

Lemma normalb_spaces s :
  normalb s = true ->
  (forall c, c ∈ s -> isWhiteSpace c = true -> c = 32)
  /\ (forall pre a b post,
        s = pre ++ a :: b :: post ->
        isWhiteSpace a = true -> isWhiteSpace b = false).
Proof.
  induction s as [|x s IH]; intros H.
  { split; [intros c Hc; now apply elem_of_nil in Hc|]. now intros [|??]. }
  cbn [normalb] in H. apply andb_true_iff in H as [Hx Hs].
  destruct (IH Hs) as [IH1 IH2]. split.
  - intros c [->|Hc]%elem_of_cons Hw; [|now apply IH1].
    rewrite Hw in Hx. apply andb_true_iff in Hx as [Hx _]. now apply N.eqb_eq.
  - intros [|p pre] a b post E Ha.
    + injection E as -> ->. rewrite Ha in Hx.
      apply andb_true_iff in Hx as [_ Hx]. now apply negb_true_iff in Hx.
    + injection E as -> ->. now apply (IH2 pre a b post).
Qed.

Lemma trimStart_length s : (length (trimStart s) <= length s)%nat.
Proof. destruct (trimStart_factor s) as [l Hl]. rewrite Hl at 2. rewrite length_app. lia. Qed.

Lemma trimEnd_length s : (length (trimEnd s) <= length s)%nat.
Proof. destruct (trimEnd_factor s) as [r Hr]. rewrite Hr at 2. rewrite length_app. lia. Qed.

Lemma trim_fixed_ends s :
  trim s = s ->
  (forall c, head s = Some c -> isWhiteSpace c = false)
  /\ (forall c, last s = Some c -> isWhiteSpace c = false).
Proof.
  intros H. apply (f_equal length) in H. unfold trim in H. split.
  - intros c Hc. destruct s as [|x s]; [done|]. injection Hc as ->.
    destruct (isWhiteSpace c) eqn:E; [exfalso|done].
    cbn [trimStart] in H. rewrite E in H.
    pose proof (trimEnd_length (trimStart s)). pose proof (trimStart_length s).
    cbn [length] in H. lia.
  - intros c Hc. destruct s as [|x s _] using rev_ind; [done|].
    rewrite last_snoc in Hc. injection Hc as ->.
    destruct (isWhiteSpace c) eqn:E; [exfalso|done].
    rewrite trimStart_snoc_space in H by done.
    pose proof (trimStart_length s) as H1. rewrite length_app in H. cbn [length] in H.
    destruct (trimStart s) as [|d t].
    + cbn in H. lia.
    + rewrite trimEnd_snoc, E in H. pose proof (trimEnd_length (d :: t)). lia.
Qed.

(** X21: in the result of the normaliser white space stands only as single
    spaces between other characters: every white-space unit is a space, no
    two of them are neighbours, and the result neither begins nor ends with
    one. *)
Theorem normalizeQuery_single_spaces (x : jsstring) :
  (forall c, c ∈ normalizeQuery x -> isWhiteSpace c = true -> c = 32)
  /\ (forall pre a b post,
        normalizeQuery x = pre ++ a :: b :: post ->
        isWhiteSpace a = true -> isWhiteSpace b = false)
  /\ (forall c, head (normalizeQuery x) = Some c -> isWhiteSpace c = false)
  /\ (forall c, last (normalizeQuery x) = Some c -> isWhiteSpace c = false).
Proof.
  destruct (normalizeQuery_normal x) as [Hn Ht].
  destruct (normalb_spaces _ Hn) as [H1 H2].
  destruct (trim_fixed_ends _ Ht) as [H3 H4]. done.
Qed.

Lemma normalizeQuery_single_spaces_witness :
  (forall c, c ∈ normalizeQuery (js "  My   Show ") -> isWhiteSpace c = true -> c = 32)
  /\ (forall pre a b post,
        normalizeQuery (js "  My   Show ") = pre ++ a :: b :: post ->
        isWhiteSpace a = true -> isWhiteSpace b = false)
  /\ (forall c, head (normalizeQuery (js "  My   Show ")) = Some c ->
                isWhiteSpace c = false)
  /\ (forall c, last (normalizeQuery (js "  My   Show ")) = Some c ->
                isWhiteSpace c = false).
Proof. exact (normalizeQuery_single_spaces (js "  My   Show ")). Defined.

(** ** Queries without digits, blank queries, ordinal numbers *)

Lemma exec_ordinal_digit s prev :
  exec_from re_ordinal prev s <> None -> digitsOf s <> [].
Proof.
  destruct (exec_from re_ordinal prev s) as [m|] eqn:E; [intros _|done].
  apply exec_from_at in E as (t & -> & Hm & _).
  apply ordinal_match_suffix in Hm as (D & suf & -> & [HD1 HD2] & _).
  rewrite !digitsOf_app, (digitsOf_all D) by done.
  intros H. apply app_eq_nil in H as [_ H]. apply app_eq_nil in H as [H _]. done.
Qed.

Lemma exec_num_season_digit s :
  exec re_num_season s <> None -> digitsOf s <> [].
Proof.
  destruct (exec re_num_season s) as [m|] eqn:E; [intros _|done].
  unfold exec in E. apply exec_from_inv in E as (prev' & t & -> & Hm & _).
  rewrite rmatch_num_season in Hm.
  destruct t as [|c s1]; [done|]. destruct (isDigit c) eqn:Ec; [|done].
  rewrite digitsOf_app. cbn. rewrite Ec.
  intros H. apply app_eq_nil in H as [_ H]. done.
Qed.

Lemma exec_season_num_digit s :
  exec re_season_num s <> None -> digitsOf s <> [].
Proof.
  destruct (exec re_season_num s) as [m|] eqn:E; [intros _|done].
  unfold exec in E. apply exec_from_inv in E as (prev' & t & -> & Hm & _).
  rewrite rmatch_season_num in Hm.
  destruct (prefixb _ _ _); [|done].
  destruct (dropWhile isWhiteSpace (drop 6 t)) as [|d r3] eqn:Er; [done|].
  destruct (isDigit d) eqn:Ed; [|done].
  rewrite <- (take_drop 6 t), <- (takeWhile_dropWhile isWhiteSpace (drop 6 t)), Er.
  rewrite !digitsOf_app. cbn. rewrite Ed.
  intros H. apply app_eq_nil in H as [_ H]. apply app_eq_nil in H as [_ H].
  apply app_eq_nil in H as [_ H]. done.
Qed.

Lemma normalizeQuery_plain x :
  digitsOf x = [] -> normalizeQuery x = trim (squeeze false x).
Proof.
  intros Hx. unfold normalizeQuery.
  assert (H1 : exec re_ordinal x = None).
  { destruct (exec re_ordinal x) eqn:E; [|done]. exfalso.
    apply (exec_ordinal_digit x None); [|done]. unfold exec in E. now rewrite E. }
  rewrite (replaceAll_no_match _ _ _ H1), replaceAll_spaces.
  assert (Hq : digitsOf (squeeze false x) = []) by now rewrite squeeze_digits.
  rewrite (replace_no_match re_num_season).
  - rewrite (replace_no_match re_season_num); [done|].
    destruct (exec re_season_num _) eqn:E; [|done]. exfalso.
    apply (exec_season_num_digit (squeeze false x)); [|done]. now rewrite E.
  - destruct (exec re_num_season _) eqn:E; [|done]. exfalso.
    apply (exec_num_season_digit (squeeze false x)); [|done]. now rewrite E.
Qed.

(** X22: a query without a digit has only its white space changed: runs of
    white space become single spaces and those at the ends go; when its
    white space is already so, the query is returned as it is, whatever
    words, "season" among them, it has. *)
Theorem normalizeQuery_without_digits (x : jsstring) :
  digitsOf x = [] ->
  normalizeQuery x = trim (squeeze false x)
  /\ (normalb x = true -> trim x = x -> normalizeQuery x = x).
Proof.
  intros Hx. split; [now apply normalizeQuery_plain|].
  intros Hn Ht. now rewrite normalizeQuery_plain, normalb_squeeze.
Qed.

Lemma normalizeQuery_without_digits_witness :
  normalizeQuery (js "  final   Season ") = trim (squeeze false (js "  final   Season "))
  /\ (normalb (js "  final   Season ") = true ->
      trim (js "  final   Season ") = js "  final   Season " ->
      normalizeQuery (js "  final   Season ") = js "  final   Season ").
Proof.
  apply (normalizeQuery_without_digits (js "  final   Season ")). reflexivity.
Defined.

Lemma trimStart_spaces s :
  Forall (fun c => isWhiteSpace c = true) s <-> trimStart s = [].
Proof.
  induction s as [|c s IH]; [done|]. cbn [trimStart].
  destruct (isWhiteSpace c) eqn:E.
  - rewrite <- IH. split; [now intros [_ ?]%Forall_cons|now constructor].
  - split; [|done]. intros [? _]%Forall_cons. congruence.
Qed.

Lemma trimEnd_nil s : trimEnd s = [] -> Forall (fun c => isWhiteSpace c = true) s.
Proof.
  unfold trimEnd. intros H. apply (f_equal reverse) in H.
  rewrite reverse_involutive in H. change (reverse []) with (@nil N) in H.
  apply trimStart_spaces in H. rewrite <- (reverse_involutive s).
  now apply Forall_reverse.
Qed.

Lemma trim_nil_iff s : trim s = [] <-> Forall (fun c => isWhiteSpace c = true) s.
Proof.
  unfold trim. split.
  - intros H%trimEnd_nil. destruct (trimStart s) as [|c t] eqn:E.
    + now apply trimStart_spaces.
    + exfalso. apply Forall_cons in H as [Hc _].
      rewrite trimStart_dropWhile in E. apply dropWhile_head in E. congruence.
  - intros H%trimStart_spaces. now rewrite H.
Qed.

Lemma squeeze_spaces s :
  forall b,
    Forall (fun c => isWhiteSpace c = true) (squeeze b s)
    <-> Forall (fun c => isWhiteSpace c = true) s.
Proof.
  induction s as [|c s IH]; intros b; [done|]. cbn [squeeze].
  destruct (isWhiteSpace c) eqn:E.
  - destruct b.
    + rewrite IH. split; [now constructor|now intros [_ ?]%Forall_cons].
    + rewrite !Forall_cons, IH. split; [now intros [_ ?]|now intros [_ ?]].
  - rewrite !Forall_cons, IH. split; now intros [? ?].
Qed.

Lemma search_while_extends (upstream : jsstring -> Response) fuel keyword :
  forall allResults page hasNext log,
  exists rest,
    snd (search_while upstream fuel keyword allResults page hasNext log)
    = log ++ rest.
Proof.
  induction fuel as [|fuel IH]; intros allResults page hasNext log.
  { exists []. now rewrite app_nil_r. }
  cbn [search_while]. destruct hasNext; [|exists []; now rewrite app_nil_r].
  unfold bind at 1. unfold lift.
  destruct (encodeURIComponent keyword) as [enc|];
    [|exists []; now rewrite app_nil_r].
  cbn [ret]. unfold bind at 1. unfold fetch at 1. cbn zeta.
  destruct (ok (upstream (searchUrl enc page))); cbn [negb];
    [|now exists [searchUrl enc page]].
  unfold bind at 1. unfold asSearchPage.
  destruct (json (upstream (searchUrl enc page))) as [[p|w|]|];
    try (now exists [searchUrl enc page]).
  cbn [ret].
  destruct (IH (allResults ++ (toSearchResult <$> results p)) (page + 1)
              (hasNextPage p) (log ++ [searchUrl enc page])) as [r Hr].
  exists (searchUrl enc page :: r). now rewrite Hr, <- app_assoc.
Qed.

(** X23: the normalised query is empty exactly for the queries that have
    nothing but white space; the search for such a query asks for the empty
    keyword. *)
Theorem normalizeQuery_blank :
  (forall x, normalizeQuery x = [] <-> Forall (fun c => isWhiteSpace c = true) x)
  /\ (forall (upstream : jsstring -> Response) q fuel log,
        Forall (fun c => isWhiteSpace c = true) (query q) ->
        exists rest,
          snd (search upstream (S fuel) q log)
          = log ++ (apiURL ++ js "/anime/zoro/?page=1") :: rest).
Proof.
  assert (H : forall x,
             normalizeQuery x = [] <-> Forall (fun c => isWhiteSpace c = true) x).
  { intros x. split.
    - intros Hx. assert (Hd : digitsOf x = []).
      { rewrite <- normalizeQuery_digits, Hx. reflexivity. }
      rewrite normalizeQuery_plain in Hx by done.
      now apply trim_nil_iff, squeeze_spaces in Hx.
    - intros Hx. rewrite normalizeQuery_plain by now apply digitsOf_spaces.
      now apply trim_nil_iff, squeeze_spaces. }
  split; [exact H|].
  intros upstream q fuel log Hq. apply H in Hq. unfold search. rewrite Hq.
  cbn [search_while]. unfold bind at 1. unfold lift. cbn [encodeURIComponent ret].
  unfold bind at 1. unfold fetch at 1. cbn zeta.
  change (searchUrl [] 1) with (apiURL ++ js "/anime/zoro/?page=1").
  set (u := apiURL ++ js "/anime/zoro/?page=1").
  destruct (ok (upstream u)); cbn [negb]; [|now exists []].
  unfold bind at 1. unfold asSearchPage.
  destruct (json (upstream u)) as [[p|w|]|]; try (now exists []).
  cbn [ret].
  destruct (search_while_extends upstream fuel [] ([] ++ (toSearchResult <$> results p))
              (1 + 1) (hasNextPage p) (log ++ [u])) as [r Hr].
  exists r. now rewrite Hr, <- app_assoc.
Qed.

Lemma takeWhile_all p (s : jsstring) :
  Forall (fun c => p c = true) s -> takeWhile p s = s.
Proof. induction 1 as [|c s Hc _ IH]; cbn; [done|]. now rewrite Hc, IH. Qed.

Lemma trim_plain s :
  Forall (fun c => isWhiteSpace c = false) s -> trim s = s.
Proof.
  intros H. assert (Hstart : forall t, Forall (fun c => isWhiteSpace c = false) t
                                       -> trimStart t = t).
  { intros t Ht. destruct Ht as [|c t Hc _]; [done|]. cbn. now rewrite Hc. }
  unfold trim, trimEnd. rewrite (Hstart s H).
  rewrite Hstart by now apply Forall_reverse. apply reverse_involutive.
Qed.

Lemma squeeze_plain s :
  Forall (fun c => isWhiteSpace c = false) s -> squeeze false s = s.
Proof. induction 1 as [|c s Hc _ IH]; cbn; [done|]. now rewrite Hc, IH. Qed.

Lemma exec_ordinal_nil prev : exec_from re_ordinal prev [] = None.
Proof. apply exec_ordinal_None. cbn. now destruct (isWordAt prev). Qed.

(** The global replacement on a number with a suffix. *)
Lemma strip_ordinal_number (D suf : jsstring) :
  isNumber D -> isSuffix2 suf = true ->
  replaceAll re_ordinal [Ref 1] (D ++ suf) = D.
Proof.
  intros [HD1 HD2] Hsuf. pose proof (suffix_letters suf Hsuf) as [Hlen Hletters].
  destruct D as [|c D1]; [done|]. apply Forall_cons in HD2 as [Hc HD2].
  assert (Hhead : match suf with [] => True | x :: _ => isDigit x = false end).
  { destruct suf as [|x suf]; [done|]. now apply Forall_cons in Hletters as [[? _] _]. }
  pose proof (rmatch_ordinal_someb None ((c :: D1) ++ suf)) as Hb.
  unfold ordAt in Hb. cbn [isWordAt negb andb] in Hb.
  rewrite takeWhile_all in Hb; cycle 1.
  { apply Forall_app. split.
    - constructor; [now apply digit_is_word|].
      eapply Forall_impl; [exact HD2|]. intros d. apply digit_is_word.
    - eapply Forall_impl; [exact Hletters|]. now intros d (_ & ? & _). }
  cbn [app ordWord] in Hb.
  destruct (takeWhile_app_stop isDigit D1 suf HD2 Hhead) as [Htake Hdrop].
  rewrite Hc, Hdrop, Hsuf in Hb.
  destruct (rmatch re_ordinal None (c :: D1 ++ suf) ∅ final) as [[s' caps]|] eqn:E;
    [|done]. clear Hb.
  apply rmatch_ordinal_inv in E as E'.
  destruct E' as (c0 & s1 & [= <- <-] & _ & Hcaps & Hs' & _).
  rewrite Hdrop in Hs'. rewrite Htake in Hcaps.
  assert (s' = []) as -> by (subst s'; destruct suf as [|? [|? [|? ?]]]; done).
  unfold replaceAll. cbn [replace_from app].
  rewrite exec_from_eq, E. cbn [length before matched after].
  change (take (S (length (D1 ++ suf)) - 0) (c :: D1 ++ suf))
    with (c :: take (length (D1 ++ suf)) (D1 ++ suf)).
  unfold substitute, group. cbn [fmap list_fmap concat groups].
  rewrite Hcaps. cbn [default from_option id app replace_from].
  rewrite exec_ordinal_nil. now rewrite !app_nil_r.
Qed.

Lemma digits_seasonless (D : jsstring) :
  Forall (fun c => isDigit c = true) D -> ~ containsIgnoreCase (js "season") D.
Proof.
  intros HD (pre & mid & post & -> & Hmid).
  apply season_plain in Hmid as [Hne Hmid].
  apply Forall_app in HD as [_ HD]. apply Forall_app in HD as [HD _].
  destruct mid as [|x mid]; [done|].
  apply Forall_cons in HD as [H1 _]. apply Forall_cons in Hmid as [[_ H2] _].
  congruence.
Qed.

(** X24: a number with one of the suffixes st, nd, rd, th is normalised to
    the number, whether or not the suffix is the one that number takes. *)
Theorem normalizeQuery_ordinal_number (D suf : jsstring) :
  isNumber D -> isSuffix2 suf = true -> normalizeQuery (D ++ suf) = D.
Proof.
  intros HD Hsuf. unfold normalizeQuery.
  rewrite (strip_ordinal_number D suf HD Hsuf), replaceAll_spaces.
  destruct HD as [_ HD].
  assert (Hplain : Forall (fun c => isWhiteSpace c = false) D).
  { eapply Forall_impl; [exact HD|]. intros d. apply isDigit_not_space. }
  rewrite squeeze_plain by done.
  rewrite (replace_no_match re_num_season); cycle 1.
  { destruct (exec re_num_season D) eqn:E; [|done]. exfalso.
    apply (digits_seasonless D HD), num_season_contains. now rewrite E. }
  rewrite (replace_no_match re_season_num); cycle 1.
  { destruct (exec re_season_num D) eqn:E; [|done]. exfalso.
    apply (digits_seasonless D HD), season_num_contains. now rewrite E. }
  now apply trim_plain.
Qed.

Lemma normalizeQuery_ordinal_number_witness :
  normalizeQuery (js "112" ++ js "nd") = js "112".
Proof.
  apply (normalizeQuery_ordinal_number (js "112") (js "nd")).
  - split; [discriminate|decide_closed].
  - reflexivity.
Defined.

Lemma normalizeQuery_blank_witness :
  Forall (fun c => isWhiteSpace c = true) [32; 9; 0x3000]
  /\ exists rest,
       snd (search threePages 1 {| query := [32; 9; 0x3000] |} [])
       = [] ++ (apiURL ++ js "/anime/zoro/?page=1") :: rest.
Proof.
  assert (H : Forall (fun c => isWhiteSpace c = true) [32; 9; 0x3000])
    by decide_closed.
  split; [exact H|].
  exact (proj2 normalizeQuery_blank threePages {| query := [32; 9; 0x3000] |}
           0%nat [] H).
Defined.

(** ** A season and its number *)

Lemma exists_digit_then_suffix s prev :
  exec_from re_ordinal prev s <> None ->
  exists pre d a b post,
    s = pre ++ d :: a :: b :: post /\ isDigit d = true /\ isSuffix2 [a; b] = true.
Proof.
  destruct (exec_from re_ordinal prev s) as [m|] eqn:E; [intros _|done].
  apply exec_from_at in E as (t & -> & Hm & _).
  apply ordinal_match_suffix in Hm as (D & suf & -> & [HD1 HD2] & _ & Hsuf).
  destruct (exists_last HD1) as (D' & d & ->).
  apply Forall_app in HD2 as [_ Hd]. apply Forall_cons in Hd as [Hd _].
  pose proof (suffix_letters suf Hsuf) as [Hlen _].
  destruct suf as [|a [|b [|? ?]]]; try done.
  exists (before m ++ D'), d, a, b, (after m).
  split; [|done]. now rewrite <- !app_assoc.
Qed.

(** In a text that ends with a run of digits and has no other digit, what
    follows a digit is digits. *)
Lemma after_digit_digits (A D pre : jsstring) d rest :
  Forall (fun c => isDigit c = false) A ->
  Forall (fun c => isDigit c = true) D ->
  A ++ D = pre ++ d :: rest -> isDigit d = true ->
  Forall (fun c => isDigit c = true) rest.
Proof.
  intros HA HD. revert pre. induction HA as [|x A Hx _ IH]; intros pre E Hd.
  - cbn [app] in E. rewrite E in HD. apply Forall_app in HD as [_ HD].
    now apply Forall_cons in HD as [_ ?].
  - destruct pre as [|p pre]; injection E as -> E; [congruence|].
    now apply (IH pre).
Qed.

(** In a text that begins with a run of digits and has no other digit, a
    digit that something else follows is the last of the run. *)
Lemma digit_run_last (D R pre : jsstring) d a rest :
  Forall (fun c => isDigit c = true) D ->
  Forall (fun c => isDigit c = false) R ->
  D ++ R = pre ++ d :: a :: rest -> isDigit d = true -> isDigit a = false ->
  a :: rest = R.
Proof.
  intros HD HR. revert pre. induction HD as [|x D Hx HD IH]; intros pre E Hd Ha.
  - cbn [app] in E. rewrite E in HR. apply Forall_app in HR as [_ HR].
    apply Forall_cons in HR as [? _]. congruence.
  - destruct pre as [|p pre]; injection E as -> E; [|now apply (IH pre)].
    destruct HD as [|y D Hy _]; [done|]. injection E as -> _. congruence.
Qed.

Lemma squeeze_plain_app (a r : jsstring) b :
  Forall (fun c => isWhiteSpace c = false) a -> a <> [] ->
  squeeze b (a ++ r) = a ++ squeeze false r.
Proof.
  intros Ha Hne. revert b. induction Ha as [|c a Hc Ha IH]; intros b; [done|].
  cbn [app squeeze]. rewrite Hc. f_equal.
  destruct a as [|c' a]; [done|]. now apply IH.
Qed.

Lemma squeeze_spaces_app (W r : jsstring) :
  Forall (fun c => isWhiteSpace c = true) W ->
  Forall (fun c => isWhiteSpace c = false) r ->
  squeeze false (W ++ r) = oneSpace W ++ r.
Proof.
  intros HW Hr. destruct HW as [|w W Hw HW]; [now apply squeeze_plain|].
  cbn [app squeeze]. rewrite Hw. f_equal.
  induction HW as [|w' W Hw' _ IH]; cbn [app squeeze].
  - destruct Hr as [|c r Hc Hr]; [done|]. cbn [squeeze]. rewrite Hc. f_equal.
    now apply squeeze_plain.
  - now rewrite Hw'.
Qed.

Section SeasonNumber.

Variables sw W D : jsstring.
Hypothesis HS : canonicalize <$> sw = canonicalize <$> js "season".
Hypothesis HW : Forall (fun c => isWhiteSpace c = true) W.
Hypothesis HD : isNumber D.

Lemma season_word :
  length sw = 6%nat
  /\ Forall (fun c => isWhiteSpace c = false /\ isDigit c = false) sw
  /\ prefixb true (js "Season") sw = true.
Proof.
  split; [|split].
  - apply (f_equal length) in HS. now rewrite !length_fmap in HS.
  - now apply season_plain in HS as [_ ?].
  - apply prefixb_true_iff. exists sw, []. now rewrite app_nil_r.
Qed.

Lemma season_gap : Forall (fun c => isWhiteSpace c = true) (oneSpace W).
Proof. unfold oneSpace. destruct W; [constructor|]. repeat constructor. Qed.

Lemma number_plain : Forall (fun c => isWhiteSpace c = false) D.
Proof.
  destruct HD as [_ H]. eapply Forall_impl; [exact H|].
  intros d. apply isDigit_not_space.
Qed.

Lemma season_then_number : normalizeQuery (sw ++ W ++ D) = D.
Proof.
  destruct season_word as (Hlen & Hplain & Hpre). destruct HD as [HD1 HD2].
  pose proof number_plain as HDp. pose proof season_gap as Hgap.
  assert (HSw : Forall (fun c => isWhiteSpace c = false) sw)
    by (eapply Forall_impl; [exact Hplain|]; now intros c [? _]).
  assert (HSd : Forall (fun c => isDigit c = false) sw)
    by (eapply Forall_impl; [exact Hplain|]; now intros c [_ ?]).
  assert (HA : forall V, Forall (fun c => isWhiteSpace c = true) V ->
                         Forall (fun c => isDigit c = false) (sw ++ V)).
  { intros V HV. apply Forall_app. split; [done|].
    eapply Forall_impl; [exact HV|]. intros c. apply space_not_digit. }
  unfold normalizeQuery.
  rewrite (replaceAll_no_match re_ordinal); cycle 1.
  { destruct (exec re_ordinal (sw ++ W ++ D)) eqn:E; [|done]. exfalso.
    destruct (exists_digit_then_suffix (sw ++ W ++ D) None)
      as (pre & d & a & b & post & Ex & Hd & Hsuf); [unfold exec in E; now rewrite E|].
    rewrite app_assoc in Ex.
    pose proof (after_digit_digits _ _ _ _ _ (HA W HW) HD2 Ex Hd) as Hrest.
    apply Forall_cons in Hrest as [Ha _].
    apply suffix_letters in Hsuf as [_ Hsuf].
    apply Forall_cons in Hsuf as [[? _] _]. congruence. }
  rewrite replaceAll_spaces.
  rewrite squeeze_plain_app by (done || now destruct sw).
  rewrite squeeze_spaces_app by done.
  rewrite (replace_no_match re_num_season); cycle 1.
  { destruct (exec re_num_season (sw ++ oneSpace W ++ D)) as [m|] eqn:E; [|done]. exfalso.
    unfold exec in E. apply exec_from_inv in E as (prev' & t & Ex & Hm & _).
    rewrite rmatch_num_season in Hm.
    destruct t as [|c s1]; [done|]. destruct (isDigit c) eqn:Ec; [|done].
    rewrite app_assoc in Ex.
    pose proof (after_digit_digits _ _ _ _ _ (HA (oneSpace W) Hgap) HD2 Ex Ec) as Hrest.
    cbn zeta in Hm. now rewrite (dropWhile_all isDigit s1 Hrest) in Hm. }
  assert (Hm : exec re_season_num (sw ++ oneSpace W ++ D)
               = Some (mkMatch [] (sw ++ oneSpace W ++ D) (<[1%nat := D]> ∅) [])).
  { unfold exec. rewrite exec_from_eq, rmatch_season_num.
    replace (prefixb true (js "Season") (sw ++ oneSpace W ++ D)) with true; cycle 1.
    { symmetry. apply prefixb_true_iff. now exists sw, (oneSpace W ++ D). }
    rewrite <- Hlen, drop_app_length.
    destruct D as [|d D1]; [done|]. apply Forall_cons in HD2 as [Hd HD2].
    destruct (takeWhile_app_stop isWhiteSpace (oneSpace W) (d :: D1) Hgap) as [_ ->];
      [now apply isDigit_not_space|].
    rewrite Hd, (dropWhile_all isDigit D1 HD2), (takeWhile_all isDigit D1 HD2).
    cbn [length]. now rewrite Nat.sub_0_r, firstn_all. }
  unfold replace at 1. rewrite Hm.
  unfold substitute, group. cbn [fmap list_fmap concat groups before after].
  rewrite lookup_insert_eq. cbn [default from_option id app].
  rewrite !app_nil_r. now apply trim_plain.
Qed.

Lemma number_then_season : normalizeQuery (D ++ W ++ sw) = D.
Proof.
  destruct season_word as (Hlen & Hplain & Hpre). destruct HD as [HD1 HD2].
  pose proof number_plain as HDp. pose proof season_gap as Hgap.
  assert (HSw : Forall (fun c => isWhiteSpace c = false) sw)
    by (eapply Forall_impl; [exact Hplain|]; now intros c [? _]).
  assert (HSd : Forall (fun c => isDigit c = false) sw)
    by (eapply Forall_impl; [exact Hplain|]; now intros c [_ ?]).
  assert (HR : forall V, Forall (fun c => isWhiteSpace c = true) V ->
                         Forall (fun c => isDigit c = false) (V ++ sw)).
  { intros V HV. apply Forall_app. split; [|done].
    eapply Forall_impl; [exact HV|]. intros c. apply space_not_digit. }
  unfold normalizeQuery.
  rewrite (replaceAll_no_match re_ordinal); cycle 1.
  { destruct (exec re_ordinal (D ++ W ++ sw)) eqn:E; [|done]. exfalso.
    destruct (exists_digit_then_suffix (D ++ W ++ sw) None)
      as (pre & d & a & b & post & Ex & Hd & Hsuf); [unfold exec in E; now rewrite E|].
    pose proof (suffix_letters _ Hsuf) as [_ Hletters].
    apply Forall_cons in Hletters as [(Ha & _ & Haw) _].
    pose proof (digit_run_last _ _ _ _ _ _ HD2 (HR W HW) Ex Hd Ha) as ER.
    destruct HW as [|w V Hw _].
    - cbn [app] in ER. rewrite <- ER in HS.
      cbn [fmap list_fmap] in HS. injection HS as _ Hb _.
      unfold isSuffix2 in Hsuf.
      repeat (apply orb_true_iff in Hsuf as [Hsuf|Hsuf]);
        apply bool_decide_eq_true in Hsuf; injection Hsuf as _ ->; discriminate.
    - injection ER as -> _. congruence. }
  rewrite replaceAll_spaces.
  rewrite squeeze_plain_app by done.
  rewrite squeeze_spaces_app by done.
  assert (Hm : exec re_num_season (D ++ oneSpace W ++ sw)
               = Some (mkMatch [] (D ++ oneSpace W ++ sw) (<[1%nat := D]> ∅) [])).
  { unfold exec. rewrite exec_from_eq, rmatch_num_season.
    destruct D as [|d D1]; [done|]. apply Forall_cons in HD2 as [Hd HD2].
    cbn [app]. rewrite Hd. cbn zeta.
    destruct (takeWhile_app_stop isDigit D1 (oneSpace W ++ sw) HD2) as [-> ->].
    { pose proof (HR (oneSpace W) Hgap) as H. destruct (oneSpace W ++ sw); [done|].
      now apply Forall_cons in H as [? _]. }
    destruct (takeWhile_app_stop isWhiteSpace (oneSpace W) sw Hgap) as [_ ->].
    { destruct sw; [done|]. now apply Forall_cons in HSw as [? _]. }
    rewrite Hpre. rewrite <- Hlen, drop_all.
    now rewrite take_ge by (cbn [length]; lia). }
  unfold replace at 2. rewrite Hm.
  unfold substitute, group. cbn [fmap list_fmap concat groups before after].
  rewrite lookup_insert_eq. cbn [default from_option id app].
  rewrite !app_nil_r.
  rewrite (replace_no_match re_season_num); cycle 1.
  { destruct (exec re_season_num D) eqn:E; [|done]. exfalso.
    apply (digits_seasonless D HD2), season_num_contains. now rewrite E. }
  now apply trim_plain.
Qed.

End SeasonNumber.

(** X25: the word "season", in any mix of capitals and small letters, is
    taken away from beside a number: the query made of the word, any white
    space or none, and the number is normalised to the number, and so is the
    number followed by the word. *)
Theorem normalizeQuery_season_number (sw W D : jsstring) :
  canonicalize <$> sw = canonicalize <$> js "season" ->
  Forall (fun c => isWhiteSpace c = true) W ->
  isNumber D ->
  normalizeQuery (sw ++ W ++ D) = D /\ normalizeQuery (D ++ W ++ sw) = D.
Proof.
  intros HS HW HD. split.
  - now apply season_then_number.
  - now apply number_then_season.
Qed.

Lemma normalizeQuery_season_number_witness :
  normalizeQuery (js "sEaSoN" ++ [9; 32] ++ js "12") = js "12"
  /\ normalizeQuery (js "12" ++ [9; 32] ++ js "sEaSoN") = js "12".
Proof.
  apply (normalizeQuery_season_number (js "sEaSoN") [9; 32] (js "12")).
  - reflexivity.
  - decide_closed.
  - split; [discriminate|decide_closed].
Defined.
